(** * take_photo: capture a still image, correct its orientation, report status

    A shallow embedding of [take_photo.py].  The module is a short
    script built from seven functions; each one is transcribed below
    under its own name, and the two long stretches of
    [usb_camera_photo] (applying the settings, saving the frame) and the
    arithmetic of [rotate] are named after the lines they cover.

    - Numbers.  A finite [float] is the rational number it denotes; the
      non-finite values are separate constructors because [int()] raises
      on them.  Integers are [Z].  The arithmetic of lines 41-44 is given
      twice: [rotation_plan] carries it out exactly in [Q], and
      [rotation_plan_binary64] rounds every float operation to the
      nearest binary64 number, ties to even, as the interpreter does.
      [binary64_plan_exact] shows that the two agree for every binary64
      angle of at most 2^52 degrees in magnitude; [rotate] is built on
      the exact one.
    - Strings are byte strings; [os.environ] is a finite map on them.  A
      character is one byte when it is ASCII; what [int()] makes of a
      first character beyond ASCII is left to the surroundings.
    - Libraries.  [np.rot90], [cv2.getRotationMatrix2D] and
      [cv2.warpAffine] are modelled after their documentation on frames
      given as lists of rows; cosine and sine are parameters.  The
      document given to [json.dumps] is kept as a tree.  A call of
      [get_config_value] returns or raises, and prints, as the
      surroundings say.
    - Effects.  Standard output, HTTP requests, camera operations, file
      writes and subprocess launches are appended to an event trace by a
      reader/state/exception monad; whatever the script reads from its
      surroundings is a field of [world].  The trace also records each
      entry into [log], so that "an event is reported" can be read off
      it whether the report is then printed, posted or fails. *)

From Stdlib Require Import ZArith QArith Qround Qabs Qpower Lia Lqa String Ascii List.
From stdpp Require Import gmap strings pretty.
Import ListNotations.

Open Scope Z_scope.

(** ** Host-language arithmetic on finite floats *)

Module PyNum.

(** The value of a [float]: a finite number, an infinity or a NaN. *)
Inductive pyfloat : Type :=
| Finite (q : Q)
| Infinite (negative : bool)
| NaN.

(** [int(x)] on a finite float: truncation toward zero. *)
Definition int_of_float (x : Q) : Z := Z.quot (Qnum x) (Zpos (Qden x)).

(** [x % y] on floats: the result takes the sign of the divisor, that is
    [x - floor(x / y) * y]. *)
Definition float_mod (x y : Q) : Q := (x - inject_Z (Qfloor (x / y)) * y)%Q.

(** [x < y] as a boolean test. *)
Definition Qlt_bool (x y : Q) : bool := negb (Qle_bool y x).

(** The floor of the binary logarithm of [|q|], for [q] other than 0. *)
Definition Qlog2 (q : Q) : Z :=
  let k := Z.log2 (Z.abs (Qnum q)) - Z.log2 (Zpos (Qden q)) in
  if Qle_bool (2 ^ k) (Qabs q) then k else k - 1.

(** The nearest integer, a tie going to the even one. *)
Definition round_half_even (x : Q) : Z :=
  let f := Qfloor x in
  match (x - inject_Z f ?= 1 # 2)%Q with
  | Lt => f
  | Gt => f + 1
  | Eq => if Z.even f then f else f + 1
  end.

(** The exponent of the last of the 53 bits of a binary64 number of the
    magnitude of [q]; it stops at -1074, where the subnormal numbers
    begin. *)
Definition ulp_exponent (q : Q) : Z := Z.max (Qlog2 q - 52) (-1074).

(** [q] rounded to 53 significant bits, to the nearest, ties to even;
    the exponent is not bounded above here, see [to_float]. *)
Definition b64_round (q : Q) : Q :=
  if Qeq_bool q 0 then 0%Q
  else
    let e := ulp_exponent q in
    let m := round_half_even (Qabs q / 2 ^ e) in
    Qred (if Qle_bool 0 q then inject_Z m * 2 ^ e else - (inject_Z m * 2 ^ e)).

(** The result of a float operation whose exact value is [q]: the
    nearest binary64 number, or an infinity when that is beyond the
    largest one. *)
Definition to_float (q : Q) : pyfloat :=
  let r := b64_round q in
  if Qle_bool (2 ^ 1024) (Qabs r) then Infinite (Qlt_bool q 0) else Finite r.

(** [q] is a finite binary64 number. *)
Definition binary64 (q : Q) : Prop := (b64_round q == q)%Q /\ (Qabs q < 2 ^ 1024)%Q.

(** [q] is a multiple of [2 ^ e]. *)
Definition on_grid (e : Z) (q : Q) : Prop := exists m : Z, (q == inject_Z m * 2 ^ e)%Q.

(** Objects handed to [str()], [print] and [format]. *)
Inductive pyobj : Type :=
| PyStr (s : string)
| PyInt (n : Z).

Definition str (o : pyobj) : string :=
  match o with
  | PyStr s => s
  | PyInt n => pretty n
  end.

(** [int(c)] for a one-character string [c] of the ASCII range: a
    decimal digit, anything else is refused. *)
Definition int_of_char (c : ascii) : option Z :=
  let n := Z.of_nat (nat_of_ascii c) in
  if (48 <=? n) && (n <=? 57) then Some (n - 48) else None.

(** The byte is a character of its own. *)
Definition is_ascii (c : ascii) : bool := Z.of_nat (nat_of_ascii c) <? 128.

(** A character of a [str]: one ASCII byte, or a character beyond ASCII,
    kept as the bytes of the string from where it starts. *)
Inductive pychar : Type :=
| AsciiChar (c : ascii)
| WideChar (encoded : string).

(** [needle in haystack] on strings. *)
Fixpoint contains (needle haystack : string) : bool :=
  String.prefix needle haystack ||
  match haystack with
  | EmptyString => false
  | String _ rest => contains needle rest
  end.

End PyNum.
Export PyNum.

Coercion PyStr : string >-> pyobj.

(** Exceptions the script can meet.  A constructor stands for the class
    and its subclasses; [OtherError] for any class that no [except]
    clause of the script names. *)
Inductive exn : Type :=
| KeyError (key : string)
| ValueError
| IndexError
| OverflowError
| OSError
| CvError
| OtherError (name : string).

Inductive outcome (A : Type) : Type :=
| Returns (a : A)
| Raises (e : exn).
Arguments Returns {A} a.
Arguments Raises {A} e.

(** [int(x)] on any float. *)
Definition int_of_pyfloat (x : pyfloat) : outcome Z :=
  match x with
  | Finite q => Returns (int_of_float q)
  | Infinite _ => Raises OverflowError
  | NaN => Raises ValueError
  end.

(** [float(n)], as applied to the integer operand of a mixed operation:
    an integer too large for a float is refused. *)
Definition float_of_int (n : Z) : outcome Q :=
  match to_float (inject_Z n) with
  | Finite q => Returns q
  | _ => Raises OverflowError
  end.

(** ** Frames and the two array libraries *)

Module Img.

(** One pixel: three 8-bit channels in the capture library's order. *)
Record pixel : Type := Pixel { blue : Z; green : Z; red : Z }.

Definition black : pixel := Pixel 0 0 0.

(** A frame: a list of rows, each a list of pixels (height x width x 3). *)
Definition image : Type := list (list pixel).

Definition height_of (m : image) : nat := length m.
Definition width_of (m : image) : nat := length (hd [] m).

(** [image.shape], without the constant channel count. *)
Definition shape (m : image) : nat * nat := (height_of m, width_of m).

(** The array is an [h] x [w] grid of 8-bit pixels. *)
Definition channel_ok (c : Z) : Prop := 0 <= c <= 255.
Definition pixel_ok (p : pixel) : Prop :=
  channel_ok (blue p) /\ channel_ok (green p) /\ channel_ok (red p).
Definition grid (h w : nat) (m : image) : Prop :=
  length m = h /\ Forall (fun row => length row = w) m.
Definition frame_ok (h w : nat) (m : image) : Prop :=
  grid h w m /\ Forall (Forall pixel_ok) m.

(** [flip(m, 0)] and [flip(m, 1)]. *)
Definition flip0 (m : image) : image := rev m.
Definition flip1 (m : image) : image := map (@rev pixel) m.

(** [transpose(m, (1, 0, 2))]: rows become columns. *)
Definition transpose (m : image) : image :=
  map (fun j => map (fun row => nth j row black) m) (seq 0 (width_of m)).

(** [np.rot90(m, k)]: [k] counter-clockwise quarter turns, [k] taken
    modulo 4 as the library does. *)
Definition np_rot90 (m : image) (k : Z) : image :=
  match k mod 4 with
  | 0 => m
  | 1 => transpose (flip1 m)
  | 2 => flip1 (flip0 m)
  | _ => flip1 (transpose m)
  end.

(** A 2x3 affine matrix. *)
Record affine : Type := Affine { m00 : Q; m01 : Q; m02 : Q; m10 : Q; m11 : Q; m12 : Q }.

(** Componentwise equality of matrices, up to the value of the entries. *)
Definition affine_eq (M N : affine) : Prop :=
  (m00 M == m00 N /\ m01 M == m01 N /\ m02 M == m02 N /\
   m10 M == m10 N /\ m11 M == m11 N /\ m12 M == m12 N)%Q.

Definition identity_affine : affine := Affine 1 0 0 0 1 0.

Section Warp.

(** Cosine and sine of an angle given in degrees, as the imaging library
    evaluates them. *)
Variables cos_deg sin_deg : Q -> Q.

(** [cv2.getRotationMatrix2D(center, angle, scale)]. *)
Definition getRotationMatrix2D (cx cy : Z) (angle scale : Q) : affine :=
  let alpha := (scale * cos_deg angle)%Q in
  let beta := (scale * sin_deg angle)%Q in
  {| m00 := alpha; m01 := beta;
     m02 := ((1 - alpha) * inject_Z cx - beta * inject_Z cy)%Q;
     m10 := (- beta)%Q; m11 := alpha;
     m12 := (beta * inject_Z cx + (1 - alpha) * inject_Z cy)%Q |}.

End Warp.

(** The warp maps destination coordinates back to source coordinates with
    the inverse of the given matrix. *)
Definition invert_affine (M : affine) : affine :=
  let D := (m00 M * m11 M - m01 M * m10 M)%Q in
  let D := if Qeq_bool D 0 then 0%Q else (1 / D)%Q in
  let a00 := (m11 M * D)%Q in
  let a01 := (m01 M * - D)%Q in
  let a10 := (m10 M * - D)%Q in
  let a11 := (m00 M * D)%Q in
  {| m00 := a00; m01 := a01; m02 := (- a00 * m02 M - a01 * m12 M)%Q;
     m10 := a10; m11 := a11; m12 := (- a10 * m02 M - a11 * m12 M)%Q |}.

(** Source pixel at column [x], row [y]; outside the array the border is
    the constant 0. *)
Definition pixel_at (m : image) (x y : Z) : pixel :=
  if (0 <=? x) && (0 <=? y)
  then nth (Z.to_nat x) (nth (Z.to_nat y) m []) black
  else black.

Definition saturate_u8 (v : Z) : Z := Z.max 0 (Z.min 255 v).

(** Bilinear blend of four neighbouring channel values, rounded to the
    nearest integer and saturated to 8 bits. *)
Definition blend (a b : Q) (c00 c10 c01 c11 : Z) : Z :=
  saturate_u8 (Qfloor (
    (1 - a) * (1 - b) * inject_Z c00 + a * (1 - b) * inject_Z c10 +
    (1 - a) * b * inject_Z c01 + a * b * inject_Z c11 + (1 # 2))%Q).

Definition sample (m : image) (X Y : Q) : pixel :=
  let x0 := Qfloor X in
  let y0 := Qfloor Y in
  let a := (X - inject_Z x0)%Q in
  let b := (Y - inject_Z y0)%Q in
  let p00 := pixel_at m x0 y0 in
  let p10 := pixel_at m (x0 + 1) y0 in
  let p01 := pixel_at m x0 (y0 + 1) in
  let p11 := pixel_at m (x0 + 1) (y0 + 1) in
  {| blue := blend a b (blue p00) (blue p10) (blue p01) (blue p11);
     green := blend a b (green p00) (green p10) (green p01) (green p11);
     red := blend a b (red p00) (red p10) (red p01) (red p11) |}.

(** [cv2.warpAffine(src, M, (width, height))] with the default flags:
    bilinear interpolation, constant zero border.  An empty source is
    rejected. *)
Definition warpAffine (src : image) (M : affine) (dsize : nat * nat) : outcome image :=
  let '(width, height) := dsize in
  if (Nat.eqb (height_of src) 0 || Nat.eqb (width_of src) 0)%bool then Raises CvError
  else
    let N := invert_affine M in
    Returns
      (map (fun y =>
         map (fun x =>
           let fx := inject_Z (Z.of_nat x) in
           let fy := inject_Z (Z.of_nat y) in
           sample src (m00 N * fx + m01 N * fy + m02 N)%Q
                      (m10 N * fx + m11 N * fy + m12 N)%Q)
           (seq 0 width))
         (seq 0 height)).

End Img.
Export Img.

(** ** The outside world, events and the effect monad *)

(** Device properties set on the camera ([cv2.CAP_PROP_*]). *)
Inductive cap_prop : Type :=
| CAP_PROP_FRAME_WIDTH
| CAP_PROP_FRAME_HEIGHT
| CAP_PROP_BRIGHTNESS
| CAP_PROP_CONTRAST
| CAP_PROP_SATURATION
| CAP_PROP_HUE
| CAP_PROP_GAIN.

(** The JSON documents the script serialises. *)
#[warnings="-register-all"]
Inductive json : Type :=
| JString (s : string)
| JObject (fields : list (string * json)).

(** Observable actions, in the order they happen.  [LogCall] marks an
    entry into [log]; all other events are effects on the outside. *)
Inductive event : Type :=
| Stdout (line : string)
| LogCall (message : pyobj) (message_type : string)
| HttpPost (url : string) (data : json) (headers : list (string * string))
| VideoCapture (port : Z)
| Sleep
| CameraSet (prop : cap_prop) (value : Q)
| CameraGrab
| CameraRead
| CameraRelease
| ImWrite (path : string) (img : image)
| Subprocess (argv : list string).

Definition trace : Type := list event.

(** Everything the script reads from its surroundings. *)
Record world : Type := World {
  environ : gmap string string;                 (* os.environ *)
  path_exists : string -> bool;                 (* os.path.exists *)
  time : Q;                                     (* time() *)
  float_of_str : string -> option pyfloat;      (* float(s); None: ValueError *)
  int_of_wide_char : string -> option Z;        (* int(s[0]) beyond ASCII; None: ValueError *)
  cos_deg : Q -> Q;
  sin_deg : Q -> Q;
  (* get_config_value(farmware_name, config_name, float): the lines it
     prints, and the value it returns or the exception it raises *)
  get_config_float : string -> string -> list string * outcome Q;
  (* get_config_value(farmware_name, config_name, int) *)
  get_config_int : string -> string -> list string * outcome Z;
  camera_read : option image;                   (* camera.read(); None: ret is false *)
  requests_post : string -> json -> list (string * string) -> outcome Z;
  subprocess_call : list string -> outcome Z    (* exit status, or the launch fails *)
}.

(** Computations: read the world, extend the trace, return or raise. *)
Definition M (A : Type) : Type := world -> trace -> outcome A * trace.

#[global] Instance M_ret : MRet M := fun A a _ tr => (Returns a, tr).
#[global] Instance M_bind : MBind M := fun A B f m w tr =>
  match m w tr with
  | (Returns a, tr') => f a w tr'
  | (Raises e, tr') => (Raises e, tr')
  end.

Definition raise {A} (e : exn) : M A := fun _ tr => (Raises e, tr).
Definition emit (e : event) : M unit := fun _ tr => (Returns tt, tr ++ [e]).
Definition ask {A} (f : world -> A) : M A := fun w tr => (Returns (f w), tr).
Definition lift {A} (o : outcome A) : M A := fun _ tr => (o, tr).

(** [try: body / except <classes>: handler / else: orelse].  The handler
    answers [None] for the exception classes it does not catch. *)
Definition try_except_else {A B} (body : M A) (handler : exn -> option (M B))
    (orelse : A -> M B) : M B := fun w tr =>
  match body w tr with
  | (Returns a, tr') => orelse a w tr'
  | (Raises e, tr') =>
      match handler e with
      | Some h => h w tr'
      | None => (Raises e, tr')
      end
  end.

Definition try_except {A} (body : M A) (handler : exn -> option (M A)) : M A :=
  try_except_else body handler mret.

Definition run {A} (m : M A) (w : world) : outcome A * trace := m w [].

(** [os.environ[key]] and [os.getenv(key, default)]. *)
Definition environ_get (key : string) : M string := fun w tr =>
  match environ w !! key with
  | Some v => (Returns v, tr)
  | None => (Raises (KeyError key), tr)
  end.

Definition getenv (key fallback : string) : M string :=
  ask (fun w => default fallback (environ w !! key)).

(** [s[0]] *)
Definition first_char (s : string) : M pychar :=
  match s with
  | EmptyString => raise IndexError
  | String c _ => mret (if is_ascii c then AsciiChar c else WideChar s)
  end.

(** [int(c)] for a character [c]. *)
Definition int_of_pychar (c : pychar) : M Z :=
  digit ← match c with
          | AsciiChar c => mret (int_of_char c)
          | WideChar encoded => ask (fun w => int_of_wide_char w encoded)
          end;
  match digit with
  | Some n => mret n
  | None => raise ValueError
  end.

(** A call into a library that prints [fst result] and then returns or
    raises [snd result]. *)
Definition library_call {A} (result : list string * outcome A) : M A :=
  fun _ tr => (snd result, tr ++ map Stdout (fst result)).

(** ** The script *)

Module TakePhoto.

(** [farmware_api_url()] *)
Definition farmware_api_url : M string :=
  version ← getenv "FARMBOT_OS_VERSION" "0.0.0";
  first ← first_char version;
  major_version ← int_of_pychar first;
  base_url ← environ_get "FARMWARE_URL";
  mret (if 5 <? major_version then base_url +:+ "api/v1/" else base_url).

(** [requests.post(url, data=.., headers=..)] *)
Definition post (url : string) (data : json) (headers : list (string * string)) : M Z :=
  emit (HttpPost url data headers);;
  w ← ask id;
  lift (requests_post w url data headers).

(** The document passed to [json.dumps] in [log]. *)
Definition send_message (log_message message_type : string) : json :=
  JObject [("kind", JString "send_message");
           ("args", JObject [("message", JString log_message);
                             ("message_type", JString message_type)])].

(** [log(message, message_type)] *)
Definition log (message : pyobj) (message_type : string) : M unit :=
  emit (LogCall message message_type);;
  try_except_else (environ_get "FARMWARE_URL")
    (fun e => match e with
              | KeyError _ => Some (emit (Stdout (str message)))
              | _ => None
              end)
    (fun _ =>
       let log_message := "[take-photo] " +:+ str message in
       token ← environ_get "FARMWARE_TOKEN";
       let headers := [("Authorization", "bearer " +:+ token);
                       ("content-type", "application/json")] in
       let payload := send_message log_message message_type in
       url ← farmware_api_url;
       post (url +:+ "celery_script") payload headers;;
       mret tt).

(** Lines 41-44 of [rotate]: the number of quarter turns and the angle
    left for the affine warp. *)
Definition rotation_plan (angle : Q) : Z * Q :=
  let sign := if Qlt_bool angle 0 then -1 else 1 in
  let turns := - int_of_float (angle / 90) in
  let remainder := float_mod (Qabs angle) 90 in
  let turns := if Qlt_bool 45 remainder then turns - 1 * sign else turns in
  let angle := (angle + inject_Z (90 * turns))%Q in
  (turns, angle).

(** The same lines in binary64 arithmetic, for an angle that is a
    binary64 number.  [angle / 90.] and the final sum are rounded; the
    remainder of a non-negative number by 90 is exact in floats; [turns]
    is an integer and [90 * turns] an integer product, converted to a
    float for the sum. *)
Definition rotation_plan_binary64 (angle : Q) : outcome (Z * pyfloat) :=
  let sign := if Qlt_bool angle 0 then -1 else 1 in
  match int_of_pyfloat (to_float (angle / 90)) with
  | Raises e => Raises e
  | Returns truncated =>
      let turns := - truncated in
      let remainder := float_mod (Qabs angle) 90 in
      let turns := if Qlt_bool 45 remainder then turns - 1 * sign else turns in
      match float_of_int (90 * turns) with
      | Raises e => Raises e
      | Returns step => Returns (turns, to_float (angle + step))
      end
  end.

(** Lines 41-48 of [rotate], for a finite calibration angle. *)
Definition rotate_by (cosd sind : Q -> Q) (angle : Q) (image : image) : outcome Img.image :=
  let '(turns, angle) := rotation_plan angle in
  let image := np_rot90 image turns in
  let '(height, width) := shape image in
  let matrix :=
    getRotationMatrix2D cosd sind
      (Z.quot (Z.of_nat width) 2) (Z.quot (Z.of_nat height) 2) angle 1 in
  warpAffine image matrix (width, height).

(** [rotate(image)] *)
Definition rotate (image : image) : M Img.image :=
  text ← environ_get "CAMERA_CALIBRATION_total_rotation_angle";
  w ← ask id;
  match float_of_str w text with
  | None => raise ValueError
  | Some NaN => raise ValueError
  | Some (Infinite _) => raise OverflowError
  | Some (Finite angle) => lift (rotate_by (cos_deg w) (sin_deg w) angle image)
  end.

(** [image_filename()] *)
Definition image_filename : M string :=
  now ← ask time;
  let epoch := int_of_float now in
  mret (pretty epoch +:+ ".jpg").

(** [upload_path(filename)] *)
Definition upload_path (filename : string) : M string :=
  images_dir ← try_except (environ_get "IMAGES_DIR")
                  (fun e => match e with
                            | KeyError _ => Some (mret "/tmp/images")
                            | _ => None
                            end);
  mret (images_dir +:+ "/" +:+ filename).

Fixpoint for_range (n : nat) (body : M unit) : M unit :=
  match n with
  | O => mret tt
  | S n' => body;; for_range n' body
  end.

(** The settings read by [usb_camera_photo]. *)
Record CaptureParameters : Type := {
  brightness : Q; contrast : Q; saturation : Q; hue : Q; gain : Q;
  width : Z; height : Z
}.

(** [get_config_value(farmware_name, config_name, value_type)] with
    [value_type=float] and with [value_type=int]. *)
Definition get_config_value_float (farmware_name config_name : string) : M Q :=
  w ← ask id;
  library_call (get_config_float w farmware_name config_name).

Definition get_config_value_int (farmware_name config_name : string) : M Z :=
  w ← ask id;
  library_call (get_config_int w farmware_name config_name).

(** Lines 86-92 of [usb_camera_photo] *)
Definition read_capture_parameters : M CaptureParameters :=
  brightness ← get_config_value_float "take-photo" "brightness_val";
  contrast ← get_config_value_float "take-photo" "contrast_val";
  saturation ← get_config_value_float "take-photo" "saturation_val";
  hue ← get_config_value_float "take-photo" "hue_val";
  gain ← get_config_value_float "take-photo" "gain_val";
  width ← get_config_value_int "take-photo" "width_val";
  height ← get_config_value_int "take-photo" "height_val";
  mret {| brightness := brightness; contrast := contrast;
          saturation := saturation; hue := hue; gain := gain;
          width := width; height := height |}.

Definition camera_set (prop : cap_prop) (value : Q) : M unit :=
  emit (CameraSet prop value).

Definition differs (x y : Q) : bool := negb (Qeq_bool x y).

(** Lines 94-123 of [usb_camera_photo] *)
Definition apply_capture_parameters (p : CaptureParameters) : M unit :=
  (if negb (width p =? 640) then
     camera_set CAP_PROP_FRAME_WIDTH (inject_Z (width p));;
     log ("Resolution width:" +:+ pretty (width p)) "info"
   else camera_set CAP_PROP_FRAME_WIDTH 640);;
  (if negb (height p =? 480) then
     camera_set CAP_PROP_FRAME_HEIGHT (inject_Z (height p));;
     log ("Resolution height:" +:+ pretty (height p)) "info"
   else camera_set CAP_PROP_FRAME_HEIGHT 480);;
  (if differs (brightness p) 10 then
     camera_set CAP_PROP_BRIGHTNESS (brightness p);; log "set brightness" "info"
   else mret tt);;
  (if differs (contrast p) 10 then
     camera_set CAP_PROP_CONTRAST (contrast p);; log "set contrast" "info"
   else mret tt);;
  (if differs (saturation p) 10 then
     camera_set CAP_PROP_SATURATION (saturation p);; log "set saturation" "info"
   else mret tt);;
  (if differs (hue p) 10 then
     camera_set CAP_PROP_HUE (hue p);; log "set hue" "info"
   else mret tt);;
  (if differs (gain p) 10 then
     camera_set CAP_PROP_GAIN (gain p);; log "set gain" "info"
   else mret tt).

(** Lines 137-150 of [usb_camera_photo]: [frame] is [None] when [ret] is
    false. *)
Definition save_frame (frame : option image) : M unit :=
  match frame with
  | Some image =>
      filename ← image_filename;
      '(final_image, filename) ←
        try_except_else (rotate image)
          (fun _ => Some (mret (image, filename)))
          (fun rotated => mret (rotated, "rotated_" +:+ filename));
      path ← upload_path filename;
      emit (ImWrite path final_image);;
      path ← upload_path filename;
      emit (Stdout ("Image saved: " +:+ path))
  | None => log "Problem getting image." "error"
  end.

(** [usb_camera_photo()] *)
Definition usb_camera_photo : M unit :=
  let camera_port := 0 in
  let discard_frames := 20%nat in
  exists_ ← ask (fun w => path_exists w ("/dev/video" +:+ pretty camera_port));
  camera_port ←
    (if negb exists_ then
       emit (Stdout ("No camera detected at video" +:+ pretty camera_port +:+ "."));;
       let camera_port := camera_port + 1 in
       emit (Stdout ("Trying video" +:+ pretty camera_port +:+ "..."));;
       exists_ ← ask (fun w => path_exists w ("/dev/video" +:+ pretty camera_port));
       (if negb exists_ then
          emit (Stdout ("No camera detected at video" +:+ pretty camera_port +:+ "."));;
          log "USB Camera not detected." "error"
        else mret tt);;
       mret camera_port
     else mret camera_port);
  emit (VideoCapture camera_port);;
  emit Sleep;;
  parameters ← read_capture_parameters;
  apply_capture_parameters parameters;;
  for_range discard_frames (emit CameraGrab);;
  emit CameraRead;;
  frame ← ask camera_read;
  emit CameraRelease;;
  save_frame frame.

(** [subprocess.call(argv)] *)
Definition call (argv : list string) : M Z :=
  emit (Subprocess argv);;
  w ← ask id;
  lift (subprocess_call w argv).

(** [rpi_camera_photo()] *)
Definition rpi_camera_photo : M unit :=
  try_except
    (name ← image_filename;
     filename_path ← upload_path name;
     retcode ← call ["raspistill"; "-w"; "640"; "-h"; "480"; "-o"; filename_path];
     if retcode =? 0 then emit (Stdout ("Image saved: " +:+ filename_path))
     else log "Problem getting image." "error")
    (fun e => match e with
              | OSError => Some (log "Raspberry Pi Camera not detected." "error")
              | _ => None
              end).

(** The [__main__] block. *)
Definition main : M unit :=
  CAMERA ← try_except (environ_get "camera")
             (fun e => match e with
                       | KeyError _ | ValueError => Some (mret "USB")
                       | _ => None
                       end);
  if contains "RPI" CAMERA then rpi_camera_photo else usb_camera_photo.

End TakePhoto.
Export TakePhoto.

(** ** Reading traces and settings *)

Module Observe.

(** The event is a call [log(message, message_type)] with these strings. *)
Definition is_log_call (message message_type : string) (e : event) : bool :=
  match e with
  | LogCall (PyStr s) t => String.eqb s message && String.eqb t message_type
  | _ => false
  end.

Definition count (p : event -> bool) (tr : trace) : nat :=
  length (List.filter p tr).

(** Events that are neither a device setting nor a call of [log]. *)
Definition quiet (e : event) : Prop :=
  match e with
  | CameraSet _ _ | LogCall _ _ => False
  | _ => True
  end.

(** The sentinel of each device property: 640 and 480 for the
    resolution, 10.0 for the others. *)
Definition sentinel (prop : cap_prop) : Q :=
  match prop with
  | CAP_PROP_FRAME_WIDTH => 640
  | CAP_PROP_FRAME_HEIGHT => 480
  | _ => 10
  end.

Definition is_resolution (prop : cap_prop) : bool :=
  match prop with
  | CAP_PROP_FRAME_WIDTH | CAP_PROP_FRAME_HEIGHT => true
  | _ => false
  end.

(** The configured value behind each device property. *)
Definition configured (p : CaptureParameters) (prop : cap_prop) : Q :=
  match prop with
  | CAP_PROP_FRAME_WIDTH => inject_Z (width p)
  | CAP_PROP_FRAME_HEIGHT => inject_Z (height p)
  | CAP_PROP_BRIGHTNESS => brightness p
  | CAP_PROP_CONTRAST => contrast p
  | CAP_PROP_SATURATION => saturation p
  | CAP_PROP_HUE => hue p
  | CAP_PROP_GAIN => gain p
  end.

(** The message logged when the property is overridden. *)
Definition override_message (p : CaptureParameters) (prop : cap_prop) : pyobj :=
  match prop with
  | CAP_PROP_FRAME_WIDTH => PyStr ("Resolution width:" +:+ pretty (width p))
  | CAP_PROP_FRAME_HEIGHT => PyStr ("Resolution height:" +:+ pretty (height p))
  | CAP_PROP_BRIGHTNESS => PyStr "set brightness"
  | CAP_PROP_CONTRAST => PyStr "set contrast"
  | CAP_PROP_SATURATION => PyStr "set saturation"
  | CAP_PROP_HUE => PyStr "set hue"
  | CAP_PROP_GAIN => PyStr "set gain"
  end.

(** The images directory and the file name the script derives. *)
Definition images_dir (w : world) : string :=
  default "/tmp/images" (environ w !! "IMAGES_DIR").

Definition timestamp_name (w : world) : string :=
  pretty (int_of_float (time w)) +:+ ".jpg".

Definition raspistill_argv (w : world) : list string :=
  ["raspistill"; "-w"; "640"; "-h"; "480"; "-o";
   images_dir w +:+ "/" +:+ timestamp_name w].

(** The request [log] sends for a message once the endpoint is known. *)
Definition log_headers (token : string) : list (string * string) :=
  [("Authorization", "bearer " +:+ token); ("content-type", "application/json")].

Definition log_payload (message : pyobj) (message_type : string) : json :=
  JObject [("kind", JString "send_message");
           ("args", JObject [("message", JString ("[take-photo] " +:+ str message));
                             ("message_type", JString message_type)])].

(** Events a call of [log] can leave behind after its entry marker. *)
Definition log_tail (message : pyobj) (message_type : string) (rest : trace) : Prop :=
  rest = [] \/ rest = [Stdout (str message)] \/
  exists url token,
    rest = [HttpPost (url +:+ "celery_script") (log_payload message message_type)
              (log_headers token)].

(** A computation is read-only when it leaves the trace alone and its
    result does not depend on the trace. *)
Definition read_only {A} (m : M A) : Prop :=
  forall w tr, m w tr = (fst (run m w), tr).

(** An event of the settings block is in order within the trace [tr]:
    a pushed value is the configured one, it is pushed because the
    property is a resolution or the value differs from the sentinel, and
    in the second case the override is logged; a call of [log] is an
    "info" report of an override that was pushed. *)
Definition setting_ok (p : CaptureParameters) (tr : trace) (e : event) : Prop :=
  match e with
  | CameraSet prop v =>
      v = configured p prop /\
      (is_resolution prop = true \/ differs v (sentinel prop) = true) /\
      (differs v (sentinel prop) = true ->
       In (LogCall (override_message p prop) "info") tr)
  | LogCall message message_type =>
      message_type = "info" /\
      exists prop,
        message = override_message p prop /\
        differs (configured p prop) (sentinel prop) = true /\
        In (CameraSet prop (configured p prop)) tr
  | _ => True
  end.

Definition settings_ok (p : CaptureParameters) (tr : trace) : Prop :=
  Forall (setting_ok p tr) tr.

(** Every property of [done] that has to be pushed has been pushed. *)
Definition all_pushed (p : CaptureParameters) (done : list cap_prop) (tr : trace) : Prop :=
  forall prop, In prop done ->
    is_resolution prop = true \/ differs (configured p prop) (sentinel prop) = true ->
    In (CameraSet prop (configured p prop)) tr.

(** A statement of the settings block: started from a trace that is in
    order and satisfies [P], it leaves the trace in order, and when it
    returns it establishes [R]. *)
Definition step (p : CaptureParameters) (P : trace -> Prop) (m : M unit)
    (R : trace -> Prop) : Prop :=
  forall w tr, settings_ok p tr -> P tr ->
    match m w tr with
    | (Returns _, tr') => settings_ok p tr' /\ R tr'
    | (Raises _, tr') => settings_ok p tr'
    end.

(** What [int()] makes of the first character of a non-empty string. *)
Definition first_digit (w : world) (s : string) : option Z :=
  match s with
  | EmptyString => None
  | String c _ => if is_ascii c then int_of_char c else int_of_wide_char w s
  end.

(** The platform's major version: the decimal number in front of the
    first dot of the version string. *)
Fixpoint leading_number (acc : option Z) (s : string) : option Z :=
  match s with
  | EmptyString => acc
  | String c rest =>
      if Ascii.eqb c "."%char then acc
      else match int_of_char c with
           | Some d => leading_number (Some (10 * default 0 acc + d)) rest
           | None => None
           end
  end.

Definition platform_major_version (version : string) : option Z :=
  leading_number None version.

End Observe.
Export Observe.

(** ** Concrete frames, settings and surroundings used in the examples *)

Module Scenario.

(** Polynomial stand-ins for the cosine and sine of an angle in degrees
    (pi taken as 355/113), in lowest terms; exact at 0. *)
Definition radians (a : Q) : Q := (a * (355 # 113) / 180)%Q.
Definition cos_poly (a : Q) : Q :=
  let x := radians a in Qred (1 - x * x / 2 + x * x * x * x / 24)%Q.
Definition sin_poly (a : Q) : Q :=
  let x := radians a in Qred (x - x * x * x / 6)%Q.

(** A frame one pixel high and two pixels wide. *)
Definition wide_frame : image := [[Pixel 10 20 30; Pixel 40 50 60]].

(** Settings that all sit at their sentinel. *)
Definition default_parameters : CaptureParameters :=
  {| brightness := 10; contrast := 10; saturation := 10; hue := 10; gain := 10;
     width := 640; height := 480 |}.

(** The configuration library as the examples take it: the setting
    [config_name] of a farmware is the text stored in the environment
    under the farmware's name, dashes turned into underscores, followed
    by an underscore and [config_name]; it is converted by [float] or
    [int].  A missing variable raises [KeyError], a text that is not a
    plain decimal number [ValueError]; nothing is printed. *)
Fixpoint underscored (s : string) : string :=
  match s with
  | EmptyString => EmptyString
  | String c rest => String (if Ascii.eqb c "-" then "_"%char else c) (underscored rest)
  end.

Definition setting_key (farmware_name config_name : string) : string :=
  underscored farmware_name +:+ "_" +:+ config_name.

Fixpoint digits (acc : Z) (s : string) : option Z :=
  match s with
  | EmptyString => Some acc
  | String c rest =>
      match int_of_char c with
      | Some d => digits (10 * acc + d) rest
      | None => None
      end
  end.

Definition decimal_int (s : string) : option Z :=
  match s with
  | EmptyString => None
  | _ => digits 0 s
  end.

(** The text in front of the first dot, and the text behind it. *)
Fixpoint split_dot (s : string) : string * option string :=
  match s with
  | EmptyString => (EmptyString, None)
  | String c rest =>
      if Ascii.eqb c "." then (EmptyString, Some rest)
      else let '(whole, fraction) := split_dot rest in (String c whole, fraction)
  end.

Definition decimal_float (s : string) : option Q :=
  let '(whole, fraction) := split_dot s in
  match decimal_int whole, fraction with
  | Some n, None => Some (inject_Z n)
  | Some n, Some text =>
      match digits 0 text with
      | Some m =>
          Some (Qred (inject_Z n + inject_Z m / inject_Z (10 ^ Z.of_nat (String.length text))))
      | None => None
      end
  | None, _ => None
  end.

Definition stored_setting {A} (convert : string -> option A) (env : gmap string string)
    (farmware_name config_name : string) : list string * outcome A :=
  match env !! setting_key farmware_name config_name with
  | None => ([], Raises (KeyError (setting_key farmware_name config_name)))
  | Some text =>
      match convert text with
      | Some value => ([], Returns value)
      | None => ([], Raises ValueError)
      end
  end.

(** The seven settings of the USB path, each at its sentinel. *)
Definition sentinel_settings : gmap string string :=
  <["take_photo_brightness_val" := "10.0"]>
    (<["take_photo_contrast_val" := "10.0"]>
       (<["take_photo_saturation_val" := "10.0"]>
          (<["take_photo_hue_val" := "10.0"]>
             (<["take_photo_gain_val" := "10.0"]>
                (<["take_photo_width_val" := "640"]>
                   (<["take_photo_height_val" := "480"]> ∅)))))).

(** A device with the environment [env]: the camera answers at
    [/dev/video0] and delivers [wide_frame], the settings are those
    stored in [env], the network and the capture utility work, and
    [float] reads the one calibration text "90". *)
Definition device (env : gmap string string) : world :=
  {| environ := env;
     path_exists := fun path => String.eqb path "/dev/video0";
     time := 1500000000 # 1;
     float_of_str := fun text => if String.eqb text "90" then Some (Finite 90) else None;
     int_of_wide_char := fun _ => None;
     cos_deg := cos_poly;
     sin_deg := sin_poly;
     get_config_float := stored_setting decimal_float env;
     get_config_int := stored_setting decimal_int env;
     camera_read := Some wide_frame;
     requests_post := fun _ _ _ => Returns 200;
     subprocess_call := fun _ => Returns 0 |}.

(** A device on which the platform is configured: endpoint, token and
    version are set, every setting is stored at its sentinel and no
    calibration has been stored. *)
Definition configured_world : world :=
  device
    (<["FARMWARE_URL" := "http://localhost:27347/"]>
       (<["FARMWARE_TOKEN" := "secret"]>
          (<["FARMBOT_OS_VERSION" := "6.4.2"]> sentinel_settings))).

(** The device [w] with another environment; the settings follow it. *)
Definition with_environ (env : gmap string string) (w : world) : world :=
  {| environ := env; path_exists := path_exists w; time := time w;
     float_of_str := float_of_str w; int_of_wide_char := int_of_wide_char w;
     cos_deg := cos_deg w; sin_deg := sin_deg w;
     get_config_float := stored_setting decimal_float env;
     get_config_int := stored_setting decimal_int env;
     camera_read := camera_read w; requests_post := requests_post w;
     subprocess_call := subprocess_call w |}.

Definition with_post (post : string -> json -> list (string * string) -> outcome Z)
    (w : world) : world :=
  {| environ := environ w; path_exists := path_exists w; time := time w;
     float_of_str := float_of_str w; int_of_wide_char := int_of_wide_char w;
     cos_deg := cos_deg w; sin_deg := sin_deg w;
     get_config_float := get_config_float w; get_config_int := get_config_int w;
     camera_read := camera_read w; requests_post := post;
     subprocess_call := subprocess_call w |}.

Definition with_path_exists (probe : string -> bool) (w : world) : world :=
  {| environ := environ w; path_exists := probe; time := time w;
     float_of_str := float_of_str w; int_of_wide_char := int_of_wide_char w;
     cos_deg := cos_deg w; sin_deg := sin_deg w;
     get_config_float := get_config_float w; get_config_int := get_config_int w;
     camera_read := camera_read w; requests_post := requests_post w;
     subprocess_call := subprocess_call w |}.

Definition with_subprocess_call (launch : list string -> outcome Z) (w : world) : world :=
  {| environ := environ w; path_exists := path_exists w; time := time w;
     float_of_str := float_of_str w; int_of_wide_char := int_of_wide_char w;
     cos_deg := cos_deg w; sin_deg := sin_deg w;
     get_config_float := get_config_float w; get_config_int := get_config_int w;
     camera_read := camera_read w; requests_post := requests_post w;
     subprocess_call := launch |}.

Definition with_camera_read (frame : option image) (w : world) : world :=
  {| environ := environ w; path_exists := path_exists w; time := time w;
     float_of_str := float_of_str w; int_of_wide_char := int_of_wide_char w;
     cos_deg := cos_deg w; sin_deg := sin_deg w;
     get_config_float := get_config_float w; get_config_int := get_config_int w;
     camera_read := frame; requests_post := requests_post w;
     subprocess_call := subprocess_call w |}.

(** The same device run outside the platform: nothing in the environment
    but the seven settings. *)
Definition console_world : world := with_environ sentinel_settings configured_world.

(** Nothing in the environment at all: no setting can be read. *)
Definition bare_world : world := with_environ ∅ configured_world.


(** The same device with the network down (the HTTP library raises its
    connection error, an [OSError]) and no camera attached. *)
Definition offline_world : world :=
  with_path_exists (fun _ => false)
    (with_post (fun _ _ _ => Raises OSError) configured_world).

(** No camera attached, network up. *)
Definition no_camera_world : world :=
  with_path_exists (fun _ => false) configured_world.

(** The capture utility exits with status 1, or cannot be launched. *)
Definition failing_utility_world : world :=
  with_subprocess_call (fun _ => Returns 1) console_world.

Definition missing_utility_world : world :=
  with_subprocess_call (fun _ => Raises OSError) console_world.

(** A calibration of 90 degrees has been stored. *)
Definition calibrated_world : world :=
  with_environ
    (<["CAMERA_CALIBRATION_total_rotation_angle" := "90"]> sentinel_settings)
    configured_world.

(** The platform at major version 10. *)
Definition version_10_world : world :=
  with_environ (<["FARMBOT_OS_VERSION" := "10.0.0"]> (environ configured_world))
    configured_world.

End Scenario.
Export Scenario.

(** * Properties *)

(** ** Arithmetic on finite floats *)

Section FloatFacts.

Lemma Qlt_bool_iff x y : Qlt_bool x y = true <-> (x < y)%Q.
Proof.
  unfold Qlt_bool. rewrite negb_true_iff, <- not_true_iff_false, Qle_bool_iff.
  split; [apply Qnot_le_lt | apply Qlt_not_le].
Qed.

Lemma Qlt_bool_false_iff x y : Qlt_bool x y = false <-> (y <= x)%Q.
Proof. unfold Qlt_bool. rewrite negb_false_iff. apply Qle_bool_iff. Qed.

Lemma Qlt_bool_reflect x y : reflect (x < y)%Q (Qlt_bool x y).
Proof.
  destruct (Qlt_bool x y) eqn:E; constructor.
  - now apply Qlt_bool_iff.
  - apply Qlt_bool_false_iff in E. now apply Qle_not_lt.
Qed.

Lemma int_of_float_nonneg x : (0 <= x)%Q -> int_of_float x = Qfloor x.
Proof.
  destruct x as [n d]. unfold Qle, int_of_float, Qfloor. simpl. intros H.
  apply Z.quot_div_nonneg; lia.
Qed.

Lemma int_of_float_opp x : int_of_float (- x) = - int_of_float x.
Proof.
  destruct x as [n d]. unfold int_of_float. simpl. apply Z.quot_opp_l. lia.
Qed.

(** Truncation rounds a negative number up: [int(x) = -floor(-x)]. *)
Lemma int_of_float_neg x : (x <= 0)%Q -> int_of_float x = - Qfloor (- x).
Proof.
  intros H. rewrite <- int_of_float_nonneg by lra.
  rewrite int_of_float_opp. lia.
Qed.

(** An integer is the floor of [x] when it is the last one below it. *)
Lemma Qfloor_unique x z :
  (inject_Z z <= x)%Q -> (x < inject_Z z + 1)%Q -> Qfloor x = z.
Proof.
  intros Hlo Hhi.
  pose proof (Qfloor_le x) as Flo. pose proof (Qlt_floor x) as Fhi.
  rewrite inject_Z_plus in Fhi. change (inject_Z 1) with 1%Q in Fhi.
  assert (H1 : (inject_Z z < inject_Z (Qfloor x) + 1)%Q) by lra.
  assert (H2 : (inject_Z (Qfloor x) < inject_Z z + 1)%Q) by lra.
  change 1%Q with (inject_Z 1) in H1, H2. rewrite <- inject_Z_plus in H1, H2.
  rewrite <- Zlt_Qlt in H1, H2. lia.
Qed.

(** The remainder of a division by a positive number lies in [[0, y)]. *)
Lemma float_mod_bounds x y :
  (0 < y)%Q -> (0 <= float_mod x y)%Q /\ (float_mod x y < y)%Q.
Proof.
  intros Hy. unfold float_mod.
  pose proof (Qfloor_le (x / y)) as Hlo.
  pose proof (Qlt_floor (x / y)) as Hhi.
  rewrite inject_Z_plus in Hhi. change (inject_Z 1) with 1%Q in Hhi.
  set (q := inject_Z (Qfloor (x / y))) in *.
  assert (Hx : (x == (x / y) * y)%Q) by (field; lra).
  split.
  - assert ((q * y <= (x / y) * y)%Q) by (apply Qmult_le_compat_r; lra). lra.
  - assert (((x / y) * y < (q + 1) * y)%Q) by (apply Qmult_lt_compat_r; lra).
    lra.
Qed.

End FloatFacts.

(** ** The rotation plan (lines 41-44) *)

Section RotationPlan.

(** For a non-negative angle the quarter turns remove [floor(a / 90)]
    right angles, and one more when the rest exceeds 45. *)
Lemma rotation_plan_nonneg a :
  (0 <= a)%Q ->
  let q := Qfloor (a / 90) in
  let r := (a - inject_Z q * 90)%Q in
  (0 <= r)%Q /\ (r < 90)%Q /\
  rotation_plan a =
    (if Qlt_bool 45 r then - q - 1 else - q,
     (a + inject_Z (90 * (if Qlt_bool 45 r then - q - 1 else - q)))%Q).
Proof.
  intros Ha q r.
  assert (Hr : (float_mod (Qabs a) 90 == r)%Q).
  { pose proof (Qabs_pos a Ha) as E. unfold float_mod, r, q.
    rewrite (Qfloor_comp (Qabs a / 90) (a / 90)) by now rewrite E.
    now rewrite E. }
  pose proof (float_mod_bounds (Qabs a) 90 eq_refl) as [B1 B2].
  rewrite Hr in B1, B2. split; [exact B1 | split; [exact B2 |]].
  unfold rotation_plan.
  assert (Hs : Qlt_bool a 0 = false) by now apply Qlt_bool_false_iff.
  rewrite Hs.
  assert (Ht : int_of_float (a / 90) = q).
  { apply int_of_float_nonneg. apply Qle_shift_div_l; [reflexivity | lra]. }
  rewrite Ht.
  assert (Hc : Qlt_bool 45 (float_mod (Qabs a) 90) = Qlt_bool 45 r).
  { destruct (Qlt_bool_reflect 45 r) as [L | L].
    - apply Qlt_bool_iff. now rewrite Hr.
    - apply Qlt_bool_false_iff. rewrite Hr. now apply Qnot_lt_le. }
  rewrite Hc. destruct (Qlt_bool 45 r); [| reflexivity].
  now replace (- q - 1 * 1) with (- q - 1) by lia.
Qed.

(** The mirror image for a negative angle. *)
Lemma rotation_plan_neg a :
  (a < 0)%Q ->
  let q := Qfloor (- a / 90) in
  let r := (- a - inject_Z q * 90)%Q in
  (0 <= r)%Q /\ (r < 90)%Q /\
  rotation_plan a =
    (if Qlt_bool 45 r then q + 1 else q,
     (a + inject_Z (90 * (if Qlt_bool 45 r then q + 1 else q)))%Q).
Proof.
  intros Ha q r.
  assert (Hr : (float_mod (Qabs a) 90 == r)%Q).
  { assert (E : (Qabs a == - a)%Q) by (apply Qabs_neg; lra).
    unfold float_mod, r, q.
    rewrite (Qfloor_comp (Qabs a / 90) (- a / 90)) by now rewrite E.
    now rewrite E. }
  pose proof (float_mod_bounds (Qabs a) 90 eq_refl) as [B1 B2].
  rewrite Hr in B1, B2. split; [exact B1 | split; [exact B2 |]].
  unfold rotation_plan.
  assert (Hs : Qlt_bool a 0 = true) by now apply Qlt_bool_iff.
  rewrite Hs.
  assert (Ht : int_of_float (a / 90) = - q).
  { rewrite int_of_float_neg.
    - f_equal. apply Qfloor_comp. field.
    - apply Qle_shift_div_r; [reflexivity | lra]. }
  rewrite Ht.
  assert (Hc : Qlt_bool 45 (float_mod (Qabs a) 90) = Qlt_bool 45 r).
  { destruct (Qlt_bool_reflect 45 r) as [L | L].
    - apply Qlt_bool_iff. now rewrite Hr.
    - apply Qlt_bool_false_iff. rewrite Hr. now apply Qnot_lt_le. }
  rewrite Hc. destruct (Qlt_bool 45 r).
  - now replace (- - q - 1 * -1) with (q + 1) by lia.
  - now replace (- - q) with q by lia.
Qed.

End RotationPlan.

Section RotationPlanClaims.

Lemma rotation_plan_unfold a :
  rotation_plan a =
    let turns :=
      if Qlt_bool 45 (float_mod (Qabs a) 90)
      then - int_of_float (a / 90) - (if Qlt_bool a 0 then -1 else 1)
      else - int_of_float (a / 90) in
    (turns, (a + inject_Z (90 * turns))%Q).
Proof.
  unfold rotation_plan. cbv zeta.
  destruct (Qlt_bool 45 (float_mod (Qabs a) 90)); [| reflexivity].
  destruct (Qlt_bool a 0);
    [ now replace (- int_of_float (a / 90) - 1 * -1)
        with (- int_of_float (a / 90) - -1) by lia
    | now replace (- int_of_float (a / 90) - 1 * 1)
        with (- int_of_float (a / 90) - 1) by lia ].
Qed.

Lemma residual_bound a : (Qabs (snd (rotation_plan a)) <= 45)%Q.
Proof.
  apply Qabs_Qle_condition.
  destruct (Qlt_le_dec a 0) as [Neg | Pos].
  - destruct (rotation_plan_neg a Neg) as (B1 & B2 & ->). cbn [snd].
    set (q := Qfloor (- a / 90)) in *.
    destruct (Qlt_bool_reflect 45 (- a - inject_Z q * 90)) as [L | L].
    + rewrite inject_Z_mult, inject_Z_plus.
      change (inject_Z 90) with 90%Q. change (inject_Z 1) with 1%Q. lra.
    + apply Qnot_lt_le in L. rewrite inject_Z_mult.
      change (inject_Z 90) with 90%Q. lra.
  - destruct (rotation_plan_nonneg a Pos) as (B1 & B2 & ->). cbn [snd].
    set (q := Qfloor (a / 90)) in *.
    destruct (Qlt_bool_reflect 45 (a - inject_Z q * 90)) as [L | L].
    + rewrite inject_Z_mult. unfold Z.sub. rewrite inject_Z_plus, inject_Z_opp.
      change (inject_Z 90) with 90%Q. change (inject_Z (- (1))) with (- (1))%Q.
      lra.
    + apply Qnot_lt_le in L. rewrite inject_Z_mult, inject_Z_opp.
      change (inject_Z 90) with 90%Q. lra.
Qed.

(** In exact arithmetic the quarter turns are [-truncate(a / 90)], with
    one more turn in the direction of [sign] exactly when [abs(a) mod 90]
    exceeds 45, and the angle left for the warp, [a + 90 * turns], is at
    most 45 degrees in magnitude. *)
Lemma exact_plan_rounds_to_nearest (a : Q) :
  let sign := if Qlt_bool a 0 then -1 else 1 in
  let truncated := - int_of_float (a / 90) in
  let remainder := float_mod (Qabs a) 90 in
  let turns := fst (rotation_plan a) in
  let residual := snd (rotation_plan a) in
  ((a < 0)%Q /\ sign = -1 \/ (0 <= a)%Q /\ sign = 1) /\
  ((45 < remainder)%Q /\ turns = truncated - sign \/
   (remainder <= 45)%Q /\ turns = truncated) /\
  residual = (a + inject_Z (90 * turns))%Q /\
  (Qabs residual <= 45)%Q.
Proof.
  cbv zeta. split; [| split; [| split]].
  - destruct (Qlt_bool_reflect a 0) as [L | L]; [left | right]; split;
      try reflexivity; [exact L | now apply Qnot_lt_le].
  - rewrite rotation_plan_unfold. cbv zeta. cbn [fst].
    destruct (Qlt_bool_reflect 45 (float_mod (Qabs a) 90)) as [L | L];
      [left | right]; split; try reflexivity; [exact L | now apply Qnot_lt_le].
  - rewrite rotation_plan_unfold. reflexivity.
  - apply residual_bound.
Qed.

Example rotation_plan_165 : rotation_plan 165 = (-2, (-15)%Q).
Proof. reflexivity. Qed.

Example rotation_plan_75 : rotation_plan 75 = (-1, (-15)%Q).
Proof. reflexivity. Qed.

Example rotation_plan_45 : rotation_plan 45 = (0, 45%Q).
Proof. reflexivity. Qed.

Example rotation_plan_minus_135 : rotation_plan (-135) = (1, (-45)%Q).
Proof. reflexivity. Qed.

End RotationPlanClaims.

(** ** Shapes under quarter turns and warps *)

Section Shapes.

Lemma grid_width h w m : grid h w m -> (0 < h)%nat -> width_of m = w.
Proof.
  intros [Hh Hw] Hpos. unfold width_of.
  destruct m as [| row rest]; simpl in *; [lia |].
  now inversion Hw.
Qed.

Lemma grid_shape h w m : grid h w m -> (0 < h)%nat -> shape m = (h, w).
Proof.
  intros G Hpos. unfold shape, height_of. rewrite (grid_width h w m G Hpos).
  destruct G as [-> _]. reflexivity.
Qed.

Lemma grid_flip0 h w m : grid h w m -> grid h w (flip0 m).
Proof.
  intros [Hh Hw]. split; unfold flip0.
  - now rewrite length_rev.
  - rewrite List.Forall_forall in *. intros row Hin. apply Hw.
    now apply in_rev.
Qed.

Lemma grid_flip1 h w m : grid h w m -> grid h w (flip1 m).
Proof.
  intros [Hh Hw]. split; unfold flip1.
  - now rewrite length_map.
  - rewrite List.Forall_forall in *. intros row Hin.
    apply in_map_iff in Hin as (row' & <- & Hin').
    rewrite length_rev. now apply Hw.
Qed.

Lemma grid_transpose h w m : grid h w m -> (0 < h)%nat -> grid w h (transpose m).
Proof.
  intros G Hpos. unfold transpose. rewrite (grid_width h w m G Hpos).
  destruct G as [Hh _]. split.
  - now rewrite length_map, length_seq.
  - rewrite List.Forall_forall. intros col Hin.
    apply in_map_iff in Hin as (j & <- & _). now rewrite length_map.
Qed.

(** Parity of a number is the parity of its residue modulo 4. *)
Lemma even_mod_4 k : Z.even k = Z.even (k mod 4).
Proof.
  rewrite (Z.div_mod k 4) at 1 by lia.
  replace (4 * (k / 4) + k mod 4) with (k mod 4 + 2 * (2 * (k / 4))) by lia.
  apply Z.even_add_mul_2.
Qed.

(** An even number of quarter turns keeps the shape, an odd number
    exchanges height and width. *)
Lemma np_rot90_grid h w m k :
  grid h w m -> (0 < h)%nat -> (0 < w)%nat ->
  if Z.even k then grid h w (np_rot90 m k) else grid w h (np_rot90 m k).
Proof.
  intros G Hh Hw. rewrite even_mod_4. unfold np_rot90.
  pose proof (Z.mod_pos_bound k 4 eq_refl) as B.
  destruct (k mod 4) as [| p | p]; [exact G | | lia].
  destruct p as [[| |] | [| |] |]; try lia; cbn [Z.even].
  - apply grid_flip1. apply grid_transpose; assumption.
  - apply grid_flip1. now apply grid_flip0.
  - apply grid_transpose; [now apply grid_flip1 | assumption].
Qed.

(** The warp returns an array of the requested size. *)
Lemma warpAffine_grid src M width height :
  height_of src <> 0%nat -> width_of src <> 0%nat ->
  exists out, warpAffine src M (width, height) = Returns out /\ grid height width out.
Proof.
  intros Hh Hw. unfold warpAffine.
  apply Nat.eqb_neq in Hh, Hw. rewrite Hh, Hw. cbn [orb].
  eexists. split; [reflexivity |]. split.
  - now rewrite length_map, length_seq.
  - rewrite List.Forall_forall. intros row Hin.
    apply in_map_iff in Hin as (y & <- & _).
    now rewrite length_map, length_seq.
Qed.

(** The output of [rotate] has the shape of the quarter-turned array. *)
Lemma rotate_by_grid cosd sind a m h w :
  grid h w m -> (0 < h)%nat -> (0 < w)%nat ->
  exists out, rotate_by cosd sind a m = Returns out /\
    shape out = if Z.even (fst (rotation_plan a)) then (h, w) else (w, h).
Proof.
  intros G Hh Hw. unfold rotate_by.
  destruct (rotation_plan a) as [turns residual]. cbn [fst].
  pose proof (np_rot90_grid h w m turns G Hh Hw) as R.
  destruct (Z.even turns).
  - rewrite (grid_shape h w _ R Hh).
    destruct (warpAffine_grid (np_rot90 m turns)
                (getRotationMatrix2D cosd sind (Z.of_nat w ÷ 2) (Z.of_nat h ÷ 2) residual 1)
                w h) as (out & -> & Gout).
    + unfold height_of. destruct R as [-> _]. lia.
    + rewrite (grid_width h w _ R Hh). lia.
    + exists out. split; [reflexivity |]. now apply grid_shape.
  - rewrite (grid_shape w h _ R Hw).
    destruct (warpAffine_grid (np_rot90 m turns)
                (getRotationMatrix2D cosd sind (Z.of_nat h ÷ 2) (Z.of_nat w ÷ 2) residual 1)
                h w) as (out & -> & Gout).
    + unfold height_of. destruct R as [-> _]. lia.
    + rewrite (grid_width w h _ R Hw). lia.
    + exists out. split; [reflexivity |]. now apply grid_shape.
Qed.

End Shapes.

(** ** Which calibration angles exchange height and width *)

Section TurnParity.

Ltac settle_parity :=
  repeat match goal with
         | |- context [Qlt_bool ?x ?y] => destruct (Qlt_bool_reflect x y)
         | |- context [Qle_bool ?x ?y] =>
             let E := fresh "E" in
             destruct (Qle_bool x y) eqn:E;
             [ apply Qle_bool_iff in E
             | apply not_true_iff_false in E; rewrite Qle_bool_iff in E;
               apply Qnot_le_lt in E ]
         end;
  cbn; try reflexivity; exfalso; lra.

(** Within (-180, 180] the number of quarter turns is odd exactly for
    45 < |a| <= 135. *)
Lemma turns_odd_range a :
  (-180 < a)%Q -> (a <= 180)%Q ->
  Z.even (fst (rotation_plan a)) =
    negb (Qlt_bool 45 (Qabs a) && Qle_bool (Qabs a) 135).
Proof.
  intros Lo Hi. destruct (Qlt_le_dec a 0) as [Neg | Pos].
  - destruct (rotation_plan_neg a Neg) as (B1 & B2 & ->). cbn [fst].
    assert (A : (Qabs a == - a)%Q) by (apply Qabs_neg; lra).
    set (q := Qfloor (- a / 90)) in *. clearbody q.
    assert (Hq : 0 <= q <= 1).
    { split; apply Z.lt_succ_r; rewrite Zlt_Qlt; unfold Z.succ;
        rewrite inject_Z_plus; change (inject_Z 1) with 1%Q;
        try change (inject_Z 0) with 0%Q; try change (inject_Z 2) with 2%Q;
        lra. }
    assert (C : q = 0 \/ q = 1) by lia.
    destruct C as [-> | ->]; change (inject_Z 0) with 0%Q in *;
      change (inject_Z 1) with 1%Q in *; settle_parity.
  - destruct (rotation_plan_nonneg a Pos) as (B1 & B2 & ->). cbn [fst].
    assert (A : (Qabs a == a)%Q) by now apply Qabs_pos.
    set (q := Qfloor (a / 90)) in *. clearbody q.
    assert (Hq : 0 <= q <= 2).
    { split; apply Z.lt_succ_r; rewrite Zlt_Qlt; unfold Z.succ;
        rewrite inject_Z_plus; change (inject_Z 1) with 1%Q;
        try change (inject_Z 0) with 0%Q; try change (inject_Z 2) with 2%Q;
        lra. }
    assert (C : q = 0 \/ q = 1 \/ q = 2) by lia.
    destruct C as [-> | [-> | ->]]; change (inject_Z 0) with 0%Q in *;
      change (inject_Z 1) with 1%Q in *; change (inject_Z 2) with 2%Q in *;
      settle_parity.
Qed.

End TurnParity.

(** ** The warp with the identity matrix *)

Section IdentityWarp.

Lemma saturate_u8_id c : channel_ok c -> saturate_u8 c = c.
Proof. unfold channel_ok, saturate_u8. lia. Qed.

Lemma Qfloor_plus_half z : Qfloor (inject_Z z + (1 # 2)) = z.
Proof. apply Qfloor_unique; lra. Qed.

(** With zero fractional offsets the blend returns the first sample. *)
Lemma blend_origin a b c00 c10 c01 c11 :
  (a == 0)%Q -> (b == 0)%Q -> channel_ok c00 -> blend a b c00 c10 c01 c11 = c00.
Proof.
  intros Ha Hb Hc. unfold blend.
  rewrite (Qfloor_comp _ (inject_Z c00 + (1 # 2))).
  - rewrite Qfloor_plus_half. now apply saturate_u8_id.
  - rewrite Ha, Hb. ring.
Qed.

Lemma sample_grid_point m X Y x y :
  (X == inject_Z x)%Q -> (Y == inject_Z y)%Q ->
  pixel_ok (pixel_at m x y) -> sample m X Y = pixel_at m x y.
Proof.
  intros HX HY (Hb & Hg & Hr). unfold sample.
  assert (Fx : Qfloor X = x) by (rewrite (Qfloor_comp _ _ HX); apply Qfloor_Z).
  assert (Fy : Qfloor Y = y) by (rewrite (Qfloor_comp _ _ HY); apply Qfloor_Z).
  rewrite Fx, Fy.
  assert (Ha : (X - inject_Z x == 0)%Q) by (rewrite HX; ring).
  assert (Hb' : (Y - inject_Z y == 0)%Q) by (rewrite HY; ring).
  rewrite !(blend_origin _ _ _ _ _ _ Ha Hb') by assumption.
  now destruct (pixel_at m x y).
Qed.

Lemma invert_affine_identity M :
  affine_eq M identity_affine -> affine_eq (invert_affine M) identity_affine.
Proof.
  destruct M as [a b c d e f].
  intros (H00 & H01 & H02 & H10 & H11 & H12). cbn in *.
  unfold invert_affine, affine_eq. cbn.
  assert (D : (a * e - b * d == 1)%Q) by (rewrite H00, H01, H10, H11; ring).
  destruct (Qeq_bool (a * e - b * d) 0) eqn:E.
  - apply Qeq_bool_iff in E. rewrite D in E. discriminate E.
  - rewrite D, H00, H01, H02, H10, H11, H12.
    repeat split; reflexivity.
Qed.

Lemma getRotationMatrix2D_zero cosd sind cx cy :
  (cosd 0 == 1)%Q -> (sind 0 == 0)%Q ->
  affine_eq (getRotationMatrix2D cosd sind cx cy 0 1) identity_affine.
Proof.
  intros Hc Hs. unfold getRotationMatrix2D, affine_eq. cbn.
  rewrite Hc, Hs. repeat split; ring.
Qed.

(** A list is rebuilt by reading it back index by index. *)
Lemma map_seq_nth {A} (l : list A) (d : A) (f : nat -> A) :
  (forall i, (i < length l)%nat -> f i = nth i l d) ->
  map f (seq 0 (length l)) = l.
Proof.
  intros H. apply (nth_ext _ _ (f 0%nat) d).
  - now rewrite length_map, length_seq.
  - intros n Hn. rewrite length_map, length_seq in Hn.
    rewrite (map_nth f), seq_nth by assumption. now apply H.
Qed.

Lemma pixel_at_nth m x y :
  pixel_at m (Z.of_nat x) (Z.of_nat y) = nth x (nth y m []) black.
Proof.
  unfold pixel_at.
  rewrite (proj2 (Z.leb_le 0 (Z.of_nat x))), (proj2 (Z.leb_le 0 (Z.of_nat y))) by lia.
  cbn [andb]. now rewrite !Nat2Z.id.
Qed.

Lemma warpAffine_identity M m h w :
  affine_eq M identity_affine -> frame_ok h w m -> (0 < h)%nat -> (0 < w)%nat ->
  warpAffine m M (w, h) = Returns m.
Proof.
  intros HM [G Hpix] Hh Hw. unfold warpAffine.
  pose proof (grid_width h w m G Hh) as Ew. destruct G as [Eh Hrows].
  unfold height_of. rewrite Eh, Ew.
  rewrite (proj2 (Nat.eqb_neq h 0)), (proj2 (Nat.eqb_neq w 0)) by lia.
  cbn [orb]. f_equal.
  apply invert_affine_identity in HM.
  remember (invert_affine M) as N eqn:EN. clear EN.
  destruct HM as (N00 & N01 & N02 & N10 & N11 & N12).
  cbn [identity_affine m00 m01 m02 m10 m11 m12] in *.
  rewrite <- Eh at 1. apply (map_seq_nth m []). intros y Hy.
  assert (Hrow : length (nth y m []) = w).
  { rewrite List.Forall_forall in Hrows. apply Hrows. now apply nth_In. }
  rewrite <- Hrow at 1. apply (map_seq_nth _ black). intros x Hx.
  rewrite <- pixel_at_nth. apply sample_grid_point.
  - rewrite N00, N01, N02. ring.
  - rewrite N10, N11, N12. ring.
  - rewrite pixel_at_nth.
    rewrite List.Forall_forall in Hpix.
    assert (Hr : Forall pixel_ok (nth y m [])) by (apply Hpix; now apply nth_In).
    rewrite List.Forall_forall in Hr. apply Hr. now apply nth_In.
Qed.

End IdentityWarp.

(** ** Dimensions and content of the corrected image *)

Section RotateClaims.

(** C1, as stated, fails: a calibration angle of 90 degrees, inside
    (-180, 180], turns a frame one pixel high and two wide into one two
    high and one wide. *)
Lemma rotate_quarter_turn_exchanges_dimensions :
  (-180 < 90)%Q /\ (90 <= 180)%Q /\
  shape wide_frame = (1%nat, 2%nat) /\
  exists out,
    rotate_by cos_poly sin_poly 90 wide_frame = Returns out /\
    shape out = (2%nat, 1%nat).
Proof.
  split; [reflexivity | split; [discriminate | split; [reflexivity |]]].
  eexists. split; vm_compute; reflexivity.
Qed.

(** C1, amended: for a calibration angle in (-180, 180] the corrected
    image has the dimensions of the quarter-turned frame: those of the
    input for |a| <= 45 and |a| > 135, height and width exchanged for
    45 < |a| <= 135. *)
Theorem rotate_dimensions (cosd sind : Q -> Q) (a : Q) (m : image) (h w : nat) :
  (-180 < a)%Q -> (a <= 180)%Q ->
  grid h w m -> (0 < h)%nat -> (0 < w)%nat ->
  exists out, rotate_by cosd sind a m = Returns out /\
    shape out =
      if Qlt_bool 45 (Qabs a) && Qle_bool (Qabs a) 135 then (w, h) else (h, w).
Proof.
  intros Lo Hi G Hh Hw.
  destruct (rotate_by_grid cosd sind a m h w G Hh Hw) as (out & E & S).
  exists out. split; [exact E |].
  rewrite S, (turns_odd_range a Lo Hi).
  now destruct (Qlt_bool 45 (Qabs a) && Qle_bool (Qabs a) 135).
Qed.

Lemma rotate_dimensions_witness :
  exists out, rotate_by cos_poly sin_poly 90 wide_frame = Returns out /\
    shape out = (2%nat, 1%nat).
Proof.
  apply (rotate_dimensions cos_poly sin_poly 90 wide_frame 1 2).
  - reflexivity.
  - discriminate.
  - split; [reflexivity | repeat constructor].
  - lia.
  - lia.
Defined.

(** C7: a calibration angle of 0 gives zero quarter turns and a zero
    residual angle, and the corrected image is the input, pixel for
    pixel: the warp runs with the identity matrix. *)
Theorem rotate_zero_is_identity (cosd sind : Q -> Q) (m : image) (h w : nat) :
  (cosd 0 == 1)%Q -> (sind 0 == 0)%Q ->
  frame_ok h w m -> (0 < h)%nat -> (0 < w)%nat ->
  rotation_plan 0 = (0, 0%Q) /\
  affine_eq
    (getRotationMatrix2D cosd sind (Z.quot (Z.of_nat w) 2) (Z.quot (Z.of_nat h) 2) 0 1)
    identity_affine /\
  rotate_by cosd sind 0 m = Returns m.
Proof.
  intros Hc Hs F Hh Hw. split; [reflexivity | split].
  - now apply getRotationMatrix2D_zero.
  - unfold rotate_by. change (rotation_plan 0) with (0, 0%Q).
    cbv beta iota zeta. change (np_rot90 m 0) with m.
    rewrite (grid_shape h w m (proj1 F) Hh).
    apply (warpAffine_identity _ m h w); try assumption.
    now apply getRotationMatrix2D_zero.
Qed.

Lemma rotate_zero_is_identity_witness :
  rotation_plan 0 = (0, 0%Q) /\
  affine_eq (getRotationMatrix2D cos_poly sin_poly 1 0 0 1) identity_affine /\
  rotate_by cos_poly sin_poly 0 wide_frame = Returns wide_frame.
Proof.
  apply (rotate_zero_is_identity cos_poly sin_poly wide_frame 1 2).
  - reflexivity.
  - reflexivity.
  - split; [split; [reflexivity | repeat constructor] |].
    repeat constructor; cbn; lia.
  - lia.
  - lia.
Defined.

End RotateClaims.

(** ** Computations that only read *)

Section ReadOnly.

Lemma read_only_ret {A} (a : A) : read_only (mret a : M A).
Proof. easy. Qed.

Lemma read_only_raise {A} e : read_only (raise e : M A).
Proof. easy. Qed.

Lemma read_only_ask {A} (f : world -> A) : read_only (ask f).
Proof. easy. Qed.

Lemma read_only_lift {A} (o : outcome A) : read_only (lift o).
Proof. easy. Qed.

Lemma read_only_environ_get key : read_only (environ_get key).
Proof. intros w tr. unfold run, environ_get. now destruct (environ w !! key). Qed.

Lemma read_only_bind {A B} (m : M A) (f : A -> M B) :
  read_only m -> (forall a, read_only (f a)) -> read_only (m ≫= f).
Proof.
  intros Hm Hf w tr. unfold run, mbind, M_bind.
  rewrite (Hm w tr), (Hm w []). unfold run.
  destruct (fst (m w [])) as [a | e]; [| reflexivity].
  rewrite (Hf a w tr), (Hf a w []). reflexivity.
Qed.

Lemma read_only_try_except_else {A B} (body : M A) handler (orelse : A -> M B) :
  read_only body ->
  (forall e h, handler e = Some h -> read_only h) ->
  (forall a, read_only (orelse a)) ->
  read_only (try_except_else body handler orelse).
Proof.
  intros Hb Hh Ho w tr. unfold run, try_except_else.
  rewrite (Hb w tr), (Hb w []). unfold run.
  destruct (fst (body w [])) as [a | e].
  - rewrite (Ho a w tr), (Ho a w []). reflexivity.
  - destruct (handler e) as [h |] eqn:E; [| reflexivity].
    rewrite (Hh e h E w tr), (Hh e h E w []). reflexivity.
Qed.

Lemma read_only_first_char s : read_only (first_char s).
Proof. destruct s; [apply read_only_raise | apply read_only_ret]. Qed.

Lemma read_only_int_of_pychar c : read_only (int_of_pychar c).
Proof.
  unfold int_of_pychar. apply read_only_bind.
  - destruct c; [apply read_only_ret | apply read_only_ask].
  - intros [n |]; [apply read_only_ret | apply read_only_raise].
Qed.

Lemma read_only_farmware_api_url : read_only farmware_api_url.
Proof.
  unfold farmware_api_url, getenv.
  repeat first
    [ apply read_only_first_char | apply read_only_int_of_pychar
    | apply read_only_environ_get
    | apply read_only_ask | apply read_only_ret | apply read_only_raise
    | apply read_only_bind; [| intros ?] ].
Qed.

Lemma read_only_rotate image : read_only (rotate image).
Proof.
  unfold rotate.
  repeat first
    [ apply read_only_bind; [| intros ?]
    | apply read_only_ask | apply read_only_ret | apply read_only_raise
    | apply read_only_lift | apply read_only_environ_get
    | match goal with |- read_only (match ?x with _ => _ end) => destruct x end ].
Qed.

Lemma run_image_filename w tr :
  image_filename w tr = (Returns (timestamp_name w), tr).
Proof. reflexivity. Qed.

Lemma run_upload_path filename w tr :
  upload_path filename w tr = (Returns (images_dir w +:+ "/" +:+ filename), tr).
Proof.
  unfold upload_path, try_except, try_except_else, environ_get, images_dir,
    mbind, M_bind, mret, M_ret.
  now destruct (environ w !! "IMAGES_DIR").
Qed.

End ReadOnly.

(** ** The status reporter *)

Section Reporter.

(** What one call of [log] does, case by case. *)
Lemma log_unfold message message_type w tr :
  log message message_type w tr =
    let entered := tr ++ [LogCall message message_type] in
    match environ w !! "FARMWARE_URL" with
    | None => (Returns tt, entered ++ [Stdout (str message)])
    | Some _ =>
        match environ w !! "FARMWARE_TOKEN" with
        | None => (Raises (KeyError "FARMWARE_TOKEN"), entered)
        | Some token =>
            match fst (run farmware_api_url w) with
            | Raises e => (Raises e, entered)
            | Returns url =>
                let target := url +:+ "celery_script" in
                let data := log_payload message message_type in
                let headers := log_headers token in
                (match requests_post w target data headers with
                 | Returns _ => Returns tt
                 | Raises e => Raises e
                 end,
                 entered ++ [HttpPost target data headers])
            end
        end
    end.
Proof.
  unfold log, try_except_else, post. cbv zeta.
  unfold mbind at 1. unfold M_bind at 1. unfold emit at 1.
  unfold environ_get at 1.
  destruct (environ w !! "FARMWARE_URL") as [base |]; [| reflexivity].
  unfold mbind at 1. unfold M_bind at 1. unfold environ_get at 1.
  destruct (environ w !! "FARMWARE_TOKEN") as [token |]; [| reflexivity].
  unfold mbind at 1. unfold M_bind at 1.
  rewrite (read_only_farmware_api_url w).
  destruct (fst (run farmware_api_url w)) as [url | e]; [| reflexivity].
  unfold mbind, M_bind, emit, ask, lift, mret, M_ret, send_message, log_payload,
    log_headers, id.
  now destruct (requests_post w _ _ _).
Qed.

Lemma log_shape message message_type w tr :
  exists o rest,
    log message message_type w tr = (o, tr ++ LogCall message message_type :: rest) /\
    log_tail message message_type rest.
Proof.
  rewrite log_unfold. cbv zeta. unfold log_tail.
  destruct (environ w !! "FARMWARE_URL") as [base |].
  - destruct (environ w !! "FARMWARE_TOKEN") as [token |].
    + destruct (fst (run farmware_api_url w)) as [url | e].
      * eexists _, [_]. rewrite <- app_assoc. split; [reflexivity |].
        right; right. now exists url, token.
      * exists (Raises e), []. split; [reflexivity | now left].
    + eexists _, []. split; [reflexivity | now left].
  - exists (Returns tt), [Stdout (str message)].
    rewrite <- app_assoc. split; [reflexivity | right; now left].
Qed.

(** The same for a run that starts with an empty trace. *)
Lemma run_log message message_type w :
  run (log message message_type) w =
    match environ w !! "FARMWARE_URL" with
    | None => (Returns tt, [LogCall message message_type; Stdout (str message)])
    | Some _ =>
        match environ w !! "FARMWARE_TOKEN" with
        | None => (Raises (KeyError "FARMWARE_TOKEN"), [LogCall message message_type])
        | Some token =>
            match fst (run farmware_api_url w) with
            | Raises e => (Raises e, [LogCall message message_type])
            | Returns url =>
                (match requests_post w (url +:+ "celery_script")
                         (log_payload message message_type) (log_headers token) with
                 | Returns _ => Returns tt
                 | Raises e => Raises e
                 end,
                 [LogCall message message_type;
                  HttpPost (url +:+ "celery_script")
                    (log_payload message message_type) (log_headers token)])
            end
        end
    end.
Proof. exact (log_unfold message message_type w []). Qed.

Lemma log_tail_quiet message message_type rest :
  log_tail message message_type rest -> Forall quiet rest.
Proof.
  intros [-> | [-> | (url & token & ->)]]; repeat constructor.
Qed.

End Reporter.

Section ReporterClaims.




Lemma string_length_append (s t : string) :
  String.length (s +:+ t) = (String.length s + String.length t)%nat.
Proof. induction s as [| c s IH]; simpl; [reflexivity | now rewrite IH]. Qed.

(** The prefix makes the text longer, so it is never the message itself. *)
Lemma prefixed_differs (s : string) : "[take-photo] " +:+ s <> s.
Proof.
  intros E. apply (f_equal String.length) in E.
  rewrite string_length_append in E. cbn in E. lia.
Qed.

(** C10: with the endpoint at hand [log] posts, and the text it delivers
    in the payload is [[take-photo] ] followed by the string form of the
    message, not the message itself, and nothing is printed; without
    [FARMWARE_URL] it prints the string form of the message, without the
    prefix, and posts nothing.  In no run does [log] post another text
    or print another line. *)
Theorem log_prefix_only_when_posted (message : pyobj) (message_type : string) (w : world) :
  let tr := snd (run (log message message_type) w) in
  let delivered :=
    JObject
      [("kind", JString "send_message");
       ("args",
        JObject [("message", JString ("[take-photo] " +:+ str message));
                 ("message_type", JString message_type)])] in
  (forall base token url,
      environ w !! "FARMWARE_URL" = Some base ->
      environ w !! "FARMWARE_TOKEN" = Some token ->
      fst (run farmware_api_url w) = Returns url ->
      (exists headers, In (HttpPost (url +:+ "celery_script") delivered headers) tr) /\
      (forall line, ~ In (Stdout line) tr)) /\
  (environ w !! "FARMWARE_URL" = None ->
   In (Stdout (str message)) tr /\
   (forall url data headers, ~ In (HttpPost url data headers) tr)) /\
  (forall url data headers, In (HttpPost url data headers) tr -> data = delivered) /\
  (forall line, In (Stdout line) tr -> line = str message) /\
  "[take-photo] " +:+ str message <> str message.
Proof.
  cbv zeta. rewrite run_log.
  split; [| split; [| split; [| split; [| apply prefixed_differs]]]].
  - intros base token url -> -> ->. cbn [snd]. split.
    + eexists. right. left. reflexivity.
    + intros line [H | [H | []]]; discriminate H.
  - intros ->. cbn [snd]. split.
    + right. now left.
    + intros url data headers [H | [H | []]]; discriminate H.
  - intros url data headers.
    destruct (environ w !! "FARMWARE_URL");
      [destruct (environ w !! "FARMWARE_TOKEN");
       [destruct (fst (run farmware_api_url w)) |] |]; cbn [snd In];
      intros H; repeat (destruct H as [H | H]); try discriminate H; try easy.
    now injection H as _ <- _.
  - intros line.
    destruct (environ w !! "FARMWARE_URL");
      [destruct (environ w !! "FARMWARE_TOKEN");
       [destruct (fst (run farmware_api_url w)) |] |]; cbn [snd In];
      intros H; repeat (destruct H as [H | H]); try discriminate H; try easy.
    now injection H as <-.
Qed.

Lemma log_prefix_only_when_posted_witness :
  ((exists headers,
      In (HttpPost ("http://localhost:27347/api/v1/" +:+ "celery_script")
            (JObject
               [("kind", JString "send_message");
                ("args",
                 JObject [("message", JString "[take-photo] camera ready");
                          ("message_type", JString "info")])])
            headers)
         (snd (run (log "camera ready" "info") configured_world))) /\
   (forall line,
      ~ In (Stdout line) (snd (run (log "camera ready" "info") configured_world)))) /\
  In (Stdout "camera ready") (snd (run (log "camera ready" "info") console_world)) /\
  (forall url data headers,
     ~ In (HttpPost url data headers)
         (snd (run (log "camera ready" "info") console_world))).
Proof.
  split.
  - apply (proj1 (log_prefix_only_when_posted "camera ready" "info" configured_world)
             "http://localhost:27347/" "secret" "http://localhost:27347/api/v1/");
      reflexivity.
  - apply (proj1 (proj2 (log_prefix_only_when_posted "camera ready" "info" console_world))).
    reflexivity.
Defined.

(** C6, as stated, fails: with the network down the exception raised by
    the POST leaves [log], and with it the whole run, which otherwise
    returns. *)
Lemma post_failure_surfaces :
  requests_post offline_world "http://localhost:27347/api/v1/celery_script"
    (log_payload "USB Camera not detected." "error") (log_headers "secret") =
    Raises OSError /\
  fst (run (log "USB Camera not detected." "error") offline_world) =
    Raises OSError /\
  fst (run main offline_world) = Raises OSError /\
  fst (run main no_camera_world) = Returns tt.
Proof. repeat split; vm_compute; reflexivity. Qed.

(** C6, amended: a POST that comes back with a response, whatever its
    status, is not looked at and [log] returns normally; an exception
    raised by the POST is not caught in [log] and reaches its caller. *)
Theorem log_outcome_follows_post
    (message : pyobj) (message_type : string) (w : world) (base token url : string) :
  environ w !! "FARMWARE_URL" = Some base ->
  environ w !! "FARMWARE_TOKEN" = Some token ->
  fst (run farmware_api_url w) = Returns url ->
  fst (run (log message message_type) w) =
    match requests_post w (url +:+ "celery_script")
            (log_payload message message_type) (log_headers token) with
    | Returns status => Returns tt
    | Raises e => Raises e
    end.
Proof.
  intros Hb Ht Hu. rewrite run_log, Hb, Ht, Hu. reflexivity.
Qed.

Lemma log_outcome_follows_post_witness :
  fst (run (log "USB Camera not detected." "error") offline_world) =
    Raises OSError /\
  fst (run (log "USB Camera not detected." "error") no_camera_world) = Returns tt.
Proof.
  split.
  - apply (log_outcome_follows_post "USB Camera not detected." "error" offline_world
             "http://localhost:27347/" "secret" "http://localhost:27347/api/v1/");
      reflexivity.
  - apply (log_outcome_follows_post "USB Camera not detected." "error" no_camera_world
             "http://localhost:27347/" "secret" "http://localhost:27347/api/v1/");
      reflexivity.
Defined.

End ReporterClaims.

(** ** The endpoint URL *)

Section Endpoint.

(** The endpoint is decided by the first character of the version string
    alone. *)
Lemma run_farmware_api_url w :
  run farmware_api_url w =
    (match default "0.0.0" (environ w !! "FARMBOT_OS_VERSION") with
     | EmptyString => Raises IndexError
     | String first rest =>
         match first_digit w (String first rest) with
         | None => Raises ValueError
         | Some major_version =>
             match environ w !! "FARMWARE_URL" with
             | None => Raises (KeyError "FARMWARE_URL")
             | Some base_url =>
                 Returns (if 5 <? major_version then base_url +:+ "api/v1/" else base_url)
             end
         end
     end, []).
Proof.
  unfold run, farmware_api_url, getenv, first_char, int_of_pychar, first_digit,
    ask, environ_get, raise, mbind, M_bind, mret, M_ret.
  destruct (default "0.0.0" (environ w !! "FARMBOT_OS_VERSION")) as [| first rest];
    [reflexivity |].
  destruct (is_ascii first).
  - destruct (int_of_char first) as [n |]; [| reflexivity].
    now destruct (environ w !! "FARMWARE_URL").
  - destruct (int_of_wide_char w (String first rest)) as [n |]; [| reflexivity].
    now destruct (environ w !! "FARMWARE_URL").
Qed.

(** A decimal digit is an ASCII character. *)
Lemma int_of_char_ascii c d : int_of_char c = Some d -> is_ascii c = true /\ 0 <= d <= 9.
Proof.
  unfold int_of_char, is_ascii. intros H.
  destruct ((48 <=? Z.of_nat (nat_of_ascii c)) && (Z.of_nat (nat_of_ascii c) <=? 57)) eqn:B;
    [| discriminate H].
  injection H as <-. apply andb_true_iff in B as [B1 B2]. split; [apply Z.ltb_lt |]; lia.
Qed.

(** For a version string made of one digit, a dot and anything else, the
    first character is the major version and the endpoint follows it. *)
Lemma farmware_api_url_single_digit w first rest major base_url :
  environ w !! "FARMBOT_OS_VERSION" = Some (String first (String "." rest)) ->
  int_of_char first = Some major ->
  environ w !! "FARMWARE_URL" = Some base_url ->
  platform_major_version (String first (String "." rest)) = Some major /\
  fst (run farmware_api_url w) =
    Returns (if 5 <? major then base_url +:+ "api/v1/" else base_url).
Proof.
  intros Hv Hd Hb. split.
  - unfold platform_major_version. cbn [leading_number].
    destruct (Ascii.eqb first ".") eqn:E.
    + apply Ascii.eqb_eq in E. subst first. discriminate Hd.
    + rewrite Hd. cbn. now rewrite Z.add_0_l.
  - rewrite run_farmware_api_url, Hv.
    change (default "0.0.0" (Some (String first (String "." rest))))
      with (String first (String "." rest)).
    unfold first_digit.
    destruct (int_of_char_ascii _ _ Hd) as [-> _]. now rewrite Hd, Hb.
Qed.

(** C4: the endpoint should carry [api/v1/] whenever the platform's major
    version exceeds 5.  At version 10.0.0 the major version is 10, yet
    the script returns the bare base URL, because it converts only the
    first character of the version string. *)
Theorem farmware_api_url_at_version_10 :
  environ version_10_world !! "FARMBOT_OS_VERSION" = Some "10.0.0" /\
  platform_major_version "10.0.0" = Some 10 /\
  run farmware_api_url version_10_world = (Returns "http://localhost:27347/", []).
Proof. repeat split; vm_compute; reflexivity. Qed.

End Endpoint.

(** ** Saving the frame *)

Section SaveFrame.

Lemma run_rotate w image :
  fst (run (rotate image) w) =
    match environ w !! "CAMERA_CALIBRATION_total_rotation_angle" with
    | None => Raises (KeyError "CAMERA_CALIBRATION_total_rotation_angle")
    | Some text =>
        match float_of_str w text with
        | None | Some NaN => Raises ValueError
        | Some (Infinite _) => Raises OverflowError
        | Some (Finite angle) => rotate_by (cos_deg w) (sin_deg w) angle image
        end
    end.
Proof.
  unfold run, rotate, environ_get, ask, lift, raise, mbind, M_bind, id.
  destruct (environ w !! "CAMERA_CALIBRATION_total_rotation_angle") as [text |];
    [| reflexivity].
  cbn. now destruct (float_of_str w text) as [[angle | negative |] |].
Qed.

(** What the save stage does with a frame, by the outcome of [rotate]. *)
Lemma run_save_frame w frame tr :
  save_frame (Some frame) w tr =
    match fst (run (rotate frame) w) with
    | Returns corrected =>
        (Returns tt,
         tr ++
         [ImWrite (images_dir w +:+ "/" +:+ "rotated_" +:+ timestamp_name w) corrected;
          Stdout ("Image saved: " +:+
                  images_dir w +:+ "/" +:+ "rotated_" +:+ timestamp_name w)])
    | Raises _ =>
        (Returns tt,
         tr ++
         [ImWrite (images_dir w +:+ "/" +:+ timestamp_name w) frame;
          Stdout ("Image saved: " +:+ images_dir w +:+ "/" +:+ timestamp_name w)])
    end.
Proof.
  unfold save_frame.
  unfold mbind at 1. unfold M_bind at 1. rewrite run_image_filename.
  unfold mbind at 1. unfold M_bind at 1. unfold try_except_else.
  rewrite (read_only_rotate frame w tr).
  destruct (fst (run (rotate frame) w)) as [corrected | e];
    unfold mret, M_ret, mbind, M_bind, emit; rewrite !run_upload_path;
    now rewrite <- app_assoc.
Qed.

(** No calibration stored: the frame is written as it came. *)
Lemma save_frame_without_calibration w frame :
  environ w !! "CAMERA_CALIBRATION_total_rotation_angle" = None ->
  run (save_frame (Some frame)) w =
    (Returns tt,
     [ImWrite (images_dir w +:+ "/" +:+ timestamp_name w) frame;
      Stdout ("Image saved: " +:+ images_dir w +:+ "/" +:+ timestamp_name w)]).
Proof.
  intros H. unfold run at 1. now rewrite run_save_frame, run_rotate, H.
Qed.

(** A calibration that [float()] rejects: the same. *)
Lemma save_frame_malformed_calibration w frame text :
  environ w !! "CAMERA_CALIBRATION_total_rotation_angle" = Some text ->
  float_of_str w text = None ->
  run (save_frame (Some frame)) w =
    (Returns tt,
     [ImWrite (images_dir w +:+ "/" +:+ timestamp_name w) frame;
      Stdout ("Image saved: " +:+ images_dir w +:+ "/" +:+ timestamp_name w)]).
Proof.
  intros H1 H2. unfold run at 1. now rewrite run_save_frame, run_rotate, H1, H2.
Qed.

(** C5: once a frame has been read, a failed correction (the calibration
    angle is missing or malformed, or the correction itself raises) writes
    the frame as it came, under the plain timestamp name; a successful one
    writes the corrected frame under the name with the [rotated_] prefix. *)
Theorem save_frame_prefix_follows_rotation (w : world) (frame : image) :
  run (save_frame (Some frame)) w =
    match fst (run (rotate frame) w) with
    | Returns corrected =>
        (Returns tt,
         [ImWrite (images_dir w +:+ "/" +:+ "rotated_" +:+ timestamp_name w) corrected;
          Stdout ("Image saved: " +:+
                  images_dir w +:+ "/" +:+ "rotated_" +:+ timestamp_name w)])
    | Raises _ =>
        (Returns tt,
         [ImWrite (images_dir w +:+ "/" +:+ timestamp_name w) frame;
          Stdout ("Image saved: " +:+ images_dir w +:+ "/" +:+ timestamp_name w)])
    end /\
  fst (run (rotate frame) w) =
    match environ w !! "CAMERA_CALIBRATION_total_rotation_angle" with
    | None => Raises (KeyError "CAMERA_CALIBRATION_total_rotation_angle")
    | Some text =>
        match float_of_str w text with
        | None | Some NaN => Raises ValueError
        | Some (Infinite _) => Raises OverflowError
        | Some (Finite angle) => rotate_by (cos_deg w) (sin_deg w) angle frame
        end
    end.
Proof.
  split; [| apply run_rotate].
  unfold run at 1. rewrite run_save_frame.
  now destruct (fst (run (rotate frame) w)).
Qed.

Lemma bind_run {A B} (m : M A) (f : A -> M B) w tr :
  (m ≫= f) w tr =
    match m w tr with
    | (Returns a, tr') => f a w tr'
    | (Raises e, tr') => (Raises e, tr')
    end.
Proof. reflexivity. Qed.

(** The USB path either stops with an exception before the frame is
    looked at, or hands the frame the camera delivered to the save
    stage. *)
Lemma usb_camera_photo_ends_with_save w :
  exists pre,
    (exists e, run usb_camera_photo w = (Raises e, pre)) \/
    run usb_camera_photo w = save_frame (camera_read w) w pre.
Proof.
  unfold run, usb_camera_photo. cbv zeta.
  repeat (rewrite bind_run;
          match goal with
          | |- context [match ?m w ?tr with _ => _ end] =>
              let E := fresh "E" in
              destruct (m w tr) as [[? | ?] ?] eqn:E;
              [| eexists; left; eexists; reflexivity]
          end).
  match goal with
  | H : ask camera_read w _ = _ |- _ => injection H as <- <-
  end.
  eexists. right. reflexivity.
Qed.

(** In the USB path, once the camera has delivered a frame, a run that
    returns has ended by writing that frame: corrected and under the
    prefixed name when [rotate] returned, untouched and under the plain
    name when it raised. *)
Lemma usb_camera_photo_saves w frame :
  camera_read w = Some frame ->
  exists pre,
    (exists e, run usb_camera_photo w = (Raises e, pre)) \/
    run usb_camera_photo w =
      match fst (run (rotate frame) w) with
      | Returns corrected =>
          (Returns tt,
           pre ++
           [ImWrite (images_dir w +:+ "/" +:+ "rotated_" +:+ timestamp_name w) corrected;
            Stdout ("Image saved: " +:+
                    images_dir w +:+ "/" +:+ "rotated_" +:+ timestamp_name w)])
      | Raises _ =>
          (Returns tt,
           pre ++
           [ImWrite (images_dir w +:+ "/" +:+ timestamp_name w) frame;
            Stdout ("Image saved: " +:+ images_dir w +:+ "/" +:+ timestamp_name w)])
      end.
Proof.
  intros Hread. destruct (usb_camera_photo_ends_with_save w) as (pre & [H | H]);
    exists pre; [now left | right].
  now rewrite H, Hread, run_save_frame.
Qed.

End SaveFrame.

(** ** The board-camera path *)

Section BoardCamera.

Lemma run_rpi_camera_photo w :
  run rpi_camera_photo w =
    let argv := raspistill_argv w in
    let path := images_dir w +:+ "/" +:+ timestamp_name w in
    match subprocess_call w argv with
    | Returns retcode =>
        if retcode =? 0
        then (Returns tt, [Subprocess argv; Stdout ("Image saved: " +:+ path)])
        else
          match log "Problem getting image." "error" w [Subprocess argv] with
          | (Raises OSError, tr) => log "Raspberry Pi Camera not detected." "error" w tr
          | other => other
          end
    | Raises OSError => log "Raspberry Pi Camera not detected." "error" w [Subprocess argv]
    | Raises e => (Raises e, [Subprocess argv])
    end.
Proof.
  unfold run, rpi_camera_photo, try_except, try_except_else, raspistill_argv.
  unfold mbind at 1. unfold M_bind at 1. rewrite run_image_filename.
  unfold mbind at 1. unfold M_bind at 1. rewrite run_upload_path.
  unfold call, mbind, M_bind, emit, ask, lift, id. cbn [app].
  destruct (subprocess_call w _) as [retcode | e].
  - destruct (retcode =? 0); [reflexivity |].
    destruct (log "Problem getting image." "error" w _) as [[[] | e] tr];
      [reflexivity |].
    now destruct e.
  - now destruct e.
Qed.

Lemma count_app p tr1 tr2 : count p (tr1 ++ tr2) = (count p tr1 + count p tr2)%nat.
Proof. unfold count. now rewrite List.filter_app, length_app. Qed.

Lemma count_log_tail s t message message_type rest :
  log_tail message message_type rest -> count (is_log_call s t) rest = 0%nat.
Proof. intros [-> | [-> | (url & token & ->)]]; reflexivity. Qed.



End BoardCamera.

(** ** Capture settings (lines 94-123) *)

Section CaptureSettings.

Variable p : CaptureParameters.

Lemma setting_ok_mono tr ext e : setting_ok p tr e -> setting_ok p (tr ++ ext) e.
Proof.
  destruct e; cbn; try easy.
  - intros (Hty & prop & Hm & Hd & Hin). split; [exact Hty |].
    exists prop. repeat split; try assumption. apply in_or_app. now left.
  - intros (Hv & Hwhy & Hlog). repeat split; try assumption.
    intros Hd. apply in_or_app. left. now apply Hlog.
Qed.

Lemma settings_ok_extend tr ext :
  settings_ok p tr -> Forall (setting_ok p (tr ++ ext)) ext -> settings_ok p (tr ++ ext).
Proof.
  intros Hold Hnew. unfold settings_ok. apply Forall_app. split; [| exact Hnew].
  eapply List.Forall_impl; [| exact Hold]. intros e. apply setting_ok_mono.
Qed.

Lemma quiet_setting_ok tr e : quiet e -> setting_ok p tr e.
Proof. now destruct e. Qed.

Lemma all_pushed_mono done tr ext :
  all_pushed p done tr -> all_pushed p done (tr ++ ext).
Proof. intros H prop Hin Hwhy. apply in_or_app. left. now apply H. Qed.

Lemma differs_inject_Z z s : differs (inject_Z z) (inject_Z s) = negb (z =? s).
Proof. unfold differs, Qeq_bool. cbn. now rewrite !Z.mul_1_r. Qed.

Lemma step_seq P Q R (m1 m2 : M unit) :
  step p P m1 Q -> step p Q m2 R -> step p P (m1;; m2) R.
Proof.
  intros H1 H2 w tr Hok HP. unfold mbind, M_bind.
  specialize (H1 w tr Hok HP). destruct (m1 w tr) as [[[] | e] tr1].
  - destruct H1 as [Hok1 HQ]. exact (H2 w tr1 Hok1 HQ).
  - exact H1.
Qed.

(** A value that differs from the sentinel: push it, then report it. *)
Lemma step_override prop message done :
  override_message p prop = message ->
  differs (configured p prop) (sentinel prop) = true ->
  step p (all_pushed p done)
    (camera_set prop (configured p prop);; log message "info")
    (all_pushed p (prop :: done)).
Proof.
  intros Hm Hd w tr Hok HP. unfold mbind, M_bind, camera_set, emit.
  destruct (log_shape message "info" w (tr ++ [CameraSet prop (configured p prop)]))
    as (o & rest & -> & T).
  rewrite <- app_assoc. cbn [app].
  set (ext := CameraSet prop (configured p prop) :: LogCall message "info" :: rest).
  assert (Hnew : settings_ok p (tr ++ ext)).
  { apply settings_ok_extend; [exact Hok |].
    unfold ext. constructor; [| constructor].
    - cbn. repeat split; [now right |]. intros _.
      apply in_or_app. right. rewrite Hm. right. now left.
    - cbn. split; [reflexivity |]. exists prop. repeat split; [now rewrite Hm | exact Hd |].
      apply in_or_app. right. now left.
    - eapply List.Forall_impl; [| exact (log_tail_quiet _ _ _ T)].
      intros e. apply quiet_setting_ok. }
  assert (Hdone : all_pushed p (prop :: done) (tr ++ ext)).
  { intros prop' [<- | Hin] Hwhy.
    - apply in_or_app. right. now left.
    - exact (all_pushed_mono done tr ext HP prop' Hin Hwhy). }
  destruct o as [[] | e]; [split |]; assumption.
Qed.

(** A resolution at its sentinel is pushed all the same, without a report. *)
Lemma step_default_resolution prop done :
  is_resolution prop = true ->
  differs (configured p prop) (sentinel prop) = false ->
  step p (all_pushed p done) (camera_set prop (configured p prop))
    (all_pushed p (prop :: done)).
Proof.
  intros Hres Hd w tr Hok HP. unfold camera_set, emit. split.
  - apply settings_ok_extend; [exact Hok |]. constructor; [| constructor].
    cbn. repeat split; [now left |].
    intros Hd'. rewrite Hd in Hd'. discriminate Hd'.
  - intros prop' [<- | Hin] Hwhy.
    + apply in_or_app. right. now left.
    + exact (all_pushed_mono done tr _ HP prop' Hin Hwhy).
Qed.

(** Any other value at its sentinel is left alone. *)
Lemma step_skip prop done :
  is_resolution prop = false ->
  differs (configured p prop) (sentinel prop) = false ->
  step p (all_pushed p done) (mret tt) (all_pushed p (prop :: done)).
Proof.
  intros Hres Hd w tr Hok HP. split; [exact Hok |].
  intros prop' [<- | Hin] Hwhy.
  - destruct Hwhy as [H | H]; [rewrite Hres in H | rewrite Hd in H]; discriminate H.
  - now apply HP.
Qed.

Lemma step_resolution prop z s message done :
  is_resolution prop = true ->
  configured p prop = inject_Z z -> sentinel prop = inject_Z s ->
  override_message p prop = message ->
  step p (all_pushed p done)
    (if negb (z =? s) then camera_set prop (inject_Z z);; log message "info"
     else camera_set prop (inject_Z s))
    (all_pushed p (prop :: done)).
Proof.
  intros Hres Hc Hs Hm.
  pose proof (differs_inject_Z z s) as Hd. rewrite <- Hc, <- Hs in Hd.
  destruct (z =? s) eqn:E; cbn [negb] in *.
  - apply Z.eqb_eq in E. subst s. rewrite <- Hc.
    now apply step_default_resolution.
  - rewrite <- Hc. now apply step_override.
Qed.

Lemma step_optional prop message done :
  is_resolution prop = false -> sentinel prop = 10%Q ->
  override_message p prop = message ->
  step p (all_pushed p done)
    (if differs (configured p prop) 10 then
       camera_set prop (configured p prop);; log message "info"
     else mret tt)
    (all_pushed p (prop :: done)).
Proof.
  intros Hres Hs Hm. rewrite <- Hs.
  destruct (differs (configured p prop) (sentinel prop)) eqn:Hd.
  - now apply step_override.
  - now apply step_skip.
Qed.

Lemma step_apply_capture_parameters :
  step p (all_pushed p []) (apply_capture_parameters p)
    (all_pushed p
       [CAP_PROP_GAIN; CAP_PROP_HUE; CAP_PROP_SATURATION; CAP_PROP_CONTRAST;
        CAP_PROP_BRIGHTNESS; CAP_PROP_FRAME_HEIGHT; CAP_PROP_FRAME_WIDTH]).
Proof.
  unfold apply_capture_parameters.
  eapply step_seq;
    [exact (step_resolution CAP_PROP_FRAME_WIDTH (width p) 640 _ _
              eq_refl eq_refl eq_refl eq_refl) |].
  eapply step_seq;
    [exact (step_resolution CAP_PROP_FRAME_HEIGHT (height p) 480 _ _
              eq_refl eq_refl eq_refl eq_refl) |].
  eapply step_seq;
    [exact (step_optional CAP_PROP_BRIGHTNESS _ _ eq_refl eq_refl eq_refl) |].
  eapply step_seq;
    [exact (step_optional CAP_PROP_CONTRAST _ _ eq_refl eq_refl eq_refl) |].
  eapply step_seq;
    [exact (step_optional CAP_PROP_SATURATION _ _ eq_refl eq_refl eq_refl) |].
  eapply step_seq;
    [exact (step_optional CAP_PROP_HUE _ _ eq_refl eq_refl eq_refl) |].
  exact (step_optional CAP_PROP_GAIN _ _ eq_refl eq_refl eq_refl).
Qed.

End CaptureSettings.

Section CaptureSettingsClaims.

(** C3, as stated, fails: with every setting at its sentinel the USB path
    still sets the frame width and height on the device. *)
Lemma resolution_pushed_at_sentinel :
  configured default_parameters CAP_PROP_FRAME_WIDTH = sentinel CAP_PROP_FRAME_WIDTH /\
  configured default_parameters CAP_PROP_FRAME_HEIGHT = sentinel CAP_PROP_FRAME_HEIGHT /\
  get_config_int configured_world "take-photo" "width_val" = ([], Returns 640) /\
  get_config_int configured_world "take-photo" "height_val" = ([], Returns 480) /\
  In (CameraSet CAP_PROP_FRAME_WIDTH 640) (snd (run usb_camera_photo configured_world)) /\
  In (CameraSet CAP_PROP_FRAME_HEIGHT 480) (snd (run usb_camera_photo configured_world)).
Proof.
  repeat split; vm_compute; try reflexivity;
    repeat (first [left; reflexivity | right]).
Qed.

(** C3, amended: brightness, contrast, saturation, hue and gain are
    pushed to the device only when the configured value differs from
    10.0, while frame width and height are pushed with the configured
    value also when it is the sentinel 640 or 480; an "info" event is
    reported exactly for the pushed values that differ from their
    sentinel.  When the block returns, every value that had to be pushed
    has been pushed. *)
Theorem capture_parameters_pushed (p : CaptureParameters) (w : world) :
  let tr := snd (run (apply_capture_parameters p) w) in
  (forall prop v, In (CameraSet prop v) tr ->
     v = configured p prop /\
     (is_resolution prop = true \/ differs v (sentinel prop) = true)) /\
  (forall prop v, In (CameraSet prop v) tr ->
     differs v (sentinel prop) = true ->
     In (LogCall (override_message p prop) "info") tr) /\
  (forall message message_type, In (LogCall message message_type) tr ->
     message_type = "info" /\
     exists prop,
       message = override_message p prop /\
       differs (configured p prop) (sentinel prop) = true /\
       In (CameraSet prop (configured p prop)) tr) /\
  (fst (run (apply_capture_parameters p) w) = Returns tt ->
   forall prop,
     is_resolution prop = true \/ differs (configured p prop) (sentinel prop) = true ->
     In (CameraSet prop (configured p prop)) tr) /\
  snd (run (apply_capture_parameters default_parameters) w) =
    [CameraSet CAP_PROP_FRAME_WIDTH 640; CameraSet CAP_PROP_FRAME_HEIGHT 480].
Proof.
  cbv zeta.
  assert (Hok0 : settings_ok p []) by constructor.
  assert (HP0 : all_pushed p [] []) by (intros prop []).
  pose proof (step_apply_capture_parameters p w [] Hok0 HP0) as H.
  unfold run.
  destruct (apply_capture_parameters p w []) as [o tr] eqn:E. cbn [fst snd].
  assert (Hok : settings_ok p tr) by (destruct o; tauto).
  unfold settings_ok in Hok. rewrite List.Forall_forall in Hok.
  split; [| split; [| split; [| split]]].
  - intros prop v Hin. destruct (Hok _ Hin) as (Hv & Hwhy & _). now split.
  - intros prop v Hin Hd. destruct (Hok _ Hin) as (_ & _ & Hlog). now apply Hlog.
  - intros message message_type Hin. exact (Hok _ Hin).
  - intros -> prop Hwhy. destruct H as [_ Hall]. apply Hall; [| exact Hwhy].
    destruct prop; cbn; tauto.
  - reflexivity.
Qed.

End CaptureSettingsClaims.

(** ** Worked runs *)

Section WorkedRuns.

(** The USB path outside the platform, no calibration stored: the frame
    is written as it came. *)
Example usb_run_without_calibration :
  run main console_world =
    (Returns tt,
     [VideoCapture 0; Sleep;
      CameraSet CAP_PROP_FRAME_WIDTH 640; CameraSet CAP_PROP_FRAME_HEIGHT 480]
       ++ repeat CameraGrab 20
       ++ [CameraRead; CameraRelease;
           ImWrite "/tmp/images/1500000000.jpg" wide_frame;
           Stdout "Image saved: /tmp/images/1500000000.jpg"]).
Proof. vm_compute. reflexivity. Qed.

(** With a calibration of 90 degrees the frame is turned once clockwise
    and the file name carries the prefix. *)
Example usb_run_with_calibration :
  run main calibrated_world =
    (Returns tt,
     [VideoCapture 0; Sleep;
      CameraSet CAP_PROP_FRAME_WIDTH 640; CameraSet CAP_PROP_FRAME_HEIGHT 480]
       ++ repeat CameraGrab 20
       ++ [CameraRead; CameraRelease;
           ImWrite "/tmp/images/rotated_1500000000.jpg"
             [[Pixel 10 20 30]; [Pixel 40 50 60]];
           Stdout "Image saved: /tmp/images/rotated_1500000000.jpg"]).
Proof. vm_compute. reflexivity. Qed.

(** The board-camera path: the utility exits with status 1, or is missing. *)
Example rpi_run_exit_status_1 :
  run rpi_camera_photo failing_utility_world =
    (Returns tt,
     [Subprocess ["raspistill"; "-w"; "640"; "-h"; "480"; "-o";
                  "/tmp/images/1500000000.jpg"];
      LogCall "Problem getting image." "error";
      Stdout "Problem getting image."]).
Proof. vm_compute. reflexivity. Qed.

Example rpi_run_utility_missing :
  run rpi_camera_photo missing_utility_world =
    (Returns tt,
     [Subprocess ["raspistill"; "-w"; "640"; "-h"; "480"; "-o";
                  "/tmp/images/1500000000.jpg"];
      LogCall "Raspberry Pi Camera not detected." "error";
      Stdout "Raspberry Pi Camera not detected."]).
Proof. vm_compute. reflexivity. Qed.

(** The utility exits with status 1 and the network is down: the error
    raised by the first report is caught by the [except OSError] clause,
    whose own report raises again. *)
Example rpi_run_exit_status_1_offline :
  run rpi_camera_photo (with_subprocess_call (fun _ => Returns 1) offline_world) =
    (Raises OSError,
     [Subprocess ["raspistill"; "-w"; "640"; "-h"; "480"; "-o";
                  "/tmp/images/1500000000.jpg"];
      LogCall "Problem getting image." "error";
      HttpPost "http://localhost:27347/api/v1/celery_script"
        (log_payload "Problem getting image." "error") (log_headers "secret");
      LogCall "Raspberry Pi Camera not detected." "error";
      HttpPost "http://localhost:27347/api/v1/celery_script"
        (log_payload "Raspberry Pi Camera not detected." "error")
        (log_headers "secret")]).
Proof. vm_compute. reflexivity. Qed.

(** Nothing in the environment: the device is opened, the first setting
    cannot be read and the run ends there. *)
Example usb_run_without_settings :
  run main bare_world =
    (Raises (KeyError "take_photo_brightness_val"), [VideoCapture 0; Sleep]).
Proof. vm_compute. reflexivity. Qed.

(** No camera attached and the network down: the first report ends the
    run before the device is opened. *)
Example usb_run_offline :
  run main offline_world =
    (Raises OSError,
     [Stdout "No camera detected at video0."; Stdout "Trying video1...";
      Stdout "No camera detected at video1.";
      LogCall "USB Camera not detected." "error";
      HttpPost "http://localhost:27347/api/v1/celery_script"
        (log_payload "USB Camera not detected." "error") (log_headers "secret")]).
Proof. vm_compute. reflexivity. Qed.

End WorkedRuns.

(** * Further properties of the script *)

(** ** Stages, event classes and further surroundings *)

Module Stages.

(** A computation appends events of class [Q]: started from any trace it
    returns what it returns from the empty one, and adds the same
    events, all of them in [Q]. *)
Definition appends {A} (Q : event -> Prop) (m : M A) : Prop :=
  forall w,
    (forall tr, m w tr = (fst (run m w), tr ++ snd (run m w))) /\
    Forall Q (snd (run m w)).

(** The events one call [log(message, message_type)] can cause. *)
Definition report_of (message : pyobj) (message_type : string) (e : event) : Prop :=
  e = LogCall message message_type \/
  e = Stdout (str message) \/
  exists url token,
    e = HttpPost (url +:+ "celery_script") (log_payload message message_type)
          (log_headers token).

(** Events that report: a call of [log], a printed line, a request. *)
Definition reporting_event (e : event) : Prop :=
  (exists line, e = Stdout line) \/
  (exists message message_type, e = LogCall message message_type) \/
  exists url data headers, e = HttpPost url data headers.

(** Events of the camera once it is open: a discarded frame, the read,
    the release. *)
Definition capture_event (e : event) : Prop :=
  e = CameraGrab \/ e = CameraRead \/ e = CameraRelease.

(** Events of the settings block: a device setting or an "info" report. *)
Definition settings_event (e : event) : Prop :=
  (exists prop v, e = CameraSet prop v) \/
  exists message, report_of message "info" e.

(** Lines 86-123 of [usb_camera_photo]: the settings are read, then
    applied. *)
Definition configure : M unit :=
  parameters ← read_capture_parameters;
  apply_capture_parameters parameters.

(** Events of lines 86-123: a line printed by the configuration
    library, or an event of the settings block. *)
Definition configure_event (e : event) : Prop :=
  (exists line, e = Stdout line) \/ settings_event e.

(** The device index [usb_camera_photo] ends up with after lines 72-78. *)
Definition camera_port (w : world) : Z :=
  if path_exists w "/dev/video0" then 0 else 1.

(** Outcome and events of the probe, lines 72-78. *)
Definition probe_run (w : world) : outcome unit * trace :=
  if path_exists w "/dev/video0" then (Returns tt, [])
  else if path_exists w "/dev/video1"
  then (Returns tt,
        [Stdout "No camera detected at video0."; Stdout "Trying video1..."])
  else (fst (run (log "USB Camera not detected." "error") w),
        [Stdout "No camera detected at video0."; Stdout "Trying video1...";
         Stdout "No camera detected at video1."]
          ++ snd (run (log "USB Camera not detected." "error") w)).

(** The whole of [usb_camera_photo], stage by stage: probe, open and
    settle, settings read and applied, discarded frames, read and
    release, save. *)
Definition usb_stages (w : world) : outcome unit * trace :=
  let opened := snd (probe_run w) ++ [VideoCapture (camera_port w); Sleep] in
  let settings := run configure w in
  let saved := run (save_frame (camera_read w)) w in
  match fst (probe_run w) with
  | Raises e => (Raises e, snd (probe_run w))
  | Returns _ =>
      match fst settings with
      | Raises e => (Raises e, opened ++ snd settings)
      | Returns _ =>
          (fst saved,
           opened ++ snd settings ++ repeat CameraGrab 20
             ++ [CameraRead; CameraRelease] ++ snd saved)
      end
  end.

(** A statement returns in the surroundings [w], whatever came before. *)
Definition returns_in (w : world) (m : M unit) : Prop :=
  forall tr, exists tr', m w tr = (Returns tt, tr').

(** The device of [console_world] with a camera that gives no frame. *)
Definition no_frame_world : world := with_camera_read None console_world.

(** The platform with the network down and a frame width of 800
    stored, camera attached. *)
Definition resized_offline_world : world :=
  with_post (fun _ _ _ => Raises OSError)
    (with_environ (<["take_photo_width_val" := "800"]> (environ configured_world))
       configured_world).

End Stages.
Export Stages.


(** ** More on the rotation plan (lines 41-44) *)

Section RotationPlanMore.

Lemma Qlt_bool_comp x x' y y' :
  (x == x')%Q -> (y == y')%Q -> Qlt_bool x y = Qlt_bool x' y'.
Proof.
  intros Ex Ey.
  destruct (Qlt_bool_reflect x y) as [L | L], (Qlt_bool_reflect x' y') as [L' | L'];
    try reflexivity; exfalso; apply L || apply L'; lra.
Qed.

(** The residual is the angle plus the quarter turns, whatever the angle. *)
Lemma residual_eq a :
  snd (rotation_plan a) = (a + inject_Z (90 * fst (rotation_plan a)))%Q.
Proof. now rewrite rotation_plan_unfold. Qed.

Lemma turns_mirror_pos a :
  (0 < a)%Q -> fst (rotation_plan (- a)) = - fst (rotation_plan a).
Proof.
  intros Pos.
  assert (Neg : (- a < 0)%Q) by lra.
  destruct (rotation_plan_neg (- a) Neg) as (_ & _ & ->).
  destruct (rotation_plan_nonneg a (Qlt_le_weak _ _ Pos)) as (_ & _ & ->).
  cbn [fst].
  assert (Eq : Qfloor (- - a / 90) = Qfloor (a / 90)) by (apply Qfloor_comp; field).
  rewrite Eq.
  rewrite (Qlt_bool_comp 45 45 (- - a - inject_Z (Qfloor (a / 90)) * 90)
             (a - inject_Z (Qfloor (a / 90)) * 90)) by (try reflexivity; ring).
  destruct (Qlt_bool 45 _); lia.
Qed.

Lemma turns_zero a : (a == 0)%Q -> fst (rotation_plan a) = 0.
Proof.
  intros E.
  assert (Pos : (0 <= a)%Q) by lra.
  destruct (rotation_plan_nonneg a Pos) as (B1 & B2 & ->). cbn [fst].
  assert (Q0 : Qfloor (a / 90) = 0).
  { rewrite (Qfloor_comp (a / 90) 0); [reflexivity | rewrite E; reflexivity]. }
  rewrite Q0 in *. change (inject_Z 0) with 0%Q in *.
  destruct (Qlt_bool_reflect 45 (a - 0 * 90)) as [L | L]; [exfalso; lra | reflexivity].
Qed.

(** X1: mirroring the calibration angle mirrors the correction: the
    quarter turns and the residual angle both change sign. *)
Theorem rotation_plan_mirror (a : Q) :
  fst (rotation_plan (- a)) = - fst (rotation_plan a) /\
  (snd (rotation_plan (- a)) == - snd (rotation_plan a))%Q.
Proof.
  assert (T : fst (rotation_plan (- a)) = - fst (rotation_plan a)).
  { destruct (Q_dec a 0) as [[Neg | Pos] | Zero].
    - assert (P : (0 < - a)%Q) by lra.
      pose proof (turns_mirror_pos (- a) P) as H.
      assert (E : fst (rotation_plan (- - a)) = fst (rotation_plan a)).
      { destruct (rotation_plan_neg a Neg) as (_ & _ & ->).
        assert (Neg' : (- - a < 0)%Q) by lra.
        destruct (rotation_plan_neg (- - a) Neg') as (_ & _ & ->). cbn [fst].
        assert (Eq : Qfloor (- - - a / 90) = Qfloor (- a / 90))
          by (apply Qfloor_comp; field).
        rewrite Eq.
        now rewrite (Qlt_bool_comp 45 45 (- - - a - inject_Z (Qfloor (- a / 90)) * 90)
                       (- a - inject_Z (Qfloor (- a / 90)) * 90))
          by (try reflexivity; ring). }
      rewrite E in H. lia.
    - now apply turns_mirror_pos.
    - rewrite (turns_zero a Zero), (turns_zero (- a)) by (rewrite Zero; reflexivity).
      reflexivity. }
  split; [exact T |].
  rewrite !residual_eq, T, !inject_Z_mult, inject_Z_opp. ring.
Qed.

End RotationPlanMore.

Section RotationPlanRanges.

Lemma small_angle_plan (a : Q) :
  (Qabs a <= 45)%Q ->
  fst (rotation_plan a) = 0 /\ (snd (rotation_plan a) == a)%Q.
Proof.
  intros Small. apply Qabs_Qle_condition in Small as [Lo Hi].
  assert (T : fst (rotation_plan a) = 0).
  { destruct (Qlt_le_dec a 0) as [Neg | Pos].
    - destruct (rotation_plan_neg a Neg) as (B1 & B2 & ->). cbn [fst].
      set (q := Qfloor (- a / 90)) in *. clearbody q.
      assert (Hq : q = 0).
      { assert (0 <= q <= 0); [| lia].
        split; apply Z.lt_succ_r; rewrite Zlt_Qlt; unfold Z.succ;
          rewrite inject_Z_plus; change (inject_Z 1) with 1%Q;
          try change (inject_Z 0) with 0%Q; lra. }
      subst q. change (inject_Z 0) with 0%Q in *.
      destruct (Qlt_bool_reflect 45 (- a - 0 * 90)) as [L | L];
        [exfalso; lra | reflexivity].
    - destruct (rotation_plan_nonneg a Pos) as (B1 & B2 & ->). cbn [fst].
      set (q := Qfloor (a / 90)) in *. clearbody q.
      assert (Hq : q = 0).
      { assert (0 <= q <= 0); [| lia].
        split; apply Z.lt_succ_r; rewrite Zlt_Qlt; unfold Z.succ;
          rewrite inject_Z_plus; change (inject_Z 1) with 1%Q;
          try change (inject_Z 0) with 0%Q; lra. }
      subst q. change (inject_Z 0) with 0%Q in *.
      destruct (Qlt_bool_reflect 45 (a - 0 * 90)) as [L | L];
        [exfalso; lra | reflexivity]. }
  split; [exact T |]. rewrite residual_eq, T.
  change (inject_Z (90 * 0)) with 0%Q. ring.
Qed.

(** X2: an angle of at most 45 degrees in magnitude is left to the warp
    alone: no quarter turn, and the residual is the angle itself. *)
Theorem rotation_plan_small_angle (a : Q) :
  (Qabs a <= 45)%Q ->
  fst (rotation_plan a) = 0 /\ (snd (rotation_plan a) == a)%Q.
Proof. apply small_angle_plan. Qed.

Lemma rotation_plan_small_angle_witness :
  fst (rotation_plan (-45)) = 0 /\ (snd (rotation_plan (-45)) == -45)%Q.
Proof. apply (rotation_plan_small_angle (-45)). vm_compute. discriminate. Defined.

Lemma right_angle_plan (k : Z) :
  rotation_plan (inject_Z (90 * k)) = (- k, 0%Q).
Proof.
  assert (T : fst (rotation_plan (inject_Z (90 * k))) = - k).
  { destruct (Z_lt_le_dec k 0) as [Neg | Pos].
    - assert (N : (inject_Z (90 * k) < 0)%Q).
      { change 0%Q with (inject_Z 0). rewrite <- Zlt_Qlt. lia. }
      destruct (rotation_plan_neg _ N) as (B1 & B2 & ->). cbn [fst].
      assert (Q0 : Qfloor (- inject_Z (90 * k) / 90) = - k).
      { rewrite (Qfloor_comp _ (inject_Z (- k))); [apply Qfloor_Z |].
        rewrite inject_Z_mult, inject_Z_opp. change (inject_Z 90) with 90%Q. field. }
      rewrite Q0 in *.
      destruct (Qlt_bool_reflect 45 (- inject_Z (90 * k) - inject_Z (- k) * 90))
        as [L | L]; [exfalso | reflexivity].
      rewrite inject_Z_mult, inject_Z_opp in L. change (inject_Z 90) with 90%Q in L.
      lra.
    - assert (P : (0 <= inject_Z (90 * k))%Q).
      { change 0%Q with (inject_Z 0). rewrite <- Zle_Qle. lia. }
      destruct (rotation_plan_nonneg _ P) as (B1 & B2 & ->). cbn [fst].
      assert (Q0 : Qfloor (inject_Z (90 * k) / 90) = k).
      { rewrite (Qfloor_comp _ (inject_Z k)); [apply Qfloor_Z |].
        rewrite inject_Z_mult. change (inject_Z 90) with 90%Q. field. }
      rewrite Q0 in *.
      destruct (Qlt_bool_reflect 45 (inject_Z (90 * k) - inject_Z k * 90))
        as [L | L]; [exfalso | reflexivity].
      rewrite inject_Z_mult in L. change (inject_Z 90) with 90%Q in L. lra. }
  rewrite (surjective_pairing (rotation_plan _)), residual_eq, T.
  f_equal. unfold Qplus, inject_Z. cbn [Qnum Qden]. f_equal. lia.
Qed.

(** X4: a calibration of exactly [k] right angles is undone by [-k]
    quarter turns and leaves a residual angle of zero. *)
Theorem rotation_plan_right_angles (k : Z) :
  rotation_plan (inject_Z (90 * k)) = (- k, 0%Q).
Proof. apply right_angle_plan. Qed.

End RotationPlanRanges.

(** ** Binary64 rounding *)

Section Pow2.

Lemma two_neq_0 : ~ (2 == 0)%Q.
Proof. discriminate. Qed.

Lemma pow2_pos k : (0 < 2 ^ k)%Q.
Proof. now apply Qpower_0_lt. Qed.

Lemma pow2_succ k : (2 ^ (k + 1) == 2 * 2 ^ k)%Q.
Proof. rewrite Qpower_plus by apply two_neq_0. change (2 ^ 1)%Q with 2%Q. ring. Qed.

Lemma pow2_pred k : (2 * 2 ^ (k - 1) == 2 ^ k)%Q.
Proof. rewrite <- pow2_succ. now replace (k - 1 + 1) with k by lia. Qed.

Lemma pow2_le a b : a <= b -> (2 ^ a <= 2 ^ b)%Q.
Proof. intros H. now apply Qpower_le_compat_l. Qed.

Lemma pow2_lt a b : a < b -> (2 ^ a < 2 ^ b)%Q.
Proof. intros H. now apply Qpower_lt_compat_l. Qed.

Lemma pow2_lt_inv a b : (2 ^ a < 2 ^ b)%Q -> a < b.
Proof. intros H. now apply (Qpower_lt_compat_l_inv 2). Qed.

Lemma pow2_Z k : 0 <= k -> (inject_Z (2 ^ k) == 2 ^ k)%Q.
Proof. intros H. now rewrite Zpower_Qpower. Qed.

Lemma pow2_split a b : (2 ^ a == 2 ^ (a - b) * 2 ^ b)%Q.
Proof.
  rewrite <- Qpower_plus by apply two_neq_0. now replace (a - b + b) with a by lia.
Qed.

End Pow2.

Section Log2.

Lemma Qabs_as_quotient q :
  (Qabs q * inject_Z (Zpos (Qden q)) == inject_Z (Z.abs (Qnum q)))%Q.
Proof.
  destruct q as [n d]. cbn [Qabs Qnum Qden].
  rewrite (Qmake_Qdiv (Z.abs n) d). field.
  change 0%Q with (inject_Z 0). rewrite inject_Z_injective. lia.
Qed.

Lemma Qlog2_spec q :
  ~ (q == 0)%Q -> (2 ^ Qlog2 q <= Qabs q)%Q /\ (Qabs q < 2 ^ (Qlog2 q + 1))%Q.
Proof.
  intros Hq. unfold Qlog2.
  set (n := Z.abs (Qnum q)). set (d := Zpos (Qden q)).
  assert (Hn : 0 < n).
  { unfold n. destruct q as [qn qd]. unfold Qeq in Hq. cbn in *. lia. }
  assert (Hd : 0 < d) by (unfold d; lia).
  pose proof (Z.log2_spec n Hn) as [Na Na'].
  pose proof (Z.log2_spec d Hd) as [Db Db'].
  pose proof (Z.log2_nonneg n) as An. pose proof (Z.log2_nonneg d) as Bn.
  set (a := Z.log2 n) in *. set (b := Z.log2 d) in *.
  pose proof (Qabs_as_quotient q) as E. fold n d in E.
  set (X := Qabs q) in *.
  assert (QNa : (2 ^ a <= inject_Z n)%Q) by (rewrite <- pow2_Z by lia; now rewrite <- Zle_Qle).
  assert (QNa' : (inject_Z n < 2 * 2 ^ a)%Q).
  { rewrite <- pow2_succ. unfold Z.succ in Na'. rewrite <- pow2_Z by lia. now rewrite <- Zlt_Qlt. }
  assert (QDb : (2 ^ b <= inject_Z d)%Q) by (rewrite <- pow2_Z by lia; now rewrite <- Zle_Qle).
  assert (QDb' : (inject_Z d < 2 * 2 ^ b)%Q).
  { rewrite <- pow2_succ. unfold Z.succ in Db'. rewrite <- pow2_Z by lia. now rewrite <- Zlt_Qlt. }
  pose proof (pow2_split a b) as S.
  pose proof (pow2_pos a) as Pa. pose proof (pow2_pos b) as Pb.
  pose proof (pow2_pos (a - b)) as Pk.
  assert (X0 : (0 <= X)%Q) by apply Qabs_nonneg.
  set (N := inject_Z n) in *. set (D := inject_Z d) in *.
  set (A := (2 ^ a)%Q) in *. set (B := (2 ^ b)%Q) in *.
  destruct (Qle_bool (2 ^ (a - b)) X) eqn:T.
  - apply Qle_bool_iff in T. split; [exact T |].
    rewrite pow2_succ. set (P := (2 ^ (a - b))%Q) in *.
    apply Qnot_le_lt. intros C.
    assert (H1 : (2 * P * B <= X * D)%Q).
    { apply Qle_trans with (X * B)%Q.
      - apply Qmult_le_compat_r; lra.
      - rewrite (Qmult_comm X B), (Qmult_comm X D). apply Qmult_le_compat_r; lra. }
    lra.
  - assert (T' : (X < 2 ^ (a - b))%Q).
    { apply Qnot_le_lt. intros C. apply Qle_bool_iff in C. congruence. }
    replace (a - b - 1 + 1) with (a - b) by lia. split; [| exact T'].
    pose proof (pow2_pred (a - b)) as Pp.
    set (P := (2 ^ (a - b))%Q) in *. set (P' := (2 ^ (a - b - 1))%Q) in *.
    apply Qnot_lt_le. intros C.
    assert (H1 : (X * D < P' * (2 * B))%Q).
    { apply Qle_lt_trans with (P' * D)%Q.
      - apply Qmult_le_compat_r; lra.
      - rewrite (Qmult_comm P' D), (Qmult_comm P' (2 * B)). apply Qmult_lt_compat_r; [| lra].
        unfold P'. apply pow2_pos. }
    assert (H2 : (P' * (2 * B) == A)%Q) by (rewrite S, <- Pp; ring).
    lra.
Qed.

Lemma Qlog2_lt q j : ~ (q == 0)%Q -> (Qabs q < 2 ^ j)%Q -> Qlog2 q < j.
Proof.
  intros Hq H. destruct (Qlog2_spec q Hq) as [Lo _].
  apply pow2_lt_inv. lra.
Qed.

Lemma Qlog2_ge q j : ~ (q == 0)%Q -> (2 ^ j <= Qabs q)%Q -> j <= Qlog2 q.
Proof.
  intros Hq H. destruct (Qlog2_spec q Hq) as [_ Hi].
  assert (j < Qlog2 q + 1); [| lia]. apply pow2_lt_inv. lra.
Qed.

Lemma Qlog2_unique q k :
  (2 ^ k <= Qabs q)%Q -> (Qabs q < 2 ^ (k + 1))%Q -> Qlog2 q = k.
Proof.
  intros Lo Hi.
  assert (Hq : ~ (q == 0)%Q).
  { intros E. rewrite E in Lo. pose proof (pow2_pos k). change (Qabs 0) with 0%Q in Lo. lra. }
  pose proof (Qlog2_lt q (k + 1) Hq Hi). pose proof (Qlog2_ge q k Hq Lo). lia.
Qed.

Lemma Qlog2_mono x y :
  ~ (x == 0)%Q -> (Qabs x <= Qabs y)%Q -> Qlog2 x <= Qlog2 y.
Proof.
  intros Hx H. destruct (Qlog2_spec x Hx) as [Lo _].
  assert (Hy : ~ (y == 0)%Q).
  { intros E. rewrite E in H. change (Qabs 0) with 0%Q in H. pose proof (pow2_pos (Qlog2 x)). lra. }
  apply Qlog2_ge; [exact Hy | lra].
Qed.

Lemma Qlog2_comp x y : ~ (x == 0)%Q -> (x == y)%Q -> Qlog2 x = Qlog2 y.
Proof.
  intros Hx E. destruct (Qlog2_spec x Hx) as [Lo Hi].
  symmetry. apply Qlog2_unique; now rewrite <- E.
Qed.

End Log2.

Section Rounding.

Lemma round_half_even_comp x y : (x == y)%Q -> round_half_even x = round_half_even y.
Proof.
  intros E. unfold round_half_even. rewrite (Qfloor_comp x y E).
  assert (C : (x - inject_Z (Qfloor y) ?= 1 # 2)%Q = (y - inject_Z (Qfloor y) ?= 1 # 2)%Q)
    by now rewrite E.
  now rewrite C.
Qed.

Lemma round_half_even_error x :
  (- (1 # 2) <= inject_Z (round_half_even x) - x)%Q /\
  (inject_Z (round_half_even x) - x <= 1 # 2)%Q.
Proof.
  unfold round_half_even.
  pose proof (Qfloor_le x) as Lo. pose proof (Qlt_floor x) as Hi.
  rewrite inject_Z_plus in Hi. change (inject_Z 1) with 1%Q in Hi.
  set (f := Qfloor x) in *.
  destruct (x - inject_Z f ?= 1 # 2)%Q eqn:C.
  - apply Qeq_alt in C. destruct (Z.even f); [| rewrite inject_Z_plus; change (inject_Z 1) with 1%Q]; lra.
  - apply Qlt_alt in C. lra.
  - apply Qgt_alt in C. rewrite inject_Z_plus. change (inject_Z 1) with 1%Q. lra.
Qed.

Lemma round_half_even_Z z : round_half_even (inject_Z z) = z.
Proof.
  unfold round_half_even. rewrite Qfloor_Z.
  assert (C : (inject_Z z - inject_Z z ?= 1 # 2)%Q = Lt) by (rewrite <- Qlt_alt; lra).
  now rewrite C.
Qed.

Lemma round_half_even_ge x z : (inject_Z z <= x)%Q -> z <= round_half_even x.
Proof.
  intros H. unfold round_half_even.
  assert (F : z <= Qfloor x).
  { rewrite <- (Qfloor_Z z). now apply Qfloor_resp_le. }
  destruct (x - inject_Z (Qfloor x) ?= 1 # 2)%Q; [destruct (Z.even (Qfloor x)) | |]; lia.
Qed.

End Rounding.

Section Grid.

Lemma on_grid_finer e e' q : on_grid e q -> e' <= e -> on_grid e' q.
Proof.
  intros (m & E) H. exists (m * 2 ^ (e - e')).
  rewrite E, inject_Z_mult, pow2_Z by lia.
  rewrite (pow2_split e e'). ring.
Qed.

Lemma on_grid_Z e z : e <= 0 -> on_grid e (inject_Z z).
Proof.
  intros H. apply (on_grid_finer 0); [| exact H].
  exists z. change (2 ^ 0)%Q with 1%Q. ring.
Qed.

Lemma on_grid_opp e q : on_grid e q -> on_grid e (- q).
Proof. intros (m & E). exists (- m). rewrite E, inject_Z_opp. ring. Qed.

Lemma on_grid_plus e x y : on_grid e x -> on_grid e y -> on_grid e (x + y).
Proof.
  intros (m & Ex) (n & Ey). exists (m + n). rewrite Ex, Ey, inject_Z_plus. ring.
Qed.

Lemma on_grid_comp e x y : (x == y)%Q -> on_grid e x -> on_grid e y.
Proof. intros E (m & Ex). exists m. now rewrite <- E. Qed.

Lemma on_grid_Qabs e q : on_grid e q -> on_grid e (Qabs q).
Proof.
  intros H. destruct (Qlt_le_dec q 0) as [N | P].
  - apply (on_grid_comp e (- q)); [symmetry; apply Qabs_neg; lra | now apply on_grid_opp].
  - apply (on_grid_comp e q); [symmetry; now apply Qabs_pos | exact H].
Qed.

(** A positive multiple of [2 ^ e] is at least [2 ^ e]. *)
Lemma on_grid_positive e q : on_grid e q -> (0 < q)%Q -> (2 ^ e <= q)%Q.
Proof.
  intros (m & E) H. pose proof (pow2_pos e) as P.
  assert (Hm : 1 <= m).
  { assert (0 < m); [| lia]. apply Z.lt_nge. intros C.
    assert (C' : (inject_Z m <= 0)%Q) by (change 0%Q with (inject_Z 0); now rewrite <- Zle_Qle).
    assert ((inject_Z m * 2 ^ e <= 0 * 2 ^ e)%Q) by (apply Qmult_le_compat_r; lra).
    lra. }
  assert (Hm' : (1 <= inject_Z m)%Q) by (change 1%Q with (inject_Z 1); now rewrite <- Zle_Qle).
  assert ((1 * 2 ^ e <= inject_Z m * 2 ^ e)%Q) by (apply Qmult_le_compat_r; lra).
  lra.
Qed.

End Grid.

Section Binary64.

Lemma Qabs_Qlog2 q : Qlog2 (Qabs q) = Qlog2 q.
Proof.
  unfold Qlog2. destruct q as [n d]. cbn [Qabs Qnum Qden].
  now rewrite Z.abs_idemp.
Qed.

Lemma ulp_exponent_comp x y : ~ (x == 0)%Q -> (x == y)%Q -> ulp_exponent x = ulp_exponent y.
Proof. intros Hx E. unfold ulp_exponent. now rewrite (Qlog2_comp x y Hx E). Qed.

Lemma ulp_exponent_mono x y :
  ~ (x == 0)%Q -> (Qabs x <= Qabs y)%Q -> ulp_exponent x <= ulp_exponent y.
Proof. intros Hx H. unfold ulp_exponent. pose proof (Qlog2_mono x y Hx H). lia. Qed.

Lemma b64_round_zero q : (q == 0)%Q -> b64_round q = 0%Q.
Proof. intros E. unfold b64_round. apply Qeq_bool_iff in E. now rewrite E. Qed.

Lemma b64_round_nonzero q :
  ~ (q == 0)%Q ->
  b64_round q =
    let m := round_half_even (Qabs q / 2 ^ ulp_exponent q) in
    Qred (if Qle_bool 0 q then inject_Z m * 2 ^ ulp_exponent q
          else - (inject_Z m * 2 ^ ulp_exponent q)).
Proof.
  intros Hq. unfold b64_round.
  destruct (Qeq_bool q 0) eqn:E; [| reflexivity].
  apply Qeq_bool_iff in E. contradiction.
Qed.

Lemma b64_round_unfold q :
  ~ (q == 0)%Q ->
  (b64_round q ==
    let m := round_half_even (Qabs q / 2 ^ ulp_exponent q) in
    if Qle_bool 0 q then inject_Z m * 2 ^ ulp_exponent q
    else - (inject_Z m * 2 ^ ulp_exponent q))%Q.
Proof. intros Hq. rewrite (b64_round_nonzero q Hq). apply Qred_correct. Qed.

Lemma b64_round_comp x y : (x == y)%Q -> b64_round x = b64_round y.
Proof.
  intros E. destruct (Qeq_dec x 0) as [Z | NZ].
  - rewrite (b64_round_zero x Z). symmetry. apply b64_round_zero. now rewrite <- E.
  - assert (NZ' : ~ (y == 0)%Q) by now rewrite <- E.
    rewrite (b64_round_nonzero x NZ), (b64_round_nonzero y NZ'). cbv zeta.
    rewrite (ulp_exponent_comp x y NZ E).
    rewrite (round_half_even_comp (Qabs x / 2 ^ ulp_exponent y) (Qabs y / 2 ^ ulp_exponent y))
      by now rewrite E.
    assert (S : Qle_bool 0 x = Qle_bool 0 y).
    { destruct (Qle_bool 0 x) eqn:A, (Qle_bool 0 y) eqn:B; try reflexivity.
      - apply Qle_bool_iff in A. rewrite E in A. apply Qle_bool_iff in A. congruence.
      - apply Qle_bool_iff in B. rewrite <- E in B. apply Qle_bool_iff in B. congruence. }
    now rewrite S.
Qed.

(** The magnitude of the rounded value. *)
Lemma b64_round_magnitude q :
  ~ (q == 0)%Q ->
  (Qabs (b64_round q) ==
   inject_Z (round_half_even (Qabs q / 2 ^ ulp_exponent q)) * 2 ^ ulp_exponent q)%Q /\
  (b64_round q == (if Qle_bool 0 q then 1 else - (1)) * Qabs (b64_round q))%Q.
Proof.
  intros Hq. rewrite (b64_round_unfold q Hq). cbv zeta.
  set (e := ulp_exponent q). pose proof (pow2_pos e) as P.
  set (m := round_half_even (Qabs q / 2 ^ e)).
  assert (Hm : 0 <= m).
  { apply round_half_even_ge. change (inject_Z 0) with 0%Q.
    apply Qle_shift_div_l; [exact P |]. rewrite Qmult_0_l. apply Qabs_nonneg. }
  assert (Hv : (0 <= inject_Z m * 2 ^ e)%Q).
  { apply Qmult_le_0_compat; [| lra]. change 0%Q with (inject_Z 0). now rewrite <- Zle_Qle. }
  destruct (Qle_bool 0 q).
  - rewrite Qabs_pos by exact Hv. split; [reflexivity | ring].
  - rewrite Qabs_opp, Qabs_pos by exact Hv. split; [reflexivity | ring].
Qed.

Lemma sign_times_Qabs q : (q == (if Qle_bool 0 q then 1 else - (1)) * Qabs q)%Q.
Proof.
  destruct (Qle_bool 0 q) eqn:S.
  - apply Qle_bool_iff in S. rewrite Qabs_pos by exact S. ring.
  - assert (N : (q <= 0)%Q).
    { apply Qnot_lt_le. intros C. apply Qlt_le_weak, Qle_bool_iff in C. congruence. }
    rewrite Qabs_neg by exact N. ring.
Qed.

(** Rounding leaves a value on its own grid alone. *)
Lemma b64_round_exact e q :
  on_grid e q -> ulp_exponent q <= e -> (b64_round q == q)%Q.
Proof.
  intros G H. destruct (Qeq_dec q 0) as [Z | NZ].
  - rewrite (b64_round_zero q Z). now symmetry.
  - destruct (b64_round_magnitude q NZ) as [M S].
    apply (on_grid_finer e (ulp_exponent q)) in G; [| exact H].
    apply on_grid_Qabs in G. destruct G as (m & Em).
    pose proof (pow2_pos (ulp_exponent q)) as P.
    assert (R : (Qabs q / 2 ^ ulp_exponent q == inject_Z m)%Q) by (rewrite Em; field; lra).
    rewrite (round_half_even_comp _ _ R), round_half_even_Z, <- Em in M.
    rewrite S, M. symmetry. apply sign_times_Qabs.
Qed.

(** A value that rounding leaves alone is on its own grid. *)
Lemma b64_round_fixed q :
  ~ (q == 0)%Q -> (b64_round q == q)%Q -> on_grid (ulp_exponent q) q.
Proof.
  intros NZ F. rewrite (b64_round_unfold q NZ) in F. cbv zeta in F.
  set (m := round_half_even (Qabs q / 2 ^ ulp_exponent q)) in F.
  destruct (Qle_bool 0 q).
  - exists m. now symmetry.
  - exists (- m). rewrite inject_Z_opp. lra.
Qed.

(** Rounding moves a value by at most half a grid step. *)
Lemma b64_round_error q :
  ~ (q == 0)%Q ->
  (Qabs (Qabs (b64_round q) - Qabs q) <= (1 # 2) * 2 ^ ulp_exponent q)%Q.
Proof.
  intros NZ. destruct (b64_round_magnitude q NZ) as [M _]. rewrite M.
  set (e := ulp_exponent q). pose proof (pow2_pos e) as P.
  destruct (round_half_even_error (Qabs q / 2 ^ e)) as [Lo Hi].
  set (m := inject_Z (round_half_even (Qabs q / 2 ^ e))) in *.
  assert (E : (m * 2 ^ e - Qabs q == (m - Qabs q / 2 ^ e) * 2 ^ e)%Q) by (field; lra).
  rewrite E. apply Qabs_Qle_condition. split.
  - assert ((- (1 # 2) * 2 ^ e <= (m - Qabs q / 2 ^ e) * 2 ^ e)%Q)
      by (apply Qmult_le_compat_r; lra).
    lra.
  - assert (((m - Qabs q / 2 ^ e) * 2 ^ e <= (1 # 2) * 2 ^ e)%Q)
      by (apply Qmult_le_compat_r; lra).
    lra.
Qed.

(** Rounding does not cross an integer from above when the grid is at
    least as fine as the integers. *)
Lemma b64_round_above z q :
  (inject_Z z <= Qabs q)%Q -> ulp_exponent q <= 0 -> ~ (q == 0)%Q ->
  (inject_Z z <= Qabs (b64_round q))%Q.
Proof.
  intros H He NZ. destruct (b64_round_magnitude q NZ) as [M _]. rewrite M.
  set (e := ulp_exponent q) in *. pose proof (pow2_pos e) as P.
  destruct (on_grid_Z e z He) as (k & Ek). rewrite Ek.
  apply Qmult_le_compat_r; [| lra]. rewrite <- Zle_Qle.
  apply round_half_even_ge. apply Qle_shift_div_l; [exact P |]. now rewrite <- Ek.
Qed.

Lemma b64_round_opp q : (b64_round (- q) == - b64_round q)%Q.
Proof.
  destruct (Qeq_dec q 0) as [Z | NZ].
  - rewrite (b64_round_zero q Z), (b64_round_zero (- q)) by (rewrite Z; reflexivity).
    reflexivity.
  - assert (NZ' : ~ (- q == 0)%Q) by (intros C; apply NZ; lra).
    destruct (b64_round_magnitude q NZ) as [M S].
    destruct (b64_round_magnitude (- q) NZ') as [M' S'].
    assert (U : ulp_exponent (- q) = ulp_exponent q).
    { unfold ulp_exponent, Qlog2. destruct q as [n d]. cbn [Qopp Qabs Qnum Qden].
      now rewrite Z.abs_opp. }
    rewrite U in M'.
    rewrite (round_half_even_comp (Qabs (- q) / 2 ^ ulp_exponent q)
               (Qabs q / 2 ^ ulp_exponent q)) in M' by (now rewrite Qabs_opp).
    rewrite <- M in M'. rewrite S', M'.
    set (V := Qabs (b64_round q)) in *. rewrite S.
    destruct (Qle_bool 0 q) eqn:A, (Qle_bool 0 (- q)) eqn:B; try ring.
    + apply Qle_bool_iff in A, B. exfalso. apply NZ. lra.
    + exfalso.
      assert (~ (0 <= q)%Q) by (intros C; apply Qle_bool_iff in C; congruence).
      assert (~ (0 <= - q)%Q) by (intros C; apply Qle_bool_iff in C; congruence).
      destruct (Qlt_le_dec q 0); [apply H0 | apply H]; lra.
Qed.

End Binary64.

Section Binary64Plan.

Lemma pow2_6 : (2 ^ 6 == 64)%Q.
Proof. reflexivity. Qed.

Lemma finite_in_range q : (Qabs q <= 2 ^ 54)%Q -> Qle_bool (2 ^ 1024) (Qabs q) = false.
Proof.
  intros H. destruct (Qle_bool (2 ^ 1024) (Qabs q)) eqn:E; [| reflexivity].
  apply Qle_bool_iff in E. pose proof (pow2_lt 54 1024 eq_refl). lra.
Qed.

(** 52 bits above the binary point: the grid is at least as fine as the
    integers. *)
Lemma ulp_exponent_integers q :
  ~ (q == 0)%Q -> (Qabs q < 2 ^ 53)%Q -> ulp_exponent q <= 0.
Proof.
  intros NZ H. pose proof (Qlog2_lt q 53 NZ H). unfold ulp_exponent. lia.
Qed.

Lemma b64_round_nonneg q : (0 <= q)%Q -> (b64_round q == Qabs (b64_round q))%Q.
Proof.
  intros H. destruct (Qeq_dec q 0) as [Z | NZ].
  - now rewrite (b64_round_zero q Z).
  - destruct (b64_round_magnitude q NZ) as [_ S].
    apply Qle_bool_iff in H. rewrite H in S. rewrite S at 1. ring.
Qed.

(** An integer of magnitude below 2^53 is a binary64 number. *)
Lemma b64_round_integer z : (Qabs (inject_Z z) < 2 ^ 53)%Q -> (b64_round (inject_Z z) == inject_Z z)%Q.
Proof.
  intros H. destruct (Qeq_dec (inject_Z z) 0) as [Z | NZ].
  - rewrite (b64_round_zero _ Z). now symmetry.
  - apply (b64_round_exact 0).
    + exists z. change (2 ^ 0)%Q with 1%Q. ring.
    + now apply ulp_exponent_integers.
Qed.

(** Dividing a positive binary64 number of at most 2^52 by 90 and
    rounding the quotient does not reach the next integer. *)
Lemma quotient_floor a :
  (0 < a)%Q -> (b64_round a == a)%Q -> (a <= 2 ^ 52)%Q ->
  Qfloor (b64_round (a / 90)) = Qfloor (a / 90) /\
  (0 <= b64_round (a / 90))%Q /\ (b64_round (a / 90) <= 2 ^ 52)%Q.
Proof.
  intros Pos Fix Hi.
  set (x := (a / 90)%Q).
  assert (Xpos : (0 < x)%Q) by (unfold x; apply Qlt_shift_div_l; lra).
  assert (NZ : ~ (x == 0)%Q) by lra.
  assert (NZa : ~ (a == 0)%Q) by lra.
  assert (Ax : (Qabs x == x)%Q) by (apply Qabs_pos; lra).
  assert (Aa : (Qabs a == a)%Q) by (apply Qabs_pos; lra).
  assert (Xa : (x * 90 == a)%Q) by (unfold x; field).
  pose proof (pow2_lt 52 53 eq_refl) as P5253.
  assert (Ex : ulp_exponent x <= 0).
  { apply ulp_exponent_integers; [exact NZ |]. rewrite Ax. lra. }
  pose proof (b64_round_nonneg x (Qlt_le_weak _ _ Xpos)) as Rn.
  pose proof (b64_round_error x NZ) as Err.
  rewrite Ax, <- Rn in Err. apply Qabs_Qle_condition in Err as [ErrLo ErrHi].
  pose proof (pow2_pos (ulp_exponent x)) as Pu.
  assert (Pu1 : (2 ^ ulp_exponent x <= 1)%Q).
  { change 1%Q with (2 ^ 0)%Q. now apply pow2_le. }
  pose proof (Qfloor_le x) as Flo. pose proof (Qlt_floor x) as Fhi.
  rewrite inject_Z_plus in Fhi. change (inject_Z 1) with 1%Q in Fhi.
  set (n := Qfloor x) in *.
  assert (Lower : (inject_Z n <= b64_round x)%Q).
  { rewrite Rn. apply b64_round_above; [now rewrite Ax | exact Ex | exact NZ]. }
  assert (N0 : (0 <= inject_Z n)%Q).
  { change 0%Q with (inject_Z 0). rewrite <- Zle_Qle. unfold n.
    rewrite <- (Qfloor_Z 0). apply Qfloor_resp_le. change (inject_Z 0) with 0%Q. lra. }
  assert (Upper : (b64_round x < inject_Z n + 1)%Q).
  { destruct (Qlt_le_dec a 45) as [Small | Large].
    - assert (x * 90 < 45)%Q by lra. lra.
    - pose proof (b64_round_fixed a NZa Fix) as Ga.
      assert (Ea : ulp_exponent a <= 0).
      { apply ulp_exponent_integers; [exact NZa |]. rewrite Aa. lra. }
      assert (La : 5 <= Qlog2 a).
      { apply Qlog2_ge; [exact NZa |]. rewrite Aa.
        assert ((2 ^ 5 == 32)%Q) by reflexivity. lra. }
      assert (Lx : Qlog2 x <= Qlog2 a - 6).
      { assert (Qlog2 x < Qlog2 a - 5); [| lia].
        apply Qlog2_lt; [exact NZ |]. rewrite Ax.
        destruct (Qlog2_spec a NZa) as [_ Top]. rewrite Aa in Top.
        pose proof (pow2_split (Qlog2 a + 1) 6) as Sp. rewrite pow2_6 in Sp.
        replace (Qlog2 a + 1 - 6) with (Qlog2 a - 5) in Sp by lia.
        pose proof (pow2_pos (Qlog2 a - 5)). lra. }
      assert (Exa : ulp_exponent x <= ulp_exponent a - 6) by (unfold ulp_exponent; lia).
      assert (Gap : (2 ^ ulp_exponent a <= inject_Z (90 * (n + 1)) - a)%Q).
      { apply on_grid_positive.
        - apply on_grid_plus; [now apply on_grid_Z | now apply on_grid_opp].
        - rewrite inject_Z_mult, inject_Z_plus. change (inject_Z 90) with 90%Q.
          change (inject_Z 1) with 1%Q. lra. }
      rewrite inject_Z_mult, inject_Z_plus in Gap. change (inject_Z 90) with 90%Q in Gap.
      change (inject_Z 1) with 1%Q in Gap.
      pose proof (pow2_le _ _ Exa) as Pe.
      pose proof (pow2_split (ulp_exponent a) 6) as Sp. rewrite pow2_6 in Sp.
      pose proof (pow2_pos (ulp_exponent a - 6)). lra. }
  split; [| split].
  - now apply Qfloor_unique.
  - lra.
  - assert (x * 90 <= 2 ^ 52)%Q by lra. pose proof (pow2_pos 52). lra.
Qed.

End Binary64Plan.

Section Binary64Link.

Lemma to_float_finite q :
  (Qabs (b64_round q) <= 2 ^ 54)%Q -> to_float q = Finite (b64_round q).
Proof. intros H. unfold to_float. cbv zeta. now rewrite (finite_in_range _ H). Qed.

Lemma binary64_opp a : (b64_round a == a)%Q -> (b64_round (- a) == - a)%Q.
Proof. intros H. now rewrite b64_round_opp, H. Qed.

(** The rounded quotient truncates to the same integer as the exact one. *)
Lemma truncation_exact a :
  (b64_round a == a)%Q -> (Qabs a <= 2 ^ 52)%Q ->
  to_float (a / 90) = Finite (b64_round (a / 90)) /\
  int_of_float (b64_round (a / 90)) = int_of_float (a / 90).
Proof.
  intros Fix Hi. pose proof (pow2_lt 52 54 eq_refl) as P.
  destruct (Q_dec a 0) as [[Neg | Pos] | Zero].
  - assert (Pos : (0 < - a)%Q) by lra.
    assert (Hi' : (- a <= 2 ^ 52)%Q) by (rewrite <- (Qabs_neg a) by lra; exact Hi).
    destruct (quotient_floor (- a) Pos (binary64_opp a Fix) Hi') as (F & Lo & Up).
    assert (E : b64_round (a / 90) = b64_round (- (- a / 90))) by (apply b64_round_comp; field).
    pose proof (b64_round_opp (- a / 90)) as O. rewrite <- E in O.
    split.
    + apply to_float_finite. rewrite O, Qabs_opp, Qabs_pos by exact Lo. lra.
    + rewrite (int_of_float_neg (b64_round (a / 90))) by lra.
      rewrite (int_of_float_neg (a / 90)) by (apply Qle_shift_div_r; [reflexivity | lra]).
      f_equal.
      rewrite (Qfloor_comp (- b64_round (a / 90)) (b64_round (- a / 90))) by (rewrite O; ring).
      rewrite F. apply Qfloor_comp. field.
  - assert (Hi' : (a <= 2 ^ 52)%Q) by (rewrite <- (Qabs_pos a) by lra; exact Hi).
    destruct (quotient_floor a Pos Fix Hi') as (F & Lo & Up).
    split.
    + apply to_float_finite. rewrite Qabs_pos by exact Lo. lra.
    + rewrite (int_of_float_nonneg _ Lo).
      rewrite (int_of_float_nonneg (a / 90)) by (apply Qle_shift_div_l; [reflexivity | lra]).
      exact F.
  - assert (Z : (a / 90 == 0)%Q) by (rewrite Zero; reflexivity).
    rewrite (b64_round_zero _ Z). split.
    + unfold to_float. now rewrite (b64_round_zero _ Z).
    + rewrite (int_of_float_nonneg (a / 90)) by (rewrite Z; discriminate).
      now rewrite (Qfloor_comp _ _ Z).
Qed.

(** The residual of the exact plan is a binary64 number again. *)
Lemma residual_binary64 a :
  (b64_round a == a)%Q -> (Qabs a <= 2 ^ 52)%Q ->
  (b64_round (snd (rotation_plan a)) == snd (rotation_plan a))%Q.
Proof.
  intros Fix Hi. pose proof (residual_bound a) as B.
  destruct (Qlt_le_dec 45 (Qabs a)) as [Large | Small].
  - rewrite residual_eq in *. set (t := fst (rotation_plan a)) in *.
    set (r := (a + inject_Z (90 * t))%Q) in *.
    destruct (Qeq_dec r 0) as [Z | NZ].
    + rewrite (b64_round_zero r Z). now symmetry.
    + assert (NZa : ~ (a == 0)%Q).
      { intros Z. rewrite Z in Large. change (Qabs 0) with 0%Q in Large. lra. }
      assert (Ea : ulp_exponent a <= 0).
      { apply ulp_exponent_integers; [exact NZa |]. pose proof (pow2_lt 52 53 eq_refl). lra. }
      apply (b64_round_exact (ulp_exponent a)).
      * apply on_grid_plus; [now apply b64_round_fixed | now apply on_grid_Z].
      * apply ulp_exponent_mono; [exact NZ | lra].
  - destruct (small_angle_plan a Small) as [_ E].
    rewrite (b64_round_comp _ _ E), E. exact Fix.
Qed.

(** For a binary64 angle of at most 2^52 degrees in magnitude the float
    arithmetic of lines 41-44 is exact: it gives the quarter turns and
    the residual of the plan computed in exact arithmetic. *)
Lemma binary64_plan_exact a :
  (b64_round a == a)%Q -> (Qabs a <= 2 ^ 52)%Q ->
  exists residual,
    rotation_plan_binary64 a = Returns (fst (rotation_plan a), Finite residual) /\
    (residual == snd (rotation_plan a))%Q.
Proof.
  intros Fix Hi. destruct (truncation_exact a Fix Hi) as [Fin Tr].
  pose proof (residual_bound a) as B. pose proof (residual_binary64 a Fix Hi) as RB.
  rewrite residual_eq in B, RB.
  pose proof (pow2_lt 52 53 eq_refl) as P53. pose proof (pow2_lt 53 54 eq_refl) as P54.
  assert (P6 : (64 <= 2 ^ 52)%Q) by (rewrite <- pow2_6; now apply pow2_le).
  unfold rotation_plan_binary64. rewrite Fin. cbn [int_of_pyfloat]. rewrite Tr. cbv zeta.
  change (if Qlt_bool 45 (float_mod (Qabs a) 90)
          then - int_of_float (a / 90) - 1 * (if Qlt_bool a 0 then -1 else 1)
          else - int_of_float (a / 90))
    with (fst (rotation_plan a)).
  set (t := fst (rotation_plan a)) in *.
  assert (St : (Qabs (inject_Z (90 * t)) < 2 ^ 53)%Q).
  { apply Qabs_Qle_condition in B as [B1 B2]. apply Qabs_Qle_condition in Hi as [H1 H2].
    apply Qabs_Qlt_condition. split; lra. }
  pose proof (b64_round_integer (90 * t) St) as Step.
  unfold float_of_int. rewrite to_float_finite by (rewrite Step; lra).
  assert (E : b64_round (a + b64_round (inject_Z (90 * t))) = b64_round (a + inject_Z (90 * t)))
    by (apply b64_round_comp; now rewrite Step).
  rewrite to_float_finite by (rewrite E, RB; lra).
  eexists. split; [reflexivity |]. now rewrite E, RB, residual_eq.
Qed.

End Binary64Link.

(** ** The rotation plan in binary64 arithmetic *)

Section Binary64Claims.

(** C2, as stated, fails for large angles: 10^18 is a binary64 number,
    its remainder by 90 is 10, so no extra turn is due and the quarter
    turns should be minus the truncated quotient, -11111111111111111;
    the rounded quotient truncates to one more, and the sum with the
    rounded product leaves a residual of -128 degrees. *)
Lemma rotation_plan_binary64_at_1e18 :
  binary64 1000000000000000000 /\
  float_mod (Qabs 1000000000000000000) 90 = 10%Q /\
  - int_of_float (1000000000000000000 / 90) = -11111111111111111 /\
  rotation_plan_binary64 1000000000000000000 =
    Returns (-11111111111111112, Finite (-128)) /\
  (45 < Qabs (-128))%Q.
Proof. repeat split; vm_compute; reflexivity. Qed.

(** C2, amended: for a binary64 angle of at most 2^52 degrees in
    magnitude the float arithmetic of lines 41-44 returns; the quarter
    turns are [-truncate(a / 90)] of the exact quotient, with one more
    turn in the direction of [sign] exactly when [abs(a) mod 90] exceeds
    45 (the comparison is strict, so a remainder of 45 adds none), and
    the angle left for the warp is [a + 90 * turns] exactly and at most
    45 degrees in magnitude. *)
Theorem rotation_plan_binary64_rounds_to_nearest (a : Q) :
  binary64 a -> (Qabs a <= 2 ^ 52)%Q ->
  let sign := if Qlt_bool a 0 then -1 else 1 in
  let truncated := - int_of_float (a / 90) in
  let remainder := float_mod (Qabs a) 90 in
  exists turns residual,
    rotation_plan_binary64 a = Returns (turns, Finite residual) /\
    ((a < 0)%Q /\ sign = -1 \/ (0 <= a)%Q /\ sign = 1) /\
    ((45 < remainder)%Q /\ turns = truncated - sign \/
     (remainder <= 45)%Q /\ turns = truncated) /\
    (residual == a + inject_Z (90 * turns))%Q /\
    (Qabs residual <= 45)%Q.
Proof.
  intros [Fix _] Hi. cbv zeta.
  destruct (binary64_plan_exact a Fix Hi) as (residual & E & R).
  destruct (exact_plan_rounds_to_nearest a) as (S & T & Eq & B).
  exists (fst (rotation_plan a)), residual.
  split; [exact E | split; [exact S | split; [exact T | split]]].
  - now rewrite R, Eq.
  - now rewrite R.
Qed.

Lemma rotation_plan_binary64_rounds_to_nearest_witness :
  exists turns residual,
    rotation_plan_binary64 165 = Returns (turns, Finite residual) /\
    ((165 < 0)%Q /\ (if Qlt_bool 165 0 then -1 else 1) = -1 \/
     (0 <= 165)%Q /\ (if Qlt_bool 165 0 then -1 else 1) = 1) /\
    ((45 < float_mod (Qabs 165) 90)%Q /\
     turns = - int_of_float (165 / 90) - (if Qlt_bool 165 0 then -1 else 1) \/
     (float_mod (Qabs 165) 90 <= 45)%Q /\ turns = - int_of_float (165 / 90)) /\
    (residual == 165 + inject_Z (90 * turns))%Q /\
    (Qabs residual <= 45)%Q.
Proof.
  apply (rotation_plan_binary64_rounds_to_nearest 165).
  - split; vm_compute; reflexivity.
  - vm_compute. discriminate.
Defined.

Example rotation_plan_binary64_165 :
  rotation_plan_binary64 165 = Returns (-2, Finite (-15)).
Proof. vm_compute. reflexivity. Qed.

(** X3: planning is idempotent for a binary64 angle of at most 2^52
    degrees in magnitude: the residual angle of its plan asks for no
    further quarter turn and is its own residual. *)
Theorem rotation_plan_settles (a : Q) :
  binary64 a -> (Qabs a <= 2 ^ 52)%Q ->
  exists turns residual residual',
    rotation_plan_binary64 a = Returns (turns, Finite residual) /\
    rotation_plan_binary64 residual = Returns (0, Finite residual') /\
    (residual' == residual)%Q.
Proof.
  intros [Fix _] Hi.
  destruct (binary64_plan_exact a Fix Hi) as (residual & E & R).
  pose proof (residual_bound a) as B. rewrite <- R in B.
  assert (Fix' : (b64_round residual == residual)%Q).
  { rewrite (b64_round_comp _ _ R), R. now apply residual_binary64. }
  assert (Hi' : (Qabs residual <= 2 ^ 52)%Q).
  { assert ((64 <= 2 ^ 52)%Q) by (rewrite <- pow2_6; now apply pow2_le). lra. }
  destruct (binary64_plan_exact residual Fix' Hi') as (residual' & E' & R').
  destruct (small_angle_plan residual B) as [T S].
  exists (fst (rotation_plan a)), residual, residual'.
  split; [exact E | split].
  - now rewrite E', T.
  - now rewrite R', S.
Qed.

Lemma rotation_plan_settles_witness :
  exists turns residual residual',
    rotation_plan_binary64 165 = Returns (turns, Finite residual) /\
    rotation_plan_binary64 residual = Returns (0, Finite residual') /\
    (residual' == residual)%Q.
Proof.
  apply (rotation_plan_settles 165).
  - split; vm_compute; reflexivity.
  - vm_compute. discriminate.
Defined.

(** Beyond that range it need not be: the residual the code computes at
    10^18 is planned with one turn more. *)
Example rotation_plan_binary64_unsettled :
  rotation_plan_binary64 1000000000000000000 =
    Returns (-11111111111111112, Finite (-128)) /\
  rotation_plan_binary64 (-128) = Returns (1, Finite (-38)).
Proof. split; vm_compute; reflexivity. Qed.

End Binary64Claims.

(** ** Right angles are corrected without interpolation *)

Section LosslessTurns.

Lemma pixels_flip0 m : Forall (Forall pixel_ok) m -> Forall (Forall pixel_ok) (flip0 m).
Proof.
  intros H. unfold flip0. rewrite List.Forall_forall in *.
  intros row Hin. apply H. now apply in_rev.
Qed.

Lemma pixels_flip1 m : Forall (Forall pixel_ok) m -> Forall (Forall pixel_ok) (flip1 m).
Proof.
  intros H. unfold flip1. rewrite List.Forall_forall in *.
  intros row Hin. apply in_map_iff in Hin as (row' & <- & Hin').
  specialize (H row' Hin'). rewrite List.Forall_forall in *.
  intros px Hpx. apply H. now apply in_rev.
Qed.

Lemma black_ok : pixel_ok black.
Proof. repeat split; cbn; lia. Qed.

Lemma pixels_transpose m :
  Forall (Forall pixel_ok) m -> Forall (Forall pixel_ok) (transpose m).
Proof.
  intros H. unfold transpose. rewrite List.Forall_forall in *.
  intros col Hin. apply in_map_iff in Hin as (j & <- & _).
  rewrite List.Forall_forall. intros px Hpx.
  apply in_map_iff in Hpx as (row & <- & Hrow).
  specialize (H row Hrow). rewrite List.Forall_forall in H.
  destruct (nth_in_or_default j row black) as [Hn | ->]; [now apply H | apply black_ok].
Qed.

Lemma pixels_np_rot90 m k :
  Forall (Forall pixel_ok) m -> Forall (Forall pixel_ok) (np_rot90 m k).
Proof.
  intros H. unfold np_rot90.
  destruct (k mod 4) as [| [[| |] | [| |] |] |];
    auto using pixels_flip0, pixels_flip1, pixels_transpose.
Qed.

(** X5: a calibration of exactly [k] right angles on a non-empty 8-bit
    frame returns the frame turned by [-k] quarter turns, pixel for
    pixel: the warp that follows is the identity. *)
Theorem rotate_right_angles_lossless
    (cosd sind : Q -> Q) (k : Z) (m : image) (h w : nat) :
  (cosd 0 == 1)%Q -> (sind 0 == 0)%Q ->
  frame_ok h w m -> (0 < h)%nat -> (0 < w)%nat ->
  rotate_by cosd sind (inject_Z (90 * k)) m = Returns (np_rot90 m (- k)).
Proof.
  intros Hc Hs [G Hpix] Hh Hw. unfold rotate_by.
  rewrite right_angle_plan. cbv beta iota zeta.
  pose proof (np_rot90_grid h w m (- k) G Hh Hw) as R.
  pose proof (pixels_np_rot90 m (- k) Hpix) as P.
  destruct (Z.even (- k)).
  - rewrite (grid_shape h w _ R Hh).
    apply (warpAffine_identity _ _ h w); try assumption; [| now split].
    now apply getRotationMatrix2D_zero.
  - rewrite (grid_shape w h _ R Hw).
    apply (warpAffine_identity _ _ w h); try assumption; [| now split].
    now apply getRotationMatrix2D_zero.
Qed.

Lemma rotate_right_angles_lossless_witness :
  rotate_by cos_poly sin_poly (inject_Z (90 * 1)) wide_frame =
    Returns (np_rot90 wide_frame (- (1))).
Proof.
  apply (rotate_right_angles_lossless cos_poly sin_poly 1 wide_frame 1 2).
  - reflexivity.
  - reflexivity.
  - split; [split; [reflexivity | repeat constructor] |].
    repeat constructor; cbn; lia.
  - lia.
  - lia.
Defined.

End LosslessTurns.

(** ** The corrected frame is a frame again *)

Section FrameInvariant.

Lemma saturate_u8_ok v : channel_ok (saturate_u8 v).
Proof. unfold channel_ok, saturate_u8. lia. Qed.

Lemma sample_ok m X Y : pixel_ok (sample m X Y).
Proof. unfold sample, pixel_ok, blend. cbn. repeat split; apply saturate_u8_ok. Qed.

Lemma warpAffine_frame src M width height :
  height_of src <> 0%nat -> width_of src <> 0%nat ->
  exists out, warpAffine src M (width, height) = Returns out /\ frame_ok height width out.
Proof.
  intros Hh Hw.
  destruct (warpAffine_grid src M width height Hh Hw) as (out & E & G).
  exists out. split; [exact E |]. split; [exact G |].
  unfold warpAffine in E. apply Nat.eqb_neq in Hh, Hw. rewrite Hh, Hw in E.
  cbn [orb] in E. injection E as <-.
  rewrite List.Forall_forall. intros row Hrow.
  apply in_map_iff in Hrow as (y & <- & _).
  rewrite List.Forall_forall. intros px Hpx.
  apply in_map_iff in Hpx as (x & <- & _). apply sample_ok.
Qed.

(** X6: whatever the calibration angle, [rotate] turns a non-empty
    rectangular frame into a rectangular frame of 8-bit pixels with the
    same number of pixels: nothing is cut off or added, and every channel
    stays within 0..255 even when the input channels did not. *)
Theorem rotate_keeps_frame
    (cosd sind : Q -> Q) (a : Q) (m : image) (h w : nat) :
  grid h w m -> (0 < h)%nat -> (0 < w)%nat ->
  exists out h' w',
    rotate_by cosd sind a m = Returns out /\
    frame_ok h' w' out /\ (h' * w' = h * w)%nat.
Proof.
  intros G Hh Hw. unfold rotate_by.
  destruct (rotation_plan a) as [turns residual].
  pose proof (np_rot90_grid h w m turns G Hh Hw) as R.
  destruct (Z.even turns).
  - rewrite (grid_shape h w _ R Hh).
    destruct (warpAffine_frame (np_rot90 m turns)
                (getRotationMatrix2D cosd sind (Z.of_nat w ÷ 2) (Z.of_nat h ÷ 2) residual 1)
                w h) as (out & E & F).
    + unfold height_of. destruct R as [-> _]. lia.
    + rewrite (grid_width h w _ R Hh). lia.
    + now exists out, h, w.
  - rewrite (grid_shape w h _ R Hw).
    destruct (warpAffine_frame (np_rot90 m turns)
                (getRotationMatrix2D cosd sind (Z.of_nat h ÷ 2) (Z.of_nat w ÷ 2) residual 1)
                h w) as (out & E & F).
    + unfold height_of. destruct R as [-> _]. lia.
    + rewrite (grid_width w h _ R Hw). lia.
    + exists out, w, h. repeat split; try assumption; try apply F. lia.
Qed.

Lemma rotate_keeps_frame_witness :
  exists out h' w',
    rotate_by cos_poly sin_poly 90 wide_frame = Returns out /\
    frame_ok h' w' out /\ (h' * w' = 1 * 2)%nat.
Proof.
  apply (rotate_keeps_frame cos_poly sin_poly 90 wide_frame 1 2).
  - split; [reflexivity | repeat constructor].
  - lia.
  - lia.
Defined.

End FrameInvariant.


(** ** When the orientation correction fails *)

Section RotateOutcome.

(** X7: on a non-empty frame [rotate] returns exactly when the calibration
    variable is set and [float()] reads a finite number from it; in every
    case it causes no event. *)
Theorem rotate_returns_iff_calibrated (w : world) (frame : image) (h wd : nat) :
  grid h wd frame -> (0 < h)%nat -> (0 < wd)%nat ->
  ((exists corrected, fst (run (rotate frame) w) = Returns corrected) <->
   (exists text angle,
      environ w !! "CAMERA_CALIBRATION_total_rotation_angle" = Some text /\
      float_of_str w text = Some (Finite angle))) /\
  snd (run (rotate frame) w) = [].
Proof.
  intros G Hh Hw. split.
  - rewrite run_rotate.
    destruct (environ w !! "CAMERA_CALIBRATION_total_rotation_angle") as [text |].
    + destruct (float_of_str w text) as [[angle | negative |] |] eqn:F.
      * split; [intros _; now exists text, angle |]. intros _.
        destruct (rotate_by_grid (cos_deg w) (sin_deg w) angle frame h wd G Hh Hw)
          as (out & E & _).
        now exists out.
      * split; [intros (c & Hc); discriminate Hc |].
        intros (t & a & Ht & Ha). injection Ht as <-. rewrite F in Ha. discriminate Ha.
      * split; [intros (c & Hc); discriminate Hc |].
        intros (t & a & Ht & Ha). injection Ht as <-. rewrite F in Ha. discriminate Ha.
      * split; [intros (c & Hc); discriminate Hc |].
        intros (t & a & Ht & Ha). injection Ht as <-. rewrite F in Ha. discriminate Ha.
    + split; [intros (c & Hc); discriminate Hc |].
      intros (t & a & Ht & _). discriminate Ht.
  - unfold run. now rewrite (read_only_rotate frame w []).
Qed.

Lemma rotate_returns_iff_calibrated_witness :
  ((exists corrected, fst (run (rotate wide_frame) calibrated_world) = Returns corrected) <->
   (exists text angle,
      environ calibrated_world !! "CAMERA_CALIBRATION_total_rotation_angle" = Some text /\
      float_of_str calibrated_world text = Some (Finite angle))) /\
  snd (run (rotate wide_frame) calibrated_world) = [].
Proof.
  apply (rotate_returns_iff_calibrated calibrated_world wide_frame 1 2).
  - split; [reflexivity | repeat constructor].
  - lia.
  - lia.
Defined.

End RotateOutcome.

(** ** File names and paths *)

Section Names.

Lemma string_app_length_nil (s t : string) : s +:+ t = t -> s = "".
Proof.
  intros E. apply (f_equal String.length) in E.
  rewrite string_length_append in E. destruct s; [reflexivity | cbn in E; lia].
Qed.

(** Appending the same suffix to two strings keeps them apart. *)
Lemma string_app_inv_tail (s1 s2 t : string) : s1 +:+ t = s2 +:+ t -> s1 = s2.
Proof.
  revert s2. induction s1 as [| c s1 IH]; intros s2 E.
  - symmetry. apply (string_app_length_nil s2 t). now symmetry.
  - destruct s2 as [| c2 s2].
    + apply (string_app_length_nil (String c s1) t) in E. discriminate E.
    + cbn in E. injection E as -> E. f_equal. now apply IH.
Qed.

(** X8: two calls of [image_filename] give the same name exactly when
    they fall into the same whole second of the clock, and the call
    causes no event. *)
Theorem image_filename_per_second (w1 w2 : world) :
  (fst (run image_filename w1) = fst (run image_filename w2) <->
   int_of_float (time w1) = int_of_float (time w2)) /\
  run image_filename w1 =
    (Returns (pretty (int_of_float (time w1)) +:+ ".jpg"), []).
Proof.
  split; [| reflexivity].
  unfold run. rewrite !run_image_filename. cbn [fst]. unfold timestamp_name.
  split.
  - intros E. injection E as E. apply string_app_inv_tail in E.
    now apply (inj pretty) in E.
  - now intros ->.
Qed.

(** X9: [upload_path] never raises and causes no event: it joins the
    name to [IMAGES_DIR], or to [/tmp/images] when that variable is
    missing, and different names give different paths. *)
Theorem upload_path_total_injective (w : world) (tr : trace) (name1 name2 : string) :
  upload_path name1 w tr =
    (Returns (default "/tmp/images" (environ w !! "IMAGES_DIR") +:+ "/" +:+ name1), tr) /\
  (fst (run (upload_path name1) w) = fst (run (upload_path name2) w) -> name1 = name2).
Proof.
  split; [apply run_upload_path |].
  unfold run. rewrite !run_upload_path. cbn [fst]. intros E. injection E as E.
  apply (inj (String.append _)) in E. now apply (inj (String.append _)) in E.
Qed.

End Names.

(** ** Choosing the capture path *)

Section Dispatch.

Lemma prefix_spec (s t : string) :
  String.prefix s t = true <-> exists post, t = s +:+ post.
Proof.
  revert t. induction s as [| c s IH]; intros t.
  - split; [intros _; now exists t | intros _; now destruct t].
  - destruct t as [| d t]; cbn.
    + split; [discriminate | intros (post & E); discriminate E].
    + destruct (ascii_dec c d) as [<- | N].
      * rewrite IH. split; intros (post & E); exists post; [now rewrite E |].
        now injection E.
      * split; [discriminate |]. intros (post & E). injection E as E _.
        now destruct N.
Qed.

(** [contains] is the substring test. *)
Lemma contains_spec (needle haystack : string) :
  contains needle haystack = true <->
  exists pre post, haystack = pre +:+ needle +:+ post.
Proof.
  induction haystack as [| c rest IH]; cbn [contains].
  - rewrite orb_false_r, prefix_spec. split.
    + intros (post & E). now exists "", post.
    + intros (pre & post & E). destruct pre; [now exists post | discriminate E].
  - rewrite orb_true_iff, prefix_spec, IH. split.
    + intros [(post & E) | (pre & post & E)].
      * now exists "", post.
      * exists (String c pre), post. cbn. now rewrite E.
    + intros (pre & post & E). destruct pre as [| d pre].
      * left. now exists post.
      * right. injection E as _ E. now exists pre, post.
Qed.

(** X10: the board-camera path runs exactly when the [camera] variable is
    set and has [RPI] somewhere in its value; in every other case,
    the variable missing included, the USB path runs. *)
Theorem main_dispatch (w : world) (tr : trace) :
  ((exists value pre post,
      environ w !! "camera" = Some value /\ value = pre +:+ "RPI" +:+ post) ->
   main w tr = rpi_camera_photo w tr) /\
  (~ (exists value pre post,
        environ w !! "camera" = Some value /\ value = pre +:+ "RPI" +:+ post) ->
   main w tr = usb_camera_photo w tr).
Proof.
  unfold main, try_except, try_except_else. rewrite bind_run.
  unfold environ_get.
  destruct (environ w !! "camera") as [value |]; cbn [mret M_ret].
  - destruct (contains "RPI" value) eqn:C; split; try reflexivity.
    + intros N. exfalso. apply N. apply contains_spec in C as (pre & post & E).
      now exists value, pre, post.
    + intros (v & pre & post & Hv & E). injection Hv as <-.
      assert (T : contains "RPI" value = true)
        by (apply contains_spec; now exists pre, post).
      rewrite C in T. discriminate T.
  - split; [| reflexivity]. intros (v & _ & _ & Hv & _). discriminate Hv.
Qed.

Lemma main_dispatch_witness :
  main (with_environ (<["camera" := "RPI"]> ∅) configured_world) [] =
    rpi_camera_photo (with_environ (<["camera" := "RPI"]> ∅) configured_world) [] /\
  main console_world [] = usb_camera_photo console_world [].
Proof.
  split.
  - apply (proj1 (main_dispatch (with_environ (<["camera" := "RPI"]> ∅) configured_world) [])).
    exists "RPI", "", "". split; reflexivity.
  - apply (proj2 (main_dispatch console_world [])).
    intros (v & _ & _ & Hv & _). discriminate Hv.
Defined.

End Dispatch.

(** ** Lookups that fail in the reporter *)

Section ReporterLookups.

Lemma first_digit_ascii w first rest :
  is_ascii first = true -> first_digit w (String first rest) = int_of_char first.
Proof. intros A. unfold first_digit. now rewrite A. Qed.

(** X11: [farmware_api_url] looks at the first character of the version
    string, "0.0.0" when [FARMBOT_OS_VERSION] is missing, and at
    [FARMWARE_URL], in this order, and at nothing else.  An empty
    version string raises [IndexError]; an ASCII first character that is
    no decimal digit raises [ValueError]; for a digit [d] the result is
    the base URL, followed by [api/v1/] exactly when [d] is 6 or more;
    and two environments that agree on [FARMWARE_URL] and on an ASCII
    first character of the version give the same result, whatever
    follows that character. *)
Theorem farmware_api_url_outcomes (w : world) :
  let version w := default "0.0.0" (environ w !! "FARMBOT_OS_VERSION") in
  (version w = "" -> run farmware_api_url w = (Raises IndexError, [])) /\
  (forall first rest,
      version w = String first rest -> is_ascii first = true ->
      match int_of_char first with
      | None => run farmware_api_url w = (Raises ValueError, [])
      | Some digit =>
          0 <= digit <= 9 /\
          match environ w !! "FARMWARE_URL" with
          | None => run farmware_api_url w = (Raises (KeyError "FARMWARE_URL"), [])
          | Some base =>
              (6 <= digit /\
               run farmware_api_url w = (Returns (base +:+ "api/v1/"), [])) \/
              (digit <= 5 /\ run farmware_api_url w = (Returns base, []))
          end
      end) /\
  (forall w' first rest rest',
      version w = String first rest -> version w' = String first rest' ->
      is_ascii first = true ->
      environ w' !! "FARMWARE_URL" = environ w !! "FARMWARE_URL" ->
      run farmware_api_url w' = run farmware_api_url w).
Proof.
  cbv zeta. split; [| split].
  - intros E. now rewrite run_farmware_api_url, E.
  - intros first rest E A. rewrite run_farmware_api_url, E, (first_digit_ascii w _ _ A).
    destruct (int_of_char first) as [digit |] eqn:D; [| reflexivity].
    split; [exact (proj2 (int_of_char_ascii _ _ D)) |].
    destruct (environ w !! "FARMWARE_URL") as [base |]; [| reflexivity].
    destruct (5 <? digit) eqn:C; [left | right]; split; try reflexivity; lia.
  - intros w' first rest rest' E E' A U.
    rewrite !run_farmware_api_url, E, E', U.
    now rewrite !first_digit_ascii by exact A.
Qed.

Lemma farmware_api_url_outcomes_witness :
  run farmware_api_url version_10_world =
    run farmware_api_url
      (with_environ (<["FARMBOT_OS_VERSION" := "1"]> (environ configured_world))
         configured_world).
Proof.
  apply (proj2 (proj2 (farmware_api_url_outcomes
                         (with_environ (<["FARMBOT_OS_VERSION" := "1"]>
                                          (environ configured_world))
                            configured_world)))
           version_10_world "1"%char "" "0.0.0");
    reflexivity.
Defined.

(** X12: [log] sends nothing until both the token and the endpoint URL
    are at hand: with [FARMWARE_URL] set, a missing [FARMWARE_TOKEN]
    raises [KeyError], and an exception from [farmware_api_url] is
    passed on, each time with no request posted and nothing printed. *)
Theorem log_lookups_fail_before_posting
    (message : pyobj) (message_type : string) (w : world) :
  match environ w !! "FARMWARE_URL" with
  | None => True
  | Some _ =>
      match environ w !! "FARMWARE_TOKEN" with
      | None =>
          run (log message message_type) w =
            (Raises (KeyError "FARMWARE_TOKEN"), [LogCall message message_type])
      | Some _ =>
          match fst (run farmware_api_url w) with
          | Raises e =>
              run (log message message_type) w =
                (Raises e, [LogCall message message_type])
          | Returns url =>
              exists token,
                snd (run (log message message_type) w) =
                  [LogCall message message_type;
                   HttpPost (url +:+ "celery_script")
                     (log_payload message message_type) (log_headers token)]
          end
      end
  end.
Proof.
  rewrite run_log.
  destruct (environ w !! "FARMWARE_URL"); [| exact I].
  destruct (environ w !! "FARMWARE_TOKEN") as [token |]; [| reflexivity].
  destruct (fst (run farmware_api_url w)); [| reflexivity].
  now exists token.
Qed.

End ReporterLookups.
(** ** Computations that only append to the trace *)

Section Appends.

Lemma appends_weaken {A} (Q Q' : event -> Prop) (m : M A) :
  (forall e, Q e -> Q' e) -> appends Q m -> appends Q' m.
Proof.
  intros HQ Hm w. destruct (Hm w) as [U F]. split; [exact U |].
  eapply List.Forall_impl; [exact HQ | exact F].
Qed.

Lemma appends_read_only {A} Q (m : M A) : read_only m -> appends Q m.
Proof.
  intros H w. split.
  - intros tr. rewrite (H w tr). unfold run. rewrite (H w []). cbn.
    now rewrite app_nil_r.
  - unfold run. rewrite (H w []). constructor.
Qed.

Lemma appends_ret {A} Q (a : A) : appends Q (mret a : M A).
Proof. apply appends_read_only, read_only_ret. Qed.

Lemma appends_ask {A} Q (f : world -> A) : appends Q (ask f).
Proof. apply appends_read_only, read_only_ask. Qed.

Lemma appends_emit (Q : event -> Prop) e : Q e -> appends Q (emit e).
Proof. intros H w. split; [reflexivity | constructor; [exact H | constructor]]. Qed.

Lemma appends_bind {A B} Q (m : M A) (f : A -> M B) :
  appends Q m -> (forall a, appends Q (f a)) -> appends Q (m ≫= f).
Proof.
  intros Hm Hf w. destruct (Hm w) as [Um Fm].
  assert (E : forall tr, (m ≫= f) w tr =
            match fst (run m w) with
            | Returns a =>
                (fst (run (f a) w), tr ++ snd (run m w) ++ snd (run (f a) w))
            | Raises e => (Raises e, tr ++ snd (run m w))
            end).
  { intros tr. unfold mbind, M_bind. rewrite (Um tr).
    destruct (fst (run m w)) as [a | e]; [| reflexivity].
    destruct (Hf a w) as [Uf _]. rewrite (Uf (tr ++ _)). now rewrite app_assoc. }
  split.
  - intros tr. unfold run at 1 2. rewrite (E tr), (E []).
    destruct (fst (run m w)) as [a | e]; reflexivity.
  - unfold run at 1. rewrite (E []).
    destruct (fst (run m w)) as [a | e]; cbn [snd app]; [| exact Fm].
    apply Forall_app. split; [exact Fm |]. now destruct (Hf a w).
Qed.

Lemma appends_try_except_else {A B} Q (body : M A) handler (orelse : A -> M B) :
  appends Q body ->
  (forall e h, handler e = Some h -> appends Q h) ->
  (forall a, appends Q (orelse a)) ->
  appends Q (try_except_else body handler orelse).
Proof.
  intros Hb Hh Ho w. destruct (Hb w) as [Ub Fb].
  assert (E : forall tr, try_except_else body handler orelse w tr =
            match fst (run body w) with
            | Returns a =>
                (fst (run (orelse a) w),
                 tr ++ snd (run body w) ++ snd (run (orelse a) w))
            | Raises e =>
                match handler e with
                | Some h => (fst (run h w), tr ++ snd (run body w) ++ snd (run h w))
                | None => (Raises e, tr ++ snd (run body w))
                end
            end).
  { intros tr. unfold try_except_else. rewrite (Ub tr).
    destruct (fst (run body w)) as [a | e].
    - destruct (Ho a w) as [U _]. rewrite (U (tr ++ _)). now rewrite app_assoc.
    - destruct (handler e) as [h |] eqn:Eh; [| reflexivity].
      destruct (Hh e h Eh w) as [U _]. rewrite (U (tr ++ _)). now rewrite app_assoc. }
  split.
  - intros tr. unfold run at 1 2. rewrite (E tr), (E []).
    destruct (fst (run body w)) as [a | e]; [reflexivity |].
    destruct (handler e); reflexivity.
  - unfold run at 1. rewrite (E []).
    destruct (fst (run body w)) as [a | e]; cbn [snd app].
    + apply Forall_app. split; [exact Fb |]. now destruct (Ho a w).
    + destruct (handler e) as [h |] eqn:Eh; cbn [snd]; [| exact Fb].
      apply Forall_app. split; [exact Fb |]. now destruct (Hh e h Eh w).
Qed.

Lemma appends_for_range Q n (body : M unit) :
  appends Q body -> appends Q (for_range n body).
Proof.
  intros H. induction n as [| n IH]; cbn [for_range].
  - apply appends_ret.
  - apply appends_bind; [exact H | intros _; exact IH].
Qed.

(** One call of [log] appends its own report and nothing else. *)
Lemma appends_log message message_type :
  appends (report_of message message_type) (log message message_type).
Proof.
  intros w. split.
  - intros tr. rewrite run_log, log_unfold. cbv zeta.
    destruct (environ w !! "FARMWARE_URL");
      [destruct (environ w !! "FARMWARE_TOKEN");
       [destruct (fst (run farmware_api_url w)) |] |];
      cbn [fst snd]; now rewrite <- ?app_assoc.
  - destruct (log_shape message message_type w []) as (o & rest & E & T).
    unfold run. rewrite E. cbn [snd app]. constructor; [now left |].
    destruct T as [-> | [-> | (url & token & ->)]].
    + constructor.
    + constructor; [| constructor]. right. now left.
    + constructor; [| constructor]. right. right. now exists url, token.
Qed.

Lemma appends_apply_capture_parameters p :
  appends settings_event (apply_capture_parameters p).
Proof.
  unfold apply_capture_parameters, camera_set.
  repeat lazymatch goal with
    | |- appends _ (log _ _) =>
        eapply appends_weaken; [| apply appends_log];
        intros e He; right; eexists; exact He
    | |- appends _ (if ?b then _ else _) => destruct b
    | |- appends _ (emit _) => apply appends_emit; left; eexists _, _; reflexivity
    | |- appends _ (mret _) => apply appends_ret
    | |- appends _ (_ ≫= _) => apply appends_bind; [| intros _]
    end.
Qed.

Lemma appends_library_call {A} (Q : event -> Prop) (result : list string * outcome A) :
  (forall line, Q (Stdout line)) -> appends Q (library_call result).
Proof.
  intros H w. split; [reflexivity |]. cbn.
  induction (fst result) as [| line lines IH]; constructor; [apply H | exact IH].
Qed.

Lemma appends_read_capture_parameters :
  appends (fun e => exists line, e = Stdout line) read_capture_parameters.
Proof.
  unfold read_capture_parameters, get_config_value_float, get_config_value_int.
  repeat first
    [ apply appends_ret | apply appends_ask
    | apply appends_library_call; intros line; now exists line
    | apply appends_bind; [| intros ?] ].
Qed.

Lemma appends_configure : appends configure_event configure.
Proof.
  unfold configure. apply appends_bind.
  - eapply appends_weaken; [| apply appends_read_capture_parameters].
    intros e He. now left.
  - intros parameters. eapply appends_weaken; [| apply appends_apply_capture_parameters].
    intros e He. now right.
Qed.

(** Lines 86-123 after the settings have been read. *)
Lemma run_configure w :
  run configure w =
    match fst (run read_capture_parameters w) with
    | Raises e => (Raises e, snd (run read_capture_parameters w))
    | Returns parameters =>
        (fst (run (apply_capture_parameters parameters) w),
         snd (run read_capture_parameters w)
           ++ snd (run (apply_capture_parameters parameters) w))
    end.
Proof.
  unfold run at 1. unfold configure. rewrite bind_run.
  rewrite (proj1 (appends_read_capture_parameters w) []). cbn [app].
  destruct (fst (run read_capture_parameters w)) as [parameters | e]; [| reflexivity].
  apply (proj1 (appends_apply_capture_parameters parameters w)).
Qed.

End Appends.

(** ** The USB path, stage by stage *)

Section UsbStages.

Lemma run_for_range_grab n w tr :
  for_range n (emit CameraGrab) w tr = (Returns tt, tr ++ repeat CameraGrab n).
Proof.
  revert tr. induction n as [| n IH]; intros tr; cbn [for_range repeat].
  - unfold mret, M_ret. now rewrite app_nil_r.
  - unfold mbind, M_bind, emit. rewrite IH. now rewrite <- app_assoc.
Qed.

(** The save stage started from any trace. *)
Lemma save_frame_uniform frame w tr :
  save_frame frame w tr =
    (fst (run (save_frame frame) w), tr ++ snd (run (save_frame frame) w)).
Proof.
  destruct frame as [image |].
  - unfold run. rewrite (run_save_frame w image tr), (run_save_frame w image []).
    now destruct (fst (run (rotate image) w)).
  - exact (proj1 (appends_log "Problem getting image." "error" w) tr).
Qed.

(** What follows the probe once the device index is known. *)
Lemma run_after_probe port w tr :
  (emit (VideoCapture port);;
   emit Sleep;;
   parameters ← read_capture_parameters;
   apply_capture_parameters parameters;;
   for_range 20 (emit CameraGrab);;
   emit CameraRead;;
   frame ← ask camera_read;
   emit CameraRelease;;
   save_frame frame) w tr =
    let opened := tr ++ [VideoCapture port; Sleep] in
    let settings := run configure w in
    let saved := run (save_frame (camera_read w)) w in
    match fst settings with
    | Raises e => (Raises e, opened ++ snd settings)
    | Returns _ =>
        (fst saved,
         opened ++ snd settings ++ repeat CameraGrab 20
           ++ [CameraRead; CameraRelease] ++ snd saved)
    end.
Proof.
  cbv zeta. rewrite run_configure.
  rewrite bind_run. unfold emit at 1.
  rewrite bind_run. unfold emit at 1.
  rewrite bind_run.
  rewrite (proj1 (appends_read_capture_parameters w)).
  rewrite <- (app_assoc tr). cbn [app].
  destruct (fst (run read_capture_parameters w)) as [parameters | e]; [| reflexivity].
  rewrite bind_run.
  rewrite (proj1 (appends_apply_capture_parameters parameters w)). cbn [fst snd].
  destruct (fst (run (apply_capture_parameters parameters) w))
    as [[] | e]; [| now rewrite <- !app_assoc].
  rewrite bind_run, run_for_range_grab.
  rewrite bind_run. unfold emit at 1.
  rewrite bind_run. unfold ask at 1.
  rewrite bind_run. unfold emit at 1.
  rewrite save_frame_uniform.
  f_equal. rewrite <- !app_assoc. reflexivity.
Qed.

Lemma run_usb_camera_photo w : run usb_camera_photo w = usb_stages w.
Proof.
  unfold run, usb_camera_photo, usb_stages, probe_run, camera_port. cbv zeta.
  rewrite bind_run. unfold ask at 1.
  change ("/dev/video" +:+ pretty 0) with "/dev/video0".
  change ("/dev/video" +:+ pretty (0 + 1)) with "/dev/video1".
  change ("No camera detected at video" +:+ pretty 0 +:+ ".")
    with "No camera detected at video0.".
  change ("No camera detected at video" +:+ pretty (0 + 1) +:+ ".")
    with "No camera detected at video1.".
  change ("Trying video" +:+ pretty (0 + 1) +:+ "...") with "Trying video1...".
  destruct (path_exists w "/dev/video0"); cbn [negb].
  - rewrite bind_run. unfold mret at 1, M_ret at 1.
    rewrite run_after_probe. reflexivity.
  - rewrite bind_run.
    rewrite bind_run. unfold emit at 1.
    rewrite bind_run. unfold emit at 1.
    rewrite bind_run. unfold ask at 1.
    destruct (path_exists w "/dev/video1"); cbn [negb].
    + rewrite bind_run. unfold mret at 1, M_ret at 1.
      unfold mret at 1, M_ret at 1.
      rewrite run_after_probe. reflexivity.
    + rewrite bind_run. rewrite bind_run. unfold emit at 1.
      rewrite (proj1 (appends_log "USB Camera not detected." "error" w)).
      cbn [fst snd app].
      destruct (fst (run (log "USB Camera not detected." "error") w)) as [[] | e];
        [| reflexivity].
      unfold mret at 1, M_ret at 1.
      rewrite run_after_probe. cbv zeta.
      destruct (fst (run configure w));
        reflexivity.
Qed.

End UsbStages.

(** ** What a run of the USB path contains *)

Section UsbRuns.

Lemma report_of_reporting message message_type e :
  report_of message message_type e -> reporting_event e.
Proof.
  intros [-> | [-> | (url & token & ->)]].
  - right. left. now eexists _, _.
  - left. now eexists.
  - right. right. now eexists _, _, _.
Qed.

Lemma run_log_shape message message_type w :
  exists rest,
    snd (run (log message message_type) w) = LogCall message message_type :: rest /\
    log_tail message message_type rest.
Proof.
  destruct (log_shape message message_type w []) as (o & rest & E & T).
  exists rest. unfold run. now rewrite E.
Qed.

Lemma log_events message message_type w e :
  In e (snd (run (log message message_type) w)) -> report_of message message_type e.
Proof.
  pose proof (proj2 (appends_log message message_type w)) as F.
  rewrite List.Forall_forall in F. apply F.
Qed.

(** The probe prints and reports, nothing else. *)
Lemma probe_events w e : In e (snd (probe_run w)) -> reporting_event e.
Proof.
  unfold probe_run.
  destruct (path_exists w "/dev/video0"); [intros [] |].
  destruct (path_exists w "/dev/video1"); cbn [snd].
  - intros [<- | [<- | []]]; left; now eexists.
  - rewrite in_app_iff. intros [[<- | [<- | [<- | []]]] | H];
      try (left; now eexists).
    eapply report_of_reporting, log_events, H.
Qed.

(** Reading the settings prints at most; the settings block sets the
    device and reports, nothing else. *)
Lemma configure_events w e :
  In e (snd (run configure w)) ->
  reporting_event e \/ exists prop v, e = CameraSet prop v.
Proof.
  pose proof (proj2 (appends_configure w)) as F.
  rewrite List.Forall_forall in F. intros H.
  destruct (F e H) as [(line & ->) | [S | (m & R)]];
    [left; left; now exists line | now right | left].
  eapply report_of_reporting, R.
Qed.

(** The save stage: the file and the line printed after it, or the report
    that no frame came. *)
Lemma run_save_stage frame w :
  match frame with
  | Some image =>
      exists path final,
        run (save_frame frame) w =
          (Returns tt, [ImWrite path final; Stdout ("Image saved: " +:+ path)]) /\
        (final = image \/ fst (run (rotate image) w) = Returns final)
  | None =>
      exists rest,
        snd (run (save_frame frame) w) =
          LogCall "Problem getting image." "error" :: rest /\
        log_tail "Problem getting image." "error" rest
  end.
Proof.
  destruct frame as [image |].
  - unfold run. rewrite (run_save_frame w image []).
    destruct (fst (run (rotate image) w)) as [corrected | e] eqn:R.
    + eexists _, corrected. split; [reflexivity | now right].
    + eexists _, image. split; [reflexivity | now left].
  - apply run_log_shape.
Qed.

Lemma save_events frame w e :
  In e (snd (run (save_frame frame) w)) ->
  reporting_event e \/ exists path final, e = ImWrite path final.
Proof.
  pose proof (run_save_stage frame w) as H. destruct frame as [image |].
  - destruct H as (path & final & -> & _). cbn [snd].
    intros [<- | [<- | []]]; [right; now eexists _, _ | left; left; now eexists].
  - intros Hin. left. eapply report_of_reporting, log_events, Hin.
Qed.

(** Where an event of a USB run comes from. *)
Lemma usb_event_origin w e :
  In e (snd (run usb_camera_photo w)) ->
  In e (snd (probe_run w)) \/
  e = VideoCapture (camera_port w) \/ e = Sleep \/
  In e (snd (run configure w)) \/
  capture_event e \/
  In e (snd (run (save_frame (camera_read w)) w)).
Proof.
  rewrite run_usb_camera_photo. unfold usb_stages. cbv zeta.
  destruct (fst (probe_run w)); cbn [snd]; [| now left].
  destruct (fst (run configure w));
    cbn [snd]; rewrite !in_app_iff; cbn [In].
  - intros [[H | [<- | [<- | []]]] | [H | [H | [[<- | [<- | []]] | H]]]];
      unfold capture_event; try tauto.
    apply repeat_spec in H. subst e. tauto.
  - intros [[H | [<- | [<- | []]]] | H]; tauto.
Qed.

Ltac not_reporting H :=
  destruct H as [(? & H) | [(? & ? & H) | (? & ? & ? & H)]]; discriminate H.

(** X13: the only device a USB run opens is [/dev/video0] when that
    node exists and index 1 otherwise, whether or not [/dev/video1]
    exists; it opens it when the probe is over, unless the "not
    detected" report raised. *)
Theorem usb_opens_probed_device (w : world) :
  (forall port, In (VideoCapture port) (snd (run usb_camera_photo w)) ->
     port = if path_exists w "/dev/video0" then 0 else 1) /\
  (path_exists w "/dev/video0" = true \/ path_exists w "/dev/video1" = true \/
   fst (run (log "USB Camera not detected." "error") w) = Returns tt ->
   In (VideoCapture (if path_exists w "/dev/video0" then 0 else 1))
     (snd (run usb_camera_photo w))).
Proof.
  split.
  - intros port H. apply usb_event_origin in H.
    destruct H as [H | [H | [H | [H | [H | H]]]]].
    + apply probe_events in H. not_reporting H.
    + now injection H as ->.
    + discriminate H.
    + apply configure_events in H as [H | (? & ? & H)];
        [not_reporting H | discriminate H].
    + destruct H as [H | [H | H]]; discriminate H.
    + apply save_events in H as [H | (? & ? & H)];
        [not_reporting H | discriminate H].
  - intros H. rewrite run_usb_camera_photo. unfold usb_stages. cbv zeta.
    assert (P : fst (probe_run w) = Returns tt).
    { unfold probe_run. destruct (path_exists w "/dev/video0"); [reflexivity |].
      destruct (path_exists w "/dev/video1"); [reflexivity |].
      destruct H as [H | [H | H]]; try discriminate H. exact H. }
    rewrite P. fold (camera_port w).
    destruct (fst (run configure w));
      cbn [snd]; rewrite !in_app_iff; cbn [In]; tauto.
Qed.

End UsbRuns.

Section UsbCounts.

Lemma count_none p tr : (forall e, In e tr -> p e = false) -> count p tr = 0%nat.
Proof.
  intros H. unfold count. induction tr as [| e tr IH]; [reflexivity |].
  cbn. rewrite (H e (or_introl eq_refl)). apply IH.
  intros e' He'. apply H. now right.
Qed.

Lemma count_repeat_grab p n : p CameraGrab = false -> count p (repeat CameraGrab n) = 0%nat.
Proof. intros H. apply count_none. intros e He. apply repeat_spec in He. now subst. Qed.

(** A report of one message is not a call of [log] with another message
    or another type. *)
Lemma is_log_call_other message message_type s t e :
  report_of message message_type e ->
  message_type <> t \/ (forall s', message = PyStr s' -> s' <> s) ->
  is_log_call s t e = false.
Proof.
  intros [-> | [-> | (url & token & ->)]] H; try reflexivity.
  cbn. destruct message as [s' | n]; [| reflexivity].
  apply andb_false_iff. destruct H as [H | H]; [right | left].
  - now apply String.eqb_neq.
  - apply String.eqb_neq. now apply H.
Qed.

Lemma count_log_run message message_type w :
  count (is_log_call message message_type)
    (snd (run (log (PyStr message) message_type) w)) = 1%nat.
Proof.
  destruct (run_log_shape message message_type w) as (rest & -> & T).
  change (LogCall message message_type :: rest)
    with ([LogCall (PyStr message) message_type] ++ rest).
  rewrite count_app, (count_log_tail _ _ _ _ _ T). unfold count. cbn.
  now rewrite !String.eqb_refl.
Qed.

Lemma count_configure s w :
  count (is_log_call s "error") (snd (run configure w)) = 0%nat.
Proof.
  apply count_none. intros e He.
  pose proof (proj2 (appends_configure w)) as F.
  rewrite List.Forall_forall in F.
  destruct (F e He) as [(line & ->) | [(prop & v & ->) | (m & R)]]; try reflexivity.
  eapply is_log_call_other; [exact R | left; discriminate].
Qed.

Lemma count_probe_not_detected w :
  count (is_log_call "USB Camera not detected." "error") (snd (probe_run w)) =
    if path_exists w "/dev/video0" || path_exists w "/dev/video1" then 0%nat else 1%nat.
Proof.
  unfold probe_run.
  destruct (path_exists w "/dev/video0"); [reflexivity |].
  destruct (path_exists w "/dev/video1"); [reflexivity |].
  cbn [snd orb]. rewrite count_app. apply count_log_run.
Qed.

Lemma count_probe_problem w :
  count (is_log_call "Problem getting image." "error") (snd (probe_run w)) = 0%nat.
Proof.
  unfold probe_run.
  destruct (path_exists w "/dev/video0"); [reflexivity |].
  destruct (path_exists w "/dev/video1"); [reflexivity |].
  cbn [snd]. rewrite count_app. cbn [Nat.add]. change (count _ [_; _; _]) with 0%nat.
  apply count_none. intros e He. apply log_events in He.
  eapply is_log_call_other; [exact He | right].
  intros s' E. injection E as <-. discriminate.
Qed.

Lemma count_save_not_detected w frame :
  count (is_log_call "USB Camera not detected." "error")
    (snd (run (save_frame frame) w)) = 0%nat.
Proof.
  apply count_none. intros e He. destruct frame as [image |].
  - destruct (run_save_stage (Some image) w) as (path & final & E & _).
    rewrite E in He. destruct He as [<- | [<- | []]]; reflexivity.
  - apply log_events in He. eapply is_log_call_other; [exact He | right].
    intros s' E. injection E as <-. discriminate.
Qed.

(** X14: a USB run calls [log("USB Camera not detected.", "error")] once
    when neither [/dev/video0] nor [/dev/video1] exists, and never when
    one of them does. *)
Theorem usb_reports_missing_camera_once (w : world) :
  count (is_log_call "USB Camera not detected." "error")
    (snd (run usb_camera_photo w)) =
    if path_exists w "/dev/video0" || path_exists w "/dev/video1" then 0%nat else 1%nat.
Proof.
  rewrite run_usb_camera_photo. unfold usb_stages. cbv zeta.
  pose proof (count_probe_not_detected w) as P.
  destruct (fst (probe_run w)); cbn [snd]; [| exact P].
  destruct (fst (run configure w));
    cbn [snd]; rewrite !count_app, P, count_configure;
    rewrite ?count_repeat_grab, ?count_save_not_detected by reflexivity;
    change (count _ [VideoCapture _; Sleep]) with 0%nat;
    try change (count _ [CameraRead; CameraRelease]) with 0%nat; lia.
Qed.

End UsbCounts.

Section UsbCapture.

Lemma reporting_not_capture e : reporting_event e -> ~ capture_event e.
Proof.
  intros R [-> | [-> | ->]];
    destruct R as [(? & R) | [(? & ? & R) | (? & ? & ? & R)]]; discriminate R.
Qed.

Lemma probe_not_capture w : Forall (fun e => ~ capture_event e) (snd (probe_run w)).
Proof.
  rewrite List.Forall_forall. intros e He.
  now apply reporting_not_capture, (probe_events w).
Qed.

Lemma configure_not_capture w :
  Forall (fun e => ~ capture_event e) (snd (run configure w)).
Proof.
  rewrite List.Forall_forall. intros e He.
  apply configure_events in He as [R | (prop & v & ->)];
    [now apply reporting_not_capture |].
  intros [H | [H | H]]; discriminate H.
Qed.

Lemma save_not_capture frame w :
  Forall (fun e => ~ capture_event e) (snd (run (save_frame frame) w)).
Proof.
  rewrite List.Forall_forall. intros e He.
  apply save_events in He as [R | (path & final & ->)];
    [now apply reporting_not_capture |].
  intros [H | [H | H]]; discriminate H.
Qed.

(** X15: a USB run that returns, or that shows any camera activity after
    the device was opened, has discarded exactly 20 frames, then read
    one, then released the device at once, and has done each only once:
    the release also follows a read that gave no frame. *)
Theorem usb_discards_reads_releases (w : world) :
  fst (run usb_camera_photo w) = Returns tt \/
  (exists e, capture_event e /\ In e (snd (run usb_camera_photo w))) ->
  exists before after,
    snd (run usb_camera_photo w) =
      before ++ repeat CameraGrab 20 ++ [CameraRead; CameraRelease] ++ after /\
    Forall (fun e => ~ capture_event e) before /\
    Forall (fun e => ~ capture_event e) after.
Proof.
  rewrite run_usb_camera_photo. unfold usb_stages. cbv zeta.
  pose proof (probe_not_capture w) as FP.
  pose proof (configure_not_capture w) as FS.
  pose proof (save_not_capture (camera_read w) w) as FV.
  assert (FO : Forall (fun e => ~ capture_event e) [VideoCapture (camera_port w); Sleep]).
  { repeat constructor; intros [H | [H | H]]; discriminate H. }
  destruct (fst (probe_run w)); cbn [fst snd].
  - destruct (fst (run configure w));
      cbn [fst snd].
    + intros _.
      exists ((snd (probe_run w) ++ [VideoCapture (camera_port w); Sleep])
                ++ snd (run configure w)),
        (snd (run (save_frame (camera_read w)) w)).
      split; [now rewrite <- !app_assoc |].
      split; [| exact FV]. rewrite !Forall_app. tauto.
    + intros [H | (e0 & C & H)]; [discriminate H | exfalso].
      assert (F : Forall (fun e => ~ capture_event e)
                    ((snd (probe_run w) ++ [VideoCapture (camera_port w); Sleep])
                       ++ snd (run configure w)))
        by (rewrite !Forall_app; tauto).
      rewrite List.Forall_forall in F. exact (F e0 H C).
  - intros [H | (e0 & C & H)]; [discriminate H | exfalso].
    rewrite List.Forall_forall in FP. exact (FP e0 H C).
Qed.

Lemma usb_discards_reads_releases_witness :
  exists before after,
    snd (run usb_camera_photo console_world) =
      before ++ repeat CameraGrab 20 ++ [CameraRead; CameraRelease] ++ after /\
    Forall (fun e => ~ capture_event e) before /\
    Forall (fun e => ~ capture_event e) after.
Proof.
  apply (usb_discards_reads_releases console_world). left. reflexivity.
Defined.

Lemma reporting_not_imwrite e path final : reporting_event e -> e <> ImWrite path final.
Proof.
  intros [(? & ->) | [(? & ? & ->) | (? & ? & ? & ->)]]; discriminate.
Qed.

Lemma before_save_no_imwrite w path final :
  ~ In (ImWrite path final)
      ((snd (probe_run w) ++ [VideoCapture (camera_port w); Sleep])
         ++ snd (run configure w)
         ++ repeat CameraGrab 20 ++ [CameraRead; CameraRelease]).
Proof.
  rewrite !in_app_iff. cbn [In].
  intros [[H | [H | [H | []]]] | [H | [H | [H | [H | []]]]]]; try discriminate H.
  - apply probe_events in H. now apply (reporting_not_imwrite _ path final) in H.
  - apply configure_events in H as [H | (? & ? & H)]; [| discriminate H].
    now apply (reporting_not_imwrite _ path final) in H.
  - apply repeat_spec in H. discriminate H.
Qed.

(** X16: a USB run writes at most one file, as its last action but for
    the line that prints the same path, and only in a run that returns
    after the camera gave a frame; what it writes is that frame or what
    [rotate] returned for it. *)
Theorem usb_writes_one_file (w : world) (path : string) (final : image) :
  In (ImWrite path final) (snd (run usb_camera_photo w)) ->
  exists frame before,
    camera_read w = Some frame /\
    run usb_camera_photo w =
      (Returns tt, before ++ [ImWrite path final; Stdout ("Image saved: " +:+ path)]) /\
    (forall path' final', ~ In (ImWrite path' final') before) /\
    (final = frame \/ fst (run (rotate frame) w) = Returns final).
Proof.
  rewrite run_usb_camera_photo. unfold usb_stages. cbv zeta.
  destruct (fst (probe_run w)); cbn [snd].
  - destruct (fst (run configure w));
      cbn [snd].
    + intros H.
      assert (H' : In (ImWrite path final)
                 (((snd (probe_run w) ++ [VideoCapture (camera_port w); Sleep])
                     ++ snd (run configure w)
                     ++ repeat CameraGrab 20 ++ [CameraRead; CameraRelease])
                    ++ snd (run (save_frame (camera_read w)) w)))
        by (now rewrite <- !app_assoc in *).
      apply in_app_iff in H' as [H' | H'];
        [now apply before_save_no_imwrite in H' |].
      pose proof (run_save_stage (camera_read w) w) as S.
      destruct (camera_read w) as [frame |].
      * destruct S as (path' & final' & E & Hfinal). rewrite E in *. cbn [snd fst] in *.
        destruct H' as [H' | [H' | []]]; [| discriminate H'].
        injection H' as -> ->.
        exists frame, ((snd (probe_run w) ++ [VideoCapture (camera_port w); Sleep])
                         ++ snd (run configure w)
                         ++ repeat CameraGrab 20 ++ [CameraRead; CameraRelease]).
        split; [reflexivity |]. split; [now rewrite <- !app_assoc |].
        split; [| exact Hfinal].
        intros path' final'. apply before_save_no_imwrite.
      * exfalso. apply log_events, report_of_reporting in H'.
        now apply (reporting_not_imwrite _ path final) in H'.
    + intros H. exfalso. apply (before_save_no_imwrite w path final).
      rewrite !in_app_iff in *. tauto.
  - intros H. exfalso. apply probe_events in H.
    now apply (reporting_not_imwrite _ path final) in H.
Qed.

Lemma usb_writes_one_file_witness :
  exists frame before,
    camera_read calibrated_world = Some frame /\
    run usb_camera_photo calibrated_world =
      (Returns tt,
       before ++ [ImWrite "/tmp/images/rotated_1500000000.jpg"
                    [[Pixel 10 20 30]; [Pixel 40 50 60]];
                  Stdout ("Image saved: " +:+ "/tmp/images/rotated_1500000000.jpg")]) /\
    (forall path' final', ~ In (ImWrite path' final') before) /\
    ([[Pixel 10 20 30]; [Pixel 40 50 60]] = frame \/
     fst (run (rotate frame) calibrated_world) =
       Returns [[Pixel 10 20 30]; [Pixel 40 50 60]]).
Proof.
  apply (usb_writes_one_file calibrated_world).
  vm_compute. repeat (first [left; reflexivity | right]).
Defined.

(** X17: when the camera gives no frame, a USB run writes no file, and
    once it has read the camera it calls
    [log("Problem getting image.", "error")] exactly once. *)
Theorem usb_read_failure (w : world) :
  camera_read w = None ->
  (forall path final, ~ In (ImWrite path final) (snd (run usb_camera_photo w))) /\
  (In CameraRead (snd (run usb_camera_photo w)) ->
   count (is_log_call "Problem getting image." "error")
     (snd (run usb_camera_photo w)) = 1%nat).
Proof.
  intros None_. split.
  - intros path final H.
    destruct (usb_event_origin w _ H) as [O | [O | [O | [O | [O | O]]]]].
    + apply probe_events in O. now apply (reporting_not_imwrite _ path final) in O.
    + discriminate O.
    + discriminate O.
    + apply configure_events in O as [O | (? & ? & O)]; [| discriminate O].
      now apply (reporting_not_imwrite _ path final) in O.
    + destruct O as [O | [O | O]]; discriminate O.
    + rewrite None_ in O. apply log_events, report_of_reporting in O.
      now apply (reporting_not_imwrite _ path final) in O.
  - rewrite run_usb_camera_photo. unfold usb_stages. cbv zeta.
    pose proof (probe_not_capture w) as FP.
    pose proof (configure_not_capture w) as FS.
    rewrite List.Forall_forall in FP, FS.
    destruct (fst (probe_run w)); cbn [snd].
    + destruct (fst (run configure w));
        cbn [snd].
      * intros _. rewrite None_.
        rewrite !count_app, count_probe_problem, count_configure.
        rewrite count_repeat_grab by reflexivity.
        change (save_frame None) with (log "Problem getting image." "error").
        rewrite count_log_run. reflexivity.
      * rewrite !in_app_iff. cbn [In].
        intros [[H | [H | [H | []]]] | H]; try discriminate H; exfalso.
        -- apply (FP _ H). right. now left.
        -- apply (FS _ H). right. now left.
    + intros H. exfalso. apply (FP _ H). right. now left.
Qed.

Lemma usb_read_failure_witness :
  (forall path final,
     ~ In (ImWrite path final) (snd (run usb_camera_photo no_frame_world))) /\
  (In CameraRead (snd (run usb_camera_photo no_frame_world)) ->
   count (is_log_call "Problem getting image." "error")
     (snd (run usb_camera_photo no_frame_world)) = 1%nat).
Proof. apply (usb_read_failure no_frame_world). reflexivity. Defined.

End UsbCapture.
(** ** The order of a USB run *)

Section UsbOrder.

(** An element that is not in the first part of a list is found in the
    second. *)
Lemma split_in_second {A} (l1 l2 before after : list A) (x : A) :
  l1 ++ l2 = before ++ x :: after -> ~ In x l1 ->
  exists mid, before = l1 ++ mid /\ l2 = mid ++ x :: after.
Proof.
  revert before. induction l1 as [| a l1 IH]; intros before E N.
  - now exists before.
  - destruct before as [| b before]; cbn in E.
    + injection E as -> _. destruct N. now left.
    + injection E as -> E. destruct (IH before E) as (mid & -> & ->).
      * intros H. apply N. now right.
      * now exists mid.
Qed.

(** X18: in a USB run the device is opened before anything is set on it
    or taken from it, and nothing is set once the first frame has been
    discarded: all settings lie between the opening and the first
    grab. *)
Theorem usb_settings_between_open_and_grab
    (w : world) (before after : trace) (e : event) :
  snd (run usb_camera_photo w) = before ++ e :: after ->
  ((exists prop v, e = CameraSet prop v) \/ capture_event e ->
   In (VideoCapture (if path_exists w "/dev/video0" then 0 else 1)) before) /\
  (capture_event e -> forall prop v, ~ In (CameraSet prop v) after).
Proof.
  fold (camera_port w).
  rewrite run_usb_camera_photo. unfold usb_stages. cbv zeta.
  set (Pr := snd (probe_run w)).
  set (St := snd (run configure w)).
  set (Sv := snd (run (save_frame (camera_read w)) w)).
  assert (NP : forall x, (exists prop v, x = CameraSet prop v) \/ capture_event x ->
                 ~ In x (Pr ++ [VideoCapture (camera_port w)])).
  { intros x Hx H. apply in_app_iff in H as [H | [<- | []]].
    - apply probe_events in H.
      destruct Hx as [(prop & v & ->) | C].
      + destruct H as [(? & H) | [(? & ? & H) | (? & ? & ? & H)]]; discriminate H.
      + exact (reporting_not_capture _ H C).
    - destruct Hx as [(? & ? & Hx) | [Hx | [Hx | Hx]]]; discriminate Hx. }
  assert (NS : forall x, capture_event x ->
                 ~ In x ((Pr ++ [VideoCapture (camera_port w); Sleep]) ++ St)).
  { intros x C H. pose proof (probe_not_capture w) as FP.
    pose proof (configure_not_capture w) as FS.
    rewrite List.Forall_forall in FP, FS.
    apply in_app_iff in H as [H | H]; [| exact (FS x H C)].
    apply in_app_iff in H as [H | [<- | [<- | []]]]; [exact (FP x H C) | |];
      destruct C as [C | [C | C]]; discriminate C. }
  assert (NV : forall prop v,
             ~ In (CameraSet prop v) (repeat CameraGrab 20 ++ [CameraRead; CameraRelease] ++ Sv)).
  { intros prop v H. rewrite !in_app_iff in H. cbn [In] in H.
    destruct H as [H | [[H | [H | []]] | H]]; try discriminate H.
    - apply repeat_spec in H. discriminate H.
    - apply save_events in H as [H | (? & ? & H)]; [| discriminate H].
      destruct H as [(? & H) | [(? & ? & H) | (? & ? & ? & H)]]; discriminate H. }
  assert (Open : forall tail,
             (Pr ++ [VideoCapture (camera_port w)]) ++ tail = before ++ e :: after ->
             (exists prop v, e = CameraSet prop v) \/ capture_event e ->
             In (VideoCapture (camera_port w)) before).
  { intros tail E Hx.
    destruct (split_in_second _ _ _ _ _ E (NP e Hx)) as (mid & -> & _).
    rewrite !in_app_iff. cbn [In]. tauto. }
  destruct (fst (probe_run w)); cbn [snd].
  - destruct (fst (run configure w));
      cbn [snd]; fold St; intros E.
    + split.
      * apply (Open (Sleep :: St ++ repeat CameraGrab 20
                       ++ [CameraRead; CameraRelease] ++ Sv)).
        rewrite <- E, <- !app_assoc. reflexivity.
      * intros C prop v H.
        assert (E' : ((Pr ++ [VideoCapture (camera_port w); Sleep]) ++ St)
                       ++ (repeat CameraGrab 20 ++ [CameraRead; CameraRelease] ++ Sv)
                     = before ++ e :: after)
          by (rewrite <- E, <- !app_assoc; reflexivity).
        destruct (split_in_second _ _ _ _ _ E' (NS e C)) as (mid & _ & Etail).
        apply (NV prop v). rewrite Etail. apply in_app_iff. right. now right.
    + split.
      * apply (Open (Sleep :: St)). rewrite <- E, <- !app_assoc. reflexivity.
      * intros C. exfalso. apply (NS e C). rewrite E. apply in_app_iff.
        right. now left.
  - fold Pr. intros E. split.
    + intros Hx. exfalso. apply (NP e Hx). apply in_app_iff. left.
      rewrite E. apply in_app_iff. right. now left.
    + intros C. exfalso. pose proof (probe_not_capture w) as FP.
      rewrite List.Forall_forall in FP. apply (FP e); [| exact C].
      fold Pr. rewrite E. apply in_app_iff. right. now left.
Qed.

Lemma usb_settings_between_open_and_grab_witness :
  ((exists prop v, CameraGrab = CameraSet prop v) \/ capture_event CameraGrab ->
   In (VideoCapture (if path_exists console_world "/dev/video0" then 0 else 1))
     [VideoCapture 0; Sleep;
      CameraSet CAP_PROP_FRAME_WIDTH 640; CameraSet CAP_PROP_FRAME_HEIGHT 480]) /\
  (capture_event CameraGrab ->
   forall prop v,
     ~ In (CameraSet prop v)
         (repeat CameraGrab 19 ++
          [CameraRead; CameraRelease;
           ImWrite "/tmp/images/1500000000.jpg" wide_frame;
           Stdout "Image saved: /tmp/images/1500000000.jpg"])).
Proof.
  apply (usb_settings_between_open_and_grab console_world
           [VideoCapture 0; Sleep;
            CameraSet CAP_PROP_FRAME_WIDTH 640; CameraSet CAP_PROP_FRAME_HEIGHT 480]
           (repeat CameraGrab 19 ++
            [CameraRead; CameraRelease;
             ImWrite "/tmp/images/1500000000.jpg" wide_frame;
             Stdout "Image saved: /tmp/images/1500000000.jpg"])
           CameraGrab).
  vm_compute. reflexivity.
Defined.

End UsbOrder.

Section UsbRelease.

(** Lines 86-123 raise when reading a setting raises, or when a report
    of the settings block does. *)
Lemma configure_raises w :
  (exists e, fst (run configure w) = Raises e) <->
  (exists e, fst (run read_capture_parameters w) = Raises e) \/
  (exists parameters e,
     fst (run read_capture_parameters w) = Returns parameters /\
     fst (run (apply_capture_parameters parameters) w) = Raises e).
Proof.
  rewrite run_configure.
  destruct (fst (run read_capture_parameters w)) as [parameters | e]; cbn [fst].
  - split.
    + intros (e & He). right. now exists parameters, e.
    + intros [(e & He) | (p' & e & Hp & He)]; [discriminate He |].
      injection Hp as <-. now exists e.
  - split; [intros _; left; now exists e | intros _; now exists e].
Qed.

(** X19: once a USB run has opened the device, the device is released
    unless [get_config_value] raised for one of the seven settings or a
    report of the settings block raised: in these cases, and only then,
    the run ends with the device open and neither read nor released. *)
Theorem usb_release_unless_settings_raise (w : world) (port : Z) :
  In (VideoCapture port) (snd (run usb_camera_photo w)) ->
  (~ In CameraRelease (snd (run usb_camera_photo w)) <->
   (exists e, fst (run read_capture_parameters w) = Raises e) \/
   (exists parameters e,
      fst (run read_capture_parameters w) = Returns parameters /\
      fst (run (apply_capture_parameters parameters) w) = Raises e)) /\
  (In CameraRelease (snd (run usb_camera_photo w)) <->
   In CameraRead (snd (run usb_camera_photo w))).
Proof.
  rewrite <- configure_raises.
  rewrite run_usb_camera_photo. unfold usb_stages. cbv zeta.
  pose proof (probe_not_capture w) as FP.
  pose proof (configure_not_capture w) as FS.
  pose proof (save_not_capture (camera_read w) w) as FV.
  rewrite List.Forall_forall in FP, FS, FV.
  assert (C1 : capture_event CameraRelease) by (right; now right).
  assert (C2 : capture_event CameraRead) by (right; now left).
  destruct (fst (probe_run w)); cbn [snd].
  - intros _.
    destruct (fst (run configure w))
      as [[] | e]; cbn [snd]; rewrite !in_app_iff; cbn [In].
    + split; [split |]; try tauto.
      intros (e & He). discriminate He.
    + split; [split; [intros _; now exists e |] |].
      * intros _ [[H | [H | [H | []]]] | H]; try discriminate H.
        -- exact (FP _ H C1).
        -- exact (FS _ H C1).
      * split; intros [[H | [H | [H | []]]] | H]; try discriminate H; exfalso;
          first [exact (FP _ H C1) | exact (FS _ H C1)
                | exact (FP _ H C2) | exact (FS _ H C2)].
  - intros H. exfalso. apply probe_events in H.
    destruct H as [(? & H) | [(? & ? & H) | (? & ? & ? & H)]]; discriminate H.
Qed.

Lemma usb_release_unless_settings_raise_witness :
  (~ In CameraRelease (snd (run usb_camera_photo bare_world)) <->
   (exists e, fst (run read_capture_parameters bare_world) = Raises e) \/
   (exists parameters e,
      fst (run read_capture_parameters bare_world) = Returns parameters /\
      fst (run (apply_capture_parameters parameters) bare_world) = Raises e)) /\
  (In CameraRelease (snd (run usb_camera_photo bare_world)) <->
   In CameraRead (snd (run usb_camera_photo bare_world))).
Proof.
  apply (usb_release_unless_settings_raise bare_world 0).
  vm_compute. left. reflexivity.
Defined.

End UsbRelease.

(** ** What the board-camera path never does *)

Section BoardCameraRuns.

(** X20: a board-camera run launches the capture utility once, first of
    all, asking for 640 by 480 into the upload path of the timestamp name;
    everything after is reporting: it opens no camera, sets nothing,
    rotates and writes nothing itself. *)
Theorem rpi_launches_once_then_reports (w : world) :
  exists rest,
    snd (run rpi_camera_photo w) =
      Subprocess ["raspistill"; "-w"; "640"; "-h"; "480"; "-o";
                  default "/tmp/images" (environ w !! "IMAGES_DIR") +:+ "/" +:+
                  pretty (int_of_float (time w)) +:+ ".jpg"] :: rest /\
    Forall reporting_event rest.
Proof.
  rewrite run_rpi_camera_photo. cbv zeta.
  unfold raspistill_argv, images_dir, timestamp_name.
  set (argv := ["raspistill"; "-w"; "640"; "-h"; "480"; "-o"; _]).
  assert (L : forall message tr,
             Forall reporting_event tr ->
             exists rest,
               snd (log (PyStr message) "error" w (Subprocess argv :: tr)) =
                 Subprocess argv :: rest /\
               Forall reporting_event rest).
  { intros message tr F.
    rewrite (proj1 (appends_log message "error" w)). cbn [snd app].
    eexists. split; [reflexivity |]. apply Forall_app. split; [exact F |].
    rewrite List.Forall_forall. intros e He.
    eapply report_of_reporting, log_events, He. }
  destruct (subprocess_call w argv) as [retcode | e].
  - destruct (retcode =? 0).
    + eexists. split; [reflexivity |]. constructor; [| constructor].
      left. now eexists.
    + destruct (L "Problem getting image." [] (List.Forall_nil _)) as (rest & E & F).
      change [Subprocess argv] with (Subprocess argv :: []).
      destruct (log "Problem getting image." "error" w (Subprocess argv :: []))
        as [[[] | e] tr] eqn:R; cbn [snd] in E; subst tr.
      * now exists rest.
      * destruct e; try now exists rest.
        apply L. exact F.
  - destruct e; try (exists []; split; [reflexivity | constructor]).
    apply (L "Raspberry Pi Camera not detected." []). constructor.
Qed.

End BoardCameraRuns.

(** ** Runs outside the platform *)

Section WithoutEndpoint.

Variable w : world.
Hypothesis no_endpoint : environ w !! "FARMWARE_URL" = None.

Lemma returns_in_log message message_type : returns_in w (log message message_type).
Proof.
  intros tr. rewrite log_unfold. cbv zeta. rewrite no_endpoint. now eexists.
Qed.

Lemma returns_in_bind (m1 m2 : M unit) :
  returns_in w m1 -> returns_in w m2 -> returns_in w (m1;; m2).
Proof.
  intros H1 H2 tr. unfold mbind, M_bind.
  destruct (H1 tr) as (tr1 & ->). apply H2.
Qed.

Lemma returns_in_emit e : returns_in w (emit e).
Proof. intros tr. now eexists. Qed.

Lemma returns_in_ret : returns_in w (mret tt).
Proof. intros tr. now eexists. Qed.

Lemma returns_in_apply_capture_parameters p :
  returns_in w (apply_capture_parameters p).
Proof.
  unfold apply_capture_parameters, camera_set.
  repeat lazymatch goal with
    | |- returns_in _ (log _ _) => apply returns_in_log
    | |- returns_in _ (if ?b then _ else _) => destruct b
    | |- returns_in _ (emit _) => apply returns_in_emit
    | |- returns_in _ (mret _) => apply returns_in_ret
    | |- returns_in _ (_ ≫= _) => apply returns_in_bind
    end.
Qed.

Lemma returns_in_save_frame frame : returns_in w (save_frame frame).
Proof.
  destruct frame as [image |].
  - intros tr. rewrite run_save_frame.
    destruct (fst (run (rotate image) w)); now eexists.
  - apply returns_in_log.
Qed.

Lemma usb_outcome_without_endpoint :
  fst (run usb_camera_photo w) =
    match fst (run read_capture_parameters w) with
    | Returns _ => Returns tt
    | Raises e => Raises e
    end.
Proof.
  rewrite run_usb_camera_photo. unfold usb_stages. cbv zeta.
  assert (P : fst (probe_run w) = Returns tt).
  { unfold probe_run. destruct (path_exists w "/dev/video0"); [reflexivity |].
    destruct (path_exists w "/dev/video1"); [reflexivity |]. cbn [fst].
    unfold run. now destruct (returns_in_log "USB Camera not detected." "error" [])
      as (tr' & ->). }
  rewrite P, run_configure.
  destruct (fst (run read_capture_parameters w)) as [parameters | e]; [| reflexivity].
  cbn [fst]. unfold run at 1.
  destruct (returns_in_apply_capture_parameters parameters []) as (tr2 & ->). cbn [fst].
  unfold run. now destruct (returns_in_save_frame (camera_read w) []) as (tr3 & ->).
Qed.

End WithoutEndpoint.

Section WithoutEndpointClaims.

(** X21: without [FARMWARE_URL] no report can fail, so the USB path
    runs to its end unless [get_config_value] raises for one of the
    seven settings, and then it raises what that call raised; the
    board-camera path runs to its end unless launching the utility
    raises something other than [OSError]. *)
Theorem paths_return_without_endpoint (w : world) :
  environ w !! "FARMWARE_URL" = None ->
  fst (run usb_camera_photo w) =
    match fst (run read_capture_parameters w) with
    | Returns _ => Returns tt
    | Raises e => Raises e
    end /\
  fst (run rpi_camera_photo w) =
    match subprocess_call w (raspistill_argv w) with
    | Returns _ | Raises OSError => Returns tt
    | Raises e => Raises e
    end.
Proof.
  intros N. split; [now apply usb_outcome_without_endpoint |].
  rewrite run_rpi_camera_photo. cbv zeta.
  destruct (subprocess_call w (raspistill_argv w)) as [retcode | e].
  - destruct (retcode =? 0); [reflexivity |].
    now destruct (returns_in_log w N "Problem getting image." "error"
                    [Subprocess (raspistill_argv w)]) as (tr' & ->).
  - destruct e; try reflexivity.
    now destruct (returns_in_log w N "Raspberry Pi Camera not detected." "error"
                    [Subprocess (raspistill_argv w)]) as (tr' & ->).
Qed.

Lemma paths_return_without_endpoint_witness :
  (fst (run usb_camera_photo console_world) =
     match fst (run read_capture_parameters console_world) with
     | Returns _ => Returns tt
     | Raises e => Raises e
     end /\
   fst (run rpi_camera_photo console_world) =
     match subprocess_call console_world (raspistill_argv console_world) with
     | Returns _ | Raises OSError => Returns tt
     | Raises e => Raises e
     end) /\
  fst (run usb_camera_photo bare_world) = Raises (KeyError "take_photo_brightness_val").
Proof.
  split.
  - apply (paths_return_without_endpoint console_world). reflexivity.
  - exact (proj1 (paths_return_without_endpoint bare_world eq_refl)).
Defined.

End WithoutEndpointClaims.
